(** * A CSP solver for the vehicle routing problem with time windows

    Shallow embedding of [VRPTW3/main.py] (class [CSP_VRPTW]) and the
    properties of its search engine.

    Conventions of the embedding:
    - the solver object [self] is a record; a method that mutates it takes
      the record and returns the new one;
    - a Python exception is the outcome [Raise]; the [while] loop of the
      arc-consistency pass and the recursion of the search carry a fuel
      counter, whose exhaustion is the outcome [Fuel] (shown below never to
      happen in the states in which [solve] runs them); the recursion limit
      of the interpreter is not modelled, and [print] is left out;
    - Python [int] is [Z]; Python [float] is IEEE binary64, modelled by the
      [spec_float] type of the Standard Library with [prec = 53] and
      [emax = 1024]; that type has a single NaN, so the sign and the
      payload of a NaN are not modelled, and a statement that a float is
      [S754_nan] says that it is some NaN; [x ** 2] is the correctly
      rounded square of [x], where the interpreter calls the [pow] of the
      C library on [|x|], whose last bit can differ: what is proved of
      squares below (their sign, the square of a zero and of the special
      values, [x] and [-x] having the same square, [OverflowError] as the
      only exception) does not rest on that bit;
    - dictionaries are [gmap]s; [deepcopy] is the identity on values. *)

From Stdlib Require Import ZArith Lia Floats.SpecFloat.
From stdpp Require Import base option list gmap strings pretty sorting.

Local Open Scope Z_scope.
Local Open Scope nat_scope.

(** ** Outcomes of a computation *)

Inductive exn := KeyError | IndexError | ValueError | OverflowError.

Inductive outcome (A : Type) : Type :=
  | Ok (a : A)
  | Raise (e : exn)
  | Fuel.
Arguments Ok {A} a.
Arguments Raise {A} e.
Arguments Fuel {A}.

#[global] Instance outcome_ret : MRet outcome := @Ok.
#[global] Instance outcome_bind : MBind outcome := λ A B f m,
  match m with
  | Ok a => f a
  | Raise e => Raise e
  | Fuel => Fuel
  end.
#[global] Instance outcome_fmap : FMap outcome := λ A B f m,
  match m with
  | Ok a => Ok (f a)
  | Raise e => Raise e
  | Fuel => Fuel
  end.

#[global] Instance exn_eq_dec : EqDecision exn.
Proof. solve_decision. Defined.
#[global] Instance outcome_eq_dec `{EqDecision A} : EqDecision (outcome A).
Proof. solve_decision. Defined.

(** [l[i]] on a list and [d[k]] on a dictionary. *)
Definition list_get {A} (l : list A) (i : nat) : outcome A :=
  match l !! i with
  | Some a => Ok a
  | None => Raise IndexError
  end.

Definition dict_get {A} (d : gmap nat A) (k : nat) : outcome A :=
  match d !! k with
  | Some a => Ok a
  | None => Raise KeyError
  end.

(** [[f(a) for a in l]] where [f] may raise. *)
Fixpoint map_o {A B} (f : A → outcome B) (l : list A) : outcome (list B) :=
  match l with
  | [] => Ok []
  | a :: l' => b ← f a; bs ← map_o f l'; Ok (b :: bs)
  end.

(** [[a for a in l if p(a)]] where [p] may raise. *)
Fixpoint filter_o {A} (p : A → outcome bool) (l : list A) : outcome (list A) :=
  match l with
  | [] => Ok []
  | a :: l' =>
      b ← p a; r ← filter_o p l';
      Ok (if b : bool then a :: r else r)
  end.

(** [any(p(a) for a in l)]: stops at the first true element. *)
Fixpoint any_o {A} (p : A → outcome bool) (l : list A) : outcome bool :=
  match l with
  | [] => Ok false
  | a :: l' => b ← p a; if b : bool then Ok true else any_o p l'
  end.

(** [l.remove(a)]: drops the first occurrence, [ValueError] if absent. *)
Fixpoint list_remove (a : nat) (l : list nat) : outcome (list nat) :=
  match l with
  | [] => Raise ValueError
  | b :: l' => if decide (a = b) then Ok l' else r ← list_remove a l'; Ok (b :: r)
  end.

(** ** Python numbers *)

Module PyNum.

Definition prec : Z := 53.
Definition emax : Z := 1024.

Definition fadd := SFadd prec emax.
Definition fsub := SFsub prec emax.
Definition fmul := SFmul prec emax.
Definition fsqrt := SFsqrt prec emax.

(** A number held by a Python variable: an [int] or a [float]. *)
Inductive pynum := PInt (z : Z) | PFloat (f : spec_float).

(** Conversion of an [int] operand to [float] (round to nearest even);
    CPython raises [OverflowError] when the result is out of range. *)
Definition int_to_float (z : Z) : outcome spec_float :=
  match binary_normalize prec emax z 0 false with
  | S754_infinity _ => Raise OverflowError
  | f => Ok f
  end.

(** [a + b] *)
Definition py_add (a b : pynum) : outcome pynum :=
  match a, b with
  | PInt m, PInt n => Ok (PInt (m + n))
  | PFloat f, PFloat g => Ok (PFloat (fadd f g))
  | PInt m, PFloat g => f ← int_to_float m; Ok (PFloat (fadd f g))
  | PFloat f, PInt n => g ← int_to_float n; Ok (PFloat (fadd f g))
  end.

(** Exact comparison of a float with an integer, as CPython's
    [float_richcompare] does it: an infinity compares by its sign, a NaN
    is unordered, a finite float [±m·2^e] is compared without rounding. *)
Definition float_cmp_int (f : spec_float) (n : Z) : option comparison :=
  match f with
  | S754_nan => None
  | S754_infinity s => Some (if s then Lt else Gt)
  | S754_zero _ => Some (0 ?= n)%Z
  | S754_finite s m e =>
      Some (if (0 <=? e)%Z
            then (cond_Zopp s (Z.pos m * 2 ^ e) ?= n)%Z
            else (cond_Zopp s (Z.pos m) ?= n * 2 ^ (- e))%Z)
  end.

Definition py_cmp (a b : pynum) : option comparison :=
  match a, b with
  | PInt m, PInt n => Some (m ?= n)%Z
  | PFloat f, PFloat g => SFcompare f g
  | PFloat f, PInt n => float_cmp_int f n
  | PInt m, PFloat g => CompOpp <$> float_cmp_int g m
  end.

(** [a < b] and [a > b]; both are false when a NaN is involved. *)
Definition py_lt (a b : pynum) : bool :=
  match py_cmp a b with Some Lt => true | _ => false end.
Definition py_gt (a b : pynum) : bool :=
  match py_cmp a b with Some Gt => true | _ => false end.

(** [max(a, b)]: the first argument unless the second is greater. *)
Definition py_max (a b : pynum) : pynum := if py_gt b a then b else a.

(** [x ** 2] on a float ([float_pow] with exponent 2): NaN stays NaN, an
    infinity gives [+inf], a zero gives [+0.0]; otherwise the correctly
    rounded square, and [OverflowError] when it is out of range.  The
    interpreter computes the [pow] of the C library on [|x|], which agrees
    with this on the sign, on zero, on the special values and on [x] and
    [-x], not necessarily on the last bit. *)
Definition float_pow2 (f : spec_float) : outcome spec_float :=
  match f with
  | S754_nan => Ok S754_nan
  | S754_infinity _ => Ok (S754_infinity false)
  | S754_zero _ => Ok (S754_zero false)
  | S754_finite _ _ _ =>
      match fmul f f with
      | S754_infinity _ => Raise OverflowError
      | r => Ok r
      end
  end.

(** [math.sqrt(x)]: [ValueError] on a negative argument. *)
Definition math_sqrt (f : spec_float) : outcome spec_float :=
  match f with
  | S754_finite true _ _ | S754_infinity true => Raise ValueError
  | _ => Ok (fsqrt f)
  end.

(** [x == y] on floats. *)
Definition float_eq (f g : spec_float) : bool := SFeqb f g.

Definition of_Z (z : Z) : spec_float := binary_normalize prec emax z 0 false.

Definition is_finite (f : spec_float) : bool :=
  match f with
  | S754_zero _ | S754_finite _ _ _ => true
  | _ => false
  end.

End PyNum.
Import PyNum.

#[global] Instance spec_float_eq_dec : EqDecision spec_float.
Proof. solve_decision. Defined.
#[global] Instance pynum_eq_dec : EqDecision pynum.
Proof. solve_decision. Defined.

(** ** Data model *)

(** One record of the customer list; record 0 is the depot. *)
Record customer := Customer {
  cust_id : Z;
  cust_x : spec_float;
  cust_y : spec_float;
  demand : Z;
  ready_time : Z;
  due_time : Z;
  service_time : Z;
}.

(** The routes table: vehicle index to the customers it visits, in order. *)
Abbreviation routes_t := (gmap nat (list nat)).

(** The solver object. *)
Record CSP_VRPTW := Self {
  customers : list customer;
  vehicle_capacity : Z;
  num_vehicles : Z;
  distance_matrix : list (list spec_float);
  domains : gmap nat (list nat);
  assignments : gmap nat nat;
  routes : routes_t;
}.

Definition set_domains (self : CSP_VRPTW) (d : gmap nat (list nat)) : CSP_VRPTW :=
  Self (customers self) (vehicle_capacity self) (num_vehicles self)
       (distance_matrix self) d (assignments self) (routes self).
Definition set_assignments (self : CSP_VRPTW) (a : gmap nat nat) : CSP_VRPTW :=
  Self (customers self) (vehicle_capacity self) (num_vehicles self)
       (distance_matrix self) (domains self) a (routes self).
Definition set_routes (self : CSP_VRPTW) (r : routes_t) : CSP_VRPTW :=
  Self (customers self) (vehicle_capacity self) (num_vehicles self)
       (distance_matrix self) (domains self) (assignments self) r.

Definition num_customers (self : CSP_VRPTW) : nat := length (customers self).
Definition depot : nat := 0.

(** [list(range(1, num_customers))]: every customer but the depot. *)
Definition variables (self : CSP_VRPTW) : list nat := seq 1 (num_customers self - 1).

(** [{v: list(range(limit)) for v in variables}] *)
Definition fresh_domains (vars : list nat) (limit : nat) : gmap nat (list nat) :=
  list_to_map ((λ v, (v, seq 0 limit)) <$> vars).

(** [{v: [] for v in range(limit)}] *)
Definition fresh_routes (limit : nat) : routes_t :=
  list_to_map ((λ v, (v, [])) <$> seq 0 limit).

(** [d.values()] and [d.items()].  The routes table is only ever built by
    [fresh_routes] and copied, so its insertion order is the ascending
    order of its keys. *)
Definition key_le {A} (a b : nat * A) : Prop := a.1 ≤ b.1.
#[global] Instance key_le_dec {A} : RelDecision (@key_le A).
Proof. intros a b. unfold key_le. apply _. Defined.

Definition dict_items {A} (d : gmap nat A) : list (nat * A) :=
  merge_sort key_le (map_to_list d).
Definition dict_values {A} (d : gmap nat A) : list A := (dict_items d).*2.

(** ** Distance model *)

Definition euclidean_distance (loc1 loc2 : spec_float * spec_float) : outcome spec_float :=
  dx ← float_pow2 (fsub loc1.1 loc2.1);
  dy ← float_pow2 (fsub loc1.2 loc2.2);
  math_sqrt (fadd dx dy).

Definition _create_distance_matrix (custs : list customer) : outcome (list (list spec_float)) :=
  let locations := (λ c, (cust_x c, cust_y c)) <$> custs in
  map_o (λ li, map_o (λ lj, euclidean_distance li lj) locations) locations.

(** [CSP_VRPTW(customers, vehicle_capacity, num_vehicles)] *)
Definition init (custs : list customer) (capacity : Z) (nv : Z) : outcome CSP_VRPTW :=
  dm ← _create_distance_matrix custs;
  Ok {| customers := custs;
        vehicle_capacity := capacity;
        num_vehicles := nv;
        distance_matrix := dm;
        domains := fresh_domains (seq 1 (length custs - 1)) (Z.to_nat nv);
        assignments := ∅;
        routes := fresh_routes (Z.to_nat nv) |}.

(** ** Constraint checker *)

Definition customer_at (self : CSP_VRPTW) (c : nat) : outcome customer :=
  list_get (customers self) c.

(** [self.distance_matrix[a][b]] *)
Definition dist (self : CSP_VRPTW) (a b : nat) : outcome spec_float :=
  row ← list_get (distance_matrix self) a; list_get row b.

(** The body of the loop of [_validate_time_windows]: [rest] is what is
    left of [route] from position [i] on. *)
Fixpoint validate_loop (self : CSP_VRPTW) (route : list nat) (i : nat)
    (rest : list nat) (time : pynum) : outcome bool :=
  match rest with
  | [] => Ok true
  | cust :: rest' =>
      travel_time ← (if decide (0 < i)
                     then prev ← list_get route (i - 1); dist self prev cust
                     else dist self depot cust);
      time ← py_add time (PFloat travel_time);
      c ← customer_at self cust;
      let time := py_max time (PInt (ready_time c)) in
      if py_gt time (PInt (due_time c)) then Ok false
      else
        time ← py_add time (PInt (service_time c));
        validate_loop self route (S i) rest' time
  end.

Definition _validate_time_windows (self : CSP_VRPTW) (route : list nat) : outcome bool :=
  validate_loop self route 0 route (PInt 0).

(** [[cust for r in self.routes.values() for cust in r]] *)
Definition routed_customers (self : CSP_VRPTW) : list nat :=
  mjoin (dict_values (routes self)).

Definition sum_Z (l : list Z) : Z := foldr Z.add 0%Z l.

Definition is_consistent (self : CSP_VRPTW) (variable value : nat) (route : list nat)
    : outcome bool :=
  if bool_decide (variable ∈ routed_customers self) then Ok false
  else
    ds ← map_o (λ c, demand <$> customer_at self c) route;
    dv ← demand <$> customer_at self variable;
    let total_demand := (sum_Z ds + dv)%Z in
    if (total_demand >? vehicle_capacity self)%Z then Ok false
    else _validate_time_windows self (route ++ [variable]).

(** The call [self.is_consistent(x, v, deepcopy(self.routes[v]))] that the
    search, forward checking and the revise step all make. *)
Definition consistent_at (self : CSP_VRPTW) (x v : nat) : outcome bool :=
  r ← dict_get (routes self) v; is_consistent self x v r.

(** ** Domain store and propagation *)

Fixpoint fc_loop (self : CSP_VRPTW) (original_domains : gmap nat (list nat))
    (neighbors : list nat) : outcome (bool * CSP_VRPTW) :=
  match neighbors with
  | [] => Ok (true, self)
  | neighbor :: rest =>
      if decide (is_Some (assignments self !! neighbor))
      then fc_loop self original_domains rest
      else
        d ← dict_get (domains self) neighbor;
        d' ← filter_o (consistent_at self neighbor) d;
        let self := set_domains self (<[neighbor := d']> (domains self)) in
        match d' with
        | [] => Ok (false, set_domains self original_domains)
        | _ => fc_loop self original_domains rest
        end
  end.

Definition _forward_checking (self : CSP_VRPTW) (variable value : nat)
    : outcome (bool * CSP_VRPTW) :=
  fc_loop self (domains self) (variables self).

(** The loop of [_revise] over the copy [self.domains[x][:]].  The
    generator inside [any] rebinds [value], so the test ranges over the
    values of [y] and does not mention the value being revised. *)
Fixpoint revise_loop (self : CSP_VRPTW) (x y : nat) (values : list nat)
    (revised : bool) : outcome (bool * CSP_VRPTW) :=
  match values with
  | [] => Ok (revised, self)
  | value :: rest =>
      dy ← dict_get (domains self) y;
      supported ← any_o (consistent_at self x) dy;
      if supported : bool then revise_loop self x y rest revised
      else
        dx ← dict_get (domains self) x;
        dx' ← list_remove value dx;
        revise_loop (set_domains self (<[x := dx']> (domains self))) x y rest true
  end.

Definition _revise (self : CSP_VRPTW) (x y : nat) : outcome (bool * CSP_VRPTW) :=
  dx ← dict_get (domains self) x;
  revise_loop self x y dx false.

(** [[(var, neighbor) for var in vs for neighbor in vs if var != neighbor]] *)
Definition arcs (vs : list nat) : list (nat * nat) :=
  var ← vs; neighbor ← vs;
  if decide (var ≠ neighbor) then [(var, neighbor)] else [].

Fixpoint ac_loop (fuel : nat) (self : CSP_VRPTW) (queue : list (nat * nat))
    : outcome (bool * CSP_VRPTW) :=
  match fuel with
  | 0 => Fuel
  | S fuel =>
      match queue with
      | [] => Ok (true, self)
      | (x, y) :: queue =>
          '(revised, self) ← _revise self x y;
          if revised : bool then
            dx ← dict_get (domains self) x;
            match dx with
            | [] => Ok (false, self)
            | _ =>
                ac_loop fuel self
                  (queue ++ ((λ z, (z, x)) <$>
                     filter (λ z, z ≠ x ∧ z ≠ y) (variables self)))
            end
          else ac_loop fuel self queue
      end
  end.

(** Every turn of the loop pops one arc, and pushes at most one arc per
    variable and only after a value was removed from a domain. *)
Definition ac_fuel (self : CSP_VRPTW) : nat :=
  S (length (arcs (variables self))
     + length (variables self) * sum_list (length <$> dict_values (domains self))).

Definition _arc_consistency (self : CSP_VRPTW) : outcome (bool * CSP_VRPTW) :=
  ac_loop (ac_fuel self) self (arcs (variables self)).

(** ** Backtracking search *)

(** [min(l, key=...)] on the list of (item, key) pairs: the first item
    with the smallest key. *)
Fixpoint argmin_first (best best_key : nat) (l : list (nat * nat)) : nat :=
  match l with
  | [] => best
  | (a, k) :: l' =>
      if decide (k < best_key) then argmin_first a k l'
      else argmin_first best best_key l'
  end.

Definition unassigned (self : CSP_VRPTW) : list nat :=
  filter (λ v, assignments self !! v = None) (variables self).

Definition _select_unassigned_variable (self : CSP_VRPTW) : outcome nat :=
  keyed ← map_o (λ var, d ← dict_get (domains self) var; Ok (var, length d))
                (unassigned self);
  match keyed with
  | [] => Raise ValueError
  | (v, k) :: rest => Ok (argmin_first v k rest)
  end.

Fixpoint lcv_loop (self : CSP_VRPTW) (value : nat) (neighbors : list nat)
    (count : nat) : outcome nat :=
  match neighbors with
  | [] => Ok count
  | neighbor :: rest =>
      if decide (assignments self !! neighbor = None) then
        d ← dict_get (domains self) neighbor;
        if bool_decide (value ∈ d) then lcv_loop self value rest (S count)
        else lcv_loop self value rest count
      else lcv_loop self value rest count
  end.

Definition _least_constraining_value (self : CSP_VRPTW) (variable value : nat)
    : outcome nat :=
  lcv_loop self value (variables self) 0.

(** [sorted(l, key=...)] on (item, key) pairs: a stable ascending sort. *)
Fixpoint insert_by_key (a : nat * nat) (l : list (nat * nat)) : list (nat * nat) :=
  match l with
  | [] => [a]
  | b :: l' => if decide (a.2 ≤ b.2) then a :: b :: l' else b :: insert_by_key a l'
  end.

Definition sorted_by_key (l : list (nat * nat)) : list nat :=
  (foldr insert_by_key [] l).*1.

(** The candidate values of [variable] in the order the search tries them. *)
Definition ordered_values (self : CSP_VRPTW) (variable : nat) : outcome (list nat) :=
  d ← dict_get (domains self) variable;
  keyed ← map_o (λ v, k ← _least_constraining_value self variable v; Ok (v, k)) d;
  Ok (sorted_by_key keyed).

(** The [for value in ...] loop of [_backtrack]; [recurse] is the
    recursive call.  As in the source, [previous_routes] is copied from
    the routes table after [variable] was appended to it. *)
Fixpoint try_values (recurse : CSP_VRPTW → outcome (option routes_t * CSP_VRPTW))
    (variable : nat) (self : CSP_VRPTW) (values : list nat)
    : outcome (option routes_t * CSP_VRPTW) :=
  match values with
  | [] => Ok (None, self)
  | value :: rest =>
      ok ← consistent_at self variable value;
      if ok : bool then
        let self := set_assignments self (<[variable := value]> (assignments self)) in
        r ← dict_get (routes self) value;
        let self := set_routes self (<[value := r ++ [variable]]> (routes self)) in
        let previous_routes := routes self in
        '(checked, self) ← _forward_checking self variable value;
        '(result, self) ← (if checked : bool then recurse self else Ok (None, self));
        match result with
        | Some res => Ok (Some res, self)
        | None =>
            _ ← dict_get (assignments self) variable;
            let self := set_assignments self (delete variable (assignments self)) in
            let self := set_routes self previous_routes in
            try_values recurse variable self rest
        end
      else try_values recurse variable self rest
  end.

Fixpoint _backtrack (fuel : nat) (self : CSP_VRPTW)
    : outcome (option routes_t * CSP_VRPTW) :=
  match fuel with
  | 0 => Fuel
  | S fuel =>
      if decide (size (assignments self) = length (variables self))
      then Ok (Some (routes self), self)
      else
        variable ← _select_unassigned_variable self;
        values ← ordered_values self variable;
        try_values (_backtrack fuel) variable self values
  end.

(** One level of recursion per variable, and one more for the leaf. *)
Definition backtracking_search (self : CSP_VRPTW) : outcome (option routes_t * CSP_VRPTW) :=
  _backtrack (S (length (variables self))) self.

(** ** Vehicle-count minimization loop *)

(** Truth value of what [backtracking_search] returns: [None] and the
    empty dictionary are false. *)
Definition truthy (solution : option routes_t) : bool :=
  match solution with
  | Some r => bool_decide (r ≠ ∅)
  | None => false
  end.

(** The three assignments at the top of the loop body of [solve]. *)
Definition reset (self : CSP_VRPTW) (vehicle_limit : nat) : CSP_VRPTW :=
  let self := set_domains self (fresh_domains (variables self) vehicle_limit) in
  let self := set_routes self (fresh_routes vehicle_limit) in
  set_assignments self ∅.

Fixpoint solve_loop (self : CSP_VRPTW) (limits : list nat)
    : outcome (option routes_t * CSP_VRPTW) :=
  match limits with
  | [] => Ok (None, self)
  | vehicle_limit :: rest =>
      let self := reset self vehicle_limit in
      '(consistent, self) ← _arc_consistency self;
      if consistent : bool then
        '(solution, self) ← backtracking_search self;
        if truthy solution then Ok (solution, self)
        else solve_loop self rest
      else solve_loop self rest
  end.

(** [range(1, self.num_vehicles + 1)] *)
Definition vehicle_limits (self : CSP_VRPTW) : list nat :=
  seq 1 (Z.to_nat (num_vehicles self)).

Definition solve (self : CSP_VRPTW) : outcome (option routes_t * CSP_VRPTW) :=
  solve_loop self (vehicle_limits self).

(** ** Reporting *)

(** [for i in range(len(route) - 1): dist += matrix[route[i]][route[i + 1]]] *)
Fixpoint inner_legs (self : CSP_VRPTW) (route : list nat) (indices : list nat)
    (d : spec_float) : outcome spec_float :=
  match indices with
  | [] => Ok d
  | i :: indices' =>
      a ← list_get route i;
      b ← list_get route (i + 1);
      leg ← dist self a b;
      inner_legs self route indices' (fadd d leg)
  end.

Definition route_distance (self : CSP_VRPTW) (route : list nat) : outcome spec_float :=
  first ← list_get route 0;
  d ← dist self depot first;
  d ← inner_legs self route (seq 0 (length route - 1)) d;
  last ← list_get route (length route - 1);
  back ← dist self last depot;
  Ok (fadd d back).

Fixpoint total_loop (self : CSP_VRPTW) (items : list (nat * list nat))
    (total_distance : pynum) : outcome pynum :=
  match items with
  | [] => Ok total_distance
  | (vehicle, route) :: rest =>
      match route with
      | [] => total_loop self rest total_distance
      | _ =>
          d ← route_distance self route;
          total_distance ← py_add total_distance (PFloat d);
          total_loop self rest total_distance
      end
  end.

Definition calculate_total_distance (self : CSP_VRPTW) : outcome pynum :=
  total_loop self (dict_items (routes self)) (PInt 0).

Definition newline : string := String (Ascii.ascii_of_nat 10) EmptyString.

(** [f"Route {vehicle + 1} : 0 {' '.join(map(str, route))} 0"] *)
Definition format_route (vehicle : nat) (route : list nat) : string :=
  "Route " +:+ pretty (vehicle + 1) +:+ " : 0 "
    +:+ String.concat " " (pretty <$> route) +:+ " 0".

Definition format_solution (self : CSP_VRPTW) : outcome (string * nat * pynum) :=
  let formatted_routes :=
    (λ vr, format_route vr.1 vr.2)
      <$> filter (λ vr : nat * list nat, vr.2 ≠ []) (dict_items (routes self)) in
  total_distance ← calculate_total_distance self;
  Ok (String.concat newline formatted_routes, length formatted_routes, total_distance).

(** ** The specification's time-window simulation *)

(** Section 4.2 of the specification in its own words: a clock, the travel
    time from the previous stop added at each customer, a free wait up to
    the ready time, rejection when the clock exceeds the due time, the
    service time added otherwise. *)
Fixpoint tw_simulation (self : CSP_VRPTW) (previous_stop : nat) (clock : pynum)
    (route : list nat) : outcome bool :=
  match route with
  | [] => Ok true
  | cust :: rest =>
      travel ← dist self previous_stop cust;
      arrival ← py_add clock (PFloat travel);
      c ← customer_at self cust;
      let start :=
        if py_lt arrival (PInt (ready_time c)) then PInt (ready_time c) else arrival in
      if py_gt start (PInt (due_time c)) then Ok false
      else
        departure ← py_add start (PInt (service_time c));
        tw_simulation self cust departure rest
  end.

Definition time_window_feasible (self : CSP_VRPTW) (route : list nat) : outcome bool :=
  tw_simulation self depot (PInt 0) route.

(** The stop before the current one, given the customers visited so far. *)
Definition previous_stop_of (visited : list nat) : nat := default depot (last visited).

(** ** Notions used in the statements *)

(** The candidate vehicles [v] of [d] for which appending [x] to the
    current route of [v] passes the checks of section 4.2. *)
Definition feasible_values (self : CSP_VRPTW) (x : nat) (d : list nat) : list nat :=
  filter (λ v, consistent_at self x v = Ok true) d.

(** Two solver objects that differ at most in their domain store. *)
Definition same_but_domains (self self' : CSP_VRPTW) : Prop :=
  self' = set_domains self (domains self').

(** The Least-Constraining-Value count of the specification: the number
    of other unassigned variables whose domain contains [value]. *)
Definition lcv_others (self : CSP_VRPTW) (variable value : nat) : nat :=
  length (filter (λ n, n ≠ variable ∧ assignments self !! n = None
                       ∧ value ∈ default [] (domains self !! n))
                 (variables self)).

(** [u] is tried before [v]: fewer other domains hold it, or as many and
    [u] is the smaller vehicle index. *)
Definition lcv_before (self : CSP_VRPTW) (variable u v : nat) : Prop :=
  lcv_others self variable u < lcv_others self variable v
  ∨ (lcv_others self variable u = lcv_others self variable v ∧ u < v).

(** Every domain lists its vehicles in ascending order. *)
Definition domains_ascending (self : CSP_VRPTW) : Prop :=
  ∀ n d, domains self !! n = Some d → StronglySorted lt d.

(** Pairs (value, key) in the order of the key, then of the value. *)
Definition key_before (a b : nat * nat) : Prop :=
  a.2 < b.2 ∨ (a.2 = b.2 ∧ a.1 < b.1).

(** Two solver objects for the same problem instance. *)
Definition same_problem (self self' : CSP_VRPTW) : Prop :=
  customers self = customers self'
  ∧ vehicle_capacity self = vehicle_capacity self'
  ∧ num_vehicles self = num_vehicles self'
  ∧ distance_matrix self = distance_matrix self'.

(** What a call of the search leaves behind: the problem and the vehicles
    of the routes table are untouched; a failed call gives back the
    assignment it was entered with, a successful one returns the routes
    table of the object. *)
Definition search_frame (self : CSP_VRPTW) (result : option routes_t)
    (self' : CSP_VRPTW) : Prop :=
  same_problem self self'
  ∧ dom (routes self') = dom (routes self)
  ∧ match result with
    | None => assignments self' = assignments self
    | Some r => r = routes self'
    end.

(** ** The Route invariant *)

(** The demands of the customers of [route] add up to at most the capacity. *)
Definition capacity_ok (self : CSP_VRPTW) (route : list nat) : Prop :=
  ∃ ds, map_o (λ c, demand <$> customer_at self c) route = Ok ds
        ∧ (sum_Z ds <= vehicle_capacity self)%Z.

(** A route within capacity that passes the time-window simulation. *)
Definition route_ok (self : CSP_VRPTW) (route : list nat) : Prop :=
  capacity_ok self route ∧ _validate_time_windows self route = Ok true.

Definition routes_feasible (self : CSP_VRPTW) (r : routes_t) : Prop :=
  ∀ v route, r !! v = Some route → route_ok self route.

(** Both can be decided by running the checks. *)
#[global] Instance capacity_ok_dec (self : CSP_VRPTW) (route : list nat) :
  Decision (capacity_ok self route).
Proof.
  unfold capacity_ok.
  destruct (map_o (λ c, demand <$> customer_at self c) route) as [ds| |] eqn:E.
  - destruct (decide (sum_Z ds <= vehicle_capacity self)%Z) as [Hle|Hgt].
    + left. eauto.
    + right. intros (ds' & [= <-] & Hle). done.
  - right. by intros (ds' & ? & _).
  - right. by intros (ds' & ? & _).
Defined.

#[global] Instance route_ok_dec (self : CSP_VRPTW) (route : list nat) :
  Decision (route_ok self route).
Proof. unfold route_ok. apply _. Defined.

(** Customer [x] is visited by one vehicle of [r], and by no other. *)
Definition in_exactly_one_route (r : routes_t) (x : nat) : Prop :=
  ∃ v route, r !! v = Some route ∧ x ∈ route
             ∧ ∀ v' route', r !! v' = Some route' → x ∈ route' → v' = v.

(** The Route invariant of a solution [r]: every customer but the depot
    is in exactly one route, a route visits nobody twice and nobody but
    those customers, and every route is within capacity and passes the
    time-window simulation. *)
Definition solution_ok (self : CSP_VRPTW) (r : routes_t) : Prop :=
  (∀ x, x ∈ variables self → in_exactly_one_route r x)
  ∧ (∀ v route, r !! v = Some route → NoDup route ∧ ∀ x, x ∈ route → x ∈ variables self)
  ∧ routes_feasible self r.

(** The state of the solver between two steps of a search that has not
    failed yet: the routes hold the assigned variables, once each, and
    every route is feasible. *)
Definition consistent_state (self : CSP_VRPTW) : Prop :=
  NoDup (routed_customers self)
  ∧ (∀ x, x ∈ routed_customers self ↔ is_Some (assignments self !! x))
  ∧ (∀ x, is_Some (assignments self !! x) → x ∈ variables self)
  ∧ routes_feasible self (routes self).

(** A computation that ends (with a value or an exception) within its fuel. *)
Definition terminates {A} (m : outcome A) : Prop := m ≠ Fuel.

(** ** Notions for the arc-consistency pass *)

(** Customer [x] alone on a vehicle: its demand is within the capacity and
    it can be served in its time window when the vehicle drives to it
    straight from the depot. *)
Definition alone_feasible (self : CSP_VRPTW) (x : nat) : outcome bool :=
  c ← customer_at self x;
  if (demand c >? vehicle_capacity self)%Z then Ok false
  else _validate_time_windows self [x].

(** The state in which [solve] starts the pass for the cap [limit]: every
    route empty, every domain the full range of vehicles. *)
Definition fresh_state (self : CSP_VRPTW) (limit : nat) : Prop :=
  (∀ v, routes self !! v = if decide (v < limit) then Some [] else None)
  ∧ (∀ x, x ∈ variables self → domains self !! x = Some (seq 0 limit)).

(** What the pass computes from a fresh state, arc by arc: [xs] lists the
    first variables of the arcs of the worklist. *)
Fixpoint ac_first_failure (self : CSP_VRPTW) (xs : list nat) : outcome (bool * CSP_VRPTW) :=
  match xs with
  | [] => Ok (true, self)
  | x :: xs' =>
      b ← alone_feasible self x;
      if b : bool then ac_first_failure self xs'
      else Ok (false, set_domains self (<[x := []]> (domains self)))
  end.

(** ** Notions for the minimization loop *)

(** One attempt of [solve] with the cap [limit], from the state the loop
    body sets up: the arc-consistency pass, then the search unless the
    pass reported an inconsistency. *)
Definition attempt (self : CSP_VRPTW) (limit : nat) : outcome (option routes_t) :=
  '(consistent, self) ← _arc_consistency (reset self limit);
  if consistent : bool then fst <$> backtracking_search self
  else Ok None.

(** The first attempt of a list that yields a solution. *)
Fixpoint first_success (try : nat → outcome (option routes_t)) (limits : list nat)
    : outcome (option routes_t) :=
  match limits with
  | [] => Ok None
  | limit :: rest =>
      r ← try limit;
      match r with
      | Some _ => Ok r
      | None => first_success try rest
      end
  end.

(** ** Notions for the distance matrix *)

(** [a == b] on Python numbers (false when a NaN is involved). *)
Definition py_eq (a b : pynum) : bool :=
  match py_cmp a b with Some Eq => true | _ => false end.

(** [matrix[i][j]] *)
Definition entry (matrix : list (list spec_float)) (i j : nat) : option spec_float :=
  row ← matrix !! i; row !! j.

(** Both coordinates of the customer are finite floats. *)
Definition finite_location (c : customer) : Prop :=
  is_finite (cust_x c) = true ∧ is_finite (cust_y c) = true.

(** A float that is neither a NaN nor negative. *)
Definition not_negative (f : spec_float) : bool :=
  match f with
  | S754_zero _ | S754_infinity false | S754_finite false _ _ => true
  | _ => false
  end.

(** ** Example instances *)

(** A customer at the integer point [(px, py)] with demand [d] and a time
    window that never binds. *)
Definition wide_customer (n px py d : Z) : customer :=
  Customer n (of_Z px) (of_Z py) d 0 1000 0.

Definition the_depot : customer := wide_customer 0 0 0 0.

(** The solver object for an instance whose matrix can be built. *)
Definition built (custs : list customer) (capacity nv : Z) : CSP_VRPTW :=
  match init custs capacity nv with
  | Ok self => self
  | _ => Self custs capacity nv [] ∅ ∅ ∅
  end.

(** Two customers of demand 10 at distance 1 from the depot. *)
Definition two_customers : list customer :=
  [the_depot; wide_customer 1 1 0 10; wide_customer 2 0 1 10].

(** Three customers of demand 10: no two of them fit a vehicle of
    capacity 15. *)
Definition three_heavy : list customer :=
  [the_depot; wide_customer 1 1 0 10; wide_customer 2 1 0 10; wide_customer 3 1 0 10].

(** Demands 1, 5, 5 and 9 for a capacity of 10: two vehicles can serve
    customers 1 and 4, and customers 2 and 3. *)
Definition four_mixed : list customer :=
  [the_depot; wide_customer 1 1 0 1; wide_customer 2 1 0 5;
   wide_customer 3 1 0 5; wide_customer 4 1 0 9].

(** Customer 1 opens at time 10, customer 2 closes at time 5: one vehicle
    can serve both only in the order 2, 1. *)
Definition late_first : list customer :=
  [the_depot; Customer 1 (of_Z 1) (of_Z 0) 1 10 20 0; Customer 2 (of_Z 2) (of_Z 0) 1 0 5 0].

(** One customer whose demand exceeds a capacity of 10. *)
Definition one_heavy : list customer := [the_depot; wide_customer 1 1 0 20].

(** A customer infinitely far east. *)
Definition far_east : list customer :=
  [Customer 0 (S754_infinity false) (of_Z 0) 0 0 1000 0].

(** The state a computation ends in. *)
Definition final_state {A} (m : outcome (A * CSP_VRPTW)) (otherwise : CSP_VRPTW) : CSP_VRPTW :=
  match m with Ok (_, self) => self | _ => otherwise end.

(** ** Notions for the properties of the whole run *)

(** A computation that returns a value: no exception, and fuel to spare. *)
Definition returns {A} (m : outcome A) : Prop := ∃ a, m = Ok a.

(** The integer converts to a float without overflow. *)
Definition convertible (z : Z) : Prop := returns (int_to_float z).

(** The clock of the validator before a travel time is added to it: an
    integer clock has to convert. *)
Definition clock_ok (t : pynum) : Prop :=
  match t with
  | PInt z => convertible z
  | PFloat _ => True
  end.

(** The matrix has one row and one column per customer record. *)
Definition square_matrix (self : CSP_VRPTW) : Prop :=
  length (distance_matrix self) = num_customers self
  ∧ Forall (λ row, length row = num_customers self) (distance_matrix self).

(** The integers the validator adds to a float clock convert. *)
Definition times_convertible (self : CSP_VRPTW) : Prop :=
  ∀ c, c ∈ customers self →
       convertible (service_time c) ∧ convertible (ready_time c + service_time c).

Definition problem_ok (self : CSP_VRPTW) : Prop :=
  square_matrix self ∧ times_convertible self.

(** The routes hold customers other than the depot only. *)
Definition routes_in_range (self : CSP_VRPTW) : Prop :=
  ∀ v route x, routes self !! v = Some route → x ∈ route → x ∈ variables self.

(** Every variable has a domain, and a domain lists vehicles of the routes
    table only. *)
Definition domains_keyed (self : CSP_VRPTW) : Prop :=
  ∀ x, x ∈ variables self →
       ∃ d, domains self !! x = Some d ∧ ∀ v, v ∈ d → is_Some (routes self !! v).

Definition assigned_variables (self : CSP_VRPTW) : Prop :=
  ∀ x, is_Some (assignments self !! x) → x ∈ variables self.

(** The states in which no dictionary or list access of the search can
    fail. *)
Definition search_state_ok (self : CSP_VRPTW) : Prop :=
  problem_ok self ∧ routes_in_range self ∧ domains_keyed self ∧ assigned_variables self.

(** Every domain of [self] is still there in [self'], with some of its
    values dropped and the others in their order. *)
Definition domains_shrunk (self self' : CSP_VRPTW) : Prop :=
  ∀ n d, domains self !! n = Some d →
         ∃ d', domains self' !! n = Some d' ∧ d' `sublist_of` d.

(** The length of a tour as a walk: from [previous_stop] through [route]
    and back to the depot, the legs added to [d] from left to right. *)
Fixpoint walk_legs (self : CSP_VRPTW) (previous_stop : nat) (route : list nat)
    (d : spec_float) : outcome spec_float :=
  match route with
  | [] => back ← dist self previous_stop depot; Ok (fadd d back)
  | cust :: rest => leg ← dist self previous_stop cust; walk_legs self cust rest (fadd d leg)
  end.

(** The state between two steps of a search in which every commitment so
    far is still in place: [consistent_state] without the feasibility of
    the routes. *)
Definition clean_state (self : CSP_VRPTW) : Prop :=
  NoDup (routed_customers self)
  ∧ (∀ x, x ∈ routed_customers self ↔ is_Some (assignments self !! x)).

(** The domains of the unassigned variables hold feasible values only. *)
Definition domains_checked (self : CSP_VRPTW) : Prop :=
  ∀ x d v, x ∈ variables self → assignments self !! x = None →
           domains self !! x = Some d → v ∈ d → consistent_at self x v = Ok true.

(** The domains of the unassigned variables hold every vehicle that is
    still empty, and at least one. *)
Definition empty_vehicles_kept (self : CSP_VRPTW) : Prop :=
  ∀ x, x ∈ variables self → assignments self !! x = None →
       ∃ d, domains self !! x = Some d ∧ d ≠ []
            ∧ ∀ v, routes self !! v = Some [] → v ∈ d.

(** Every customer can be served by a vehicle of its own. *)
Definition all_alone_feasible (self : CSP_VRPTW) : Prop :=
  ∀ x, x ∈ variables self → alone_feasible self x = Ok true.

(** There is a vehicle in the routes table for every customer. *)
Definition enough_vehicles (self : CSP_VRPTW) : Prop :=
  length (variables self) ≤ size (routes self).

(** The states from which the search, with a vehicle for every customer,
    goes down to a solution without ever turning back. *)
Definition search_ready (self : CSP_VRPTW) : Prop :=
  search_state_ok self ∧ clean_state self ∧ domains_checked self
  ∧ empty_vehicles_kept self ∧ all_alone_feasible self ∧ enough_vehicles self.

(** * Proofs *)

(** ** Outcomes *)

Lemma bind_Ok {A B} (m : outcome A) (f : A → outcome B) (b : B) :
  m ≫= f = Ok b → ∃ a, m = Ok a ∧ f a = Ok b.
Proof. destruct m as [a| |]; simpl; intros H; try discriminate. eauto. Qed.

Lemma fmap_Ok {A B} (m : outcome A) (f : A → B) (b : B) :
  f <$> m = Ok b → ∃ a, m = Ok a ∧ b = f a.
Proof. destruct m as [a| |]; simpl; intros H; try discriminate. inversion H. eauto. Qed.

(** Splits a hypothesis [m ≫= f = Ok b] along the bind. *)
Tactic Notation "bind_inv" hyp(H) "as" ident(a) ident(Ha) :=
  apply bind_Ok in H as (a & Ha & H).

(** ** The time-window validator (section 4.2) *)

Lemma py_gt_int_lt (r : Z) (t : pynum) : py_gt (PInt r) t = py_lt t (PInt r).
Proof.
  unfold py_gt, py_lt. destruct t as [z|f]; simpl.
  - rewrite (Z.compare_antisym z r). by destruct (z ?= r)%Z.
  - by destruct (float_cmp_int f r) as [[]|].
Qed.

Lemma py_max_ready (t : pynum) (r : Z) :
  py_max t (PInt r) = if py_lt t (PInt r) then PInt r else t.
Proof. unfold py_max. by rewrite py_gt_int_lt. Qed.

Lemma list_get_last {A} (pre rest : list A) (a : A) :
  last pre = Some a → list_get (pre ++ rest) (length pre - 1) = Ok a.
Proof.
  intros Hl. unfold list_get.
  rewrite lookup_app_l.
  - rewrite last_lookup in Hl. replace (length pre - 1) with (pred (length pre)) by lia.
    by rewrite Hl.
  - destruct pre; [done|]. simpl. lia.
Qed.

Lemma validate_loop_simulation (self : CSP_VRPTW) (rest visited : list nat) (time : pynum) :
  validate_loop self (visited ++ rest) (length visited) rest time
  = tw_simulation self (previous_stop_of visited) time rest.
Proof.
  revert visited time. induction rest as [|cust rest IH]; intros visited time; [done|].
  cbn [validate_loop tw_simulation].
  assert (Htravel :
    (if decide (0 < length visited)
     then prev ← list_get (visited ++ cust :: rest) (length visited - 1); dist self prev cust
     else dist self depot cust) = dist self (previous_stop_of visited) cust).
  { unfold previous_stop_of. destruct (last visited) as [p|] eqn:Hl.
    - rewrite decide_True; [|destruct visited; [done|simpl; lia]].
      by rewrite (list_get_last _ _ _ Hl).
    - apply last_None in Hl as ->. by rewrite decide_False by (simpl; lia). }
  rewrite Htravel.
  destruct (dist self (previous_stop_of visited) cust) as [travel| |]; simpl; try done.
  destruct (py_add time (PFloat travel)) as [arrival| |]; simpl; try done.
  destruct (customer_at self cust) as [c| |]; simpl; try done.
  rewrite py_max_ready.
  destruct (py_gt _ (PInt (due_time c))); [done|].
  destruct (py_add _ (PInt (service_time c))) as [departure| |]; simpl; try done.
  specialize (IH (visited ++ [cust]) departure).
  rewrite <- app_assoc, length_app in IH. simpl in IH.
  replace (length visited + 1) with (S (length visited)) in IH by lia.
  rewrite IH. unfold previous_stop_of. by rewrite last_snoc.
Qed.

(** C6: for every route, the time-window validator of the code returns
    what the simulation of section 4.2 returns: the clock starts at 0, the
    travel time from the previous stop (the depot first) is added, the
    clock is advanced to the ready time when it is below it, the route is
    rejected exactly when the clock then exceeds a due time, the service
    time is added otherwise; the empty route is feasible. *)
Theorem validate_time_windows_simulation (self : CSP_VRPTW) (route : list nat) :
  _validate_time_windows self route = time_window_feasible self route
  ∧ _validate_time_windows self [] = Ok true.
Proof.
  split; [|done].
  unfold _validate_time_windows, time_window_feasible.
  exact (validate_loop_simulation self route [] (PInt 0)).
Qed.

(** ** Frame lemmas: what the checks read *)

Lemma bind_ext {A B} (m : outcome A) (f g : A → outcome B) :
  (∀ a, f a = g a) → m ≫= f = m ≫= g.
Proof. intros H. destruct m; simpl; auto. Qed.

Lemma validate_loop_ext (self1 self2 : CSP_VRPTW) :
  customers self1 = customers self2 →
  distance_matrix self1 = distance_matrix self2 →
  ∀ route rest i time,
    validate_loop self1 route i rest time = validate_loop self2 route i rest time.
Proof.
  intros Hc Hd route rest.
  induction rest as [|cust rest IH]; intros i time; [done|].
  cbn [validate_loop]. unfold dist, customer_at. rewrite Hc, Hd.
  apply bind_ext; intros travel. apply bind_ext; intros t. apply bind_ext; intros c.
  destruct (py_gt _ _); [done|]. apply bind_ext; intros t'. apply IH.
Qed.

Lemma is_consistent_ext (self1 self2 : CSP_VRPTW) (x v : nat) (r : list nat) :
  customers self1 = customers self2 →
  distance_matrix self1 = distance_matrix self2 →
  vehicle_capacity self1 = vehicle_capacity self2 →
  routes self1 = routes self2 →
  is_consistent self1 x v r = is_consistent self2 x v r.
Proof.
  intros Hc Hd Hv Hr. unfold is_consistent, routed_customers, customer_at, _validate_time_windows.
  rewrite Hc, Hv, Hr. destruct (bool_decide _); [done|].
  apply bind_ext; intros ds. apply bind_ext; intros dv.
  destruct (_ >? _)%Z; [done|]. by apply validate_loop_ext.
Qed.

Lemma consistent_at_ext (self1 self2 : CSP_VRPTW) (x v : nat) :
  customers self1 = customers self2 →
  distance_matrix self1 = distance_matrix self2 →
  vehicle_capacity self1 = vehicle_capacity self2 →
  routes self1 = routes self2 →
  consistent_at self1 x v = consistent_at self2 x v.
Proof.
  intros Hc Hd Hv Hr. unfold consistent_at. rewrite Hr.
  apply bind_ext; intros r. by apply is_consistent_ext.
Qed.

Lemma consistent_at_set_domains (self : CSP_VRPTW) (d : gmap nat (list nat)) (x v : nat) :
  consistent_at (set_domains self d) x v = consistent_at self x v.
Proof. by apply consistent_at_ext. Qed.

Lemma consistent_at_set_assignments (self : CSP_VRPTW) (a : gmap nat nat) (x v : nat) :
  consistent_at (set_assignments self a) x v = consistent_at self x v.
Proof. by apply consistent_at_ext. Qed.

Lemma feasible_values_ext (self1 self2 : CSP_VRPTW) (x : nat) (d : list nat) :
  (∀ v, consistent_at self1 x v = consistent_at self2 x v) →
  feasible_values self1 x d = feasible_values self2 x d.
Proof.
  intros H. unfold feasible_values. apply list_filter_iff. intros v. by rewrite H.
Qed.

Lemma feasible_values_idemp (self : CSP_VRPTW) (x : nat) (d : list nat) :
  feasible_values self x (feasible_values self x d) = feasible_values self x d.
Proof. unfold feasible_values. rewrite list_filter_filter. apply list_filter_iff. tauto. Qed.

(** ** Forward checking (section 4.3) *)

Lemma filter_o_Ok {A} (p : A → outcome bool) (l r : list A) :
  filter_o p l = Ok r → r = filter (λ a, p a = Ok true) l.
Proof.
  revert r. induction l as [|a l IH]; intros r H; simpl in H.
  - by inversion H.
  - bind_inv H as b Hb. bind_inv H as r' Hr. inversion H; subst; clear H.
    rewrite (IH _ Hr). destruct b.
    + by rewrite filter_cons_True.
    + rewrite filter_cons_False; [done|]. rewrite Hb. discriminate.
Qed.

Lemma same_but_domains_refl (self : CSP_VRPTW) : same_but_domains self self.
Proof. by destruct self. Qed.

Lemma same_but_domains_set (self self' : CSP_VRPTW) (d : gmap nat (list nat)) :
  same_but_domains (set_domains self d) self' → same_but_domains self self'.
Proof. unfold same_but_domains. intros ->. by destruct self. Qed.

(** The loop of forward checking over any list of neighbours. *)
Lemma fc_loop_outcome (neighbors : list nat) :
  ∀ (self : CSP_VRPTW) (original : gmap nat (list nat)) (b : bool) (self' : CSP_VRPTW),
    fc_loop self original neighbors = Ok (b, self') →
    same_but_domains self self'
    ∧ (b = true →
         ∀ n, n ∈ neighbors → assignments self !! n = None →
              ∃ d, domains self !! n = Some d ∧ feasible_values self n d ≠ []
                   ∧ domains self' !! n = Some (feasible_values self n d))
    ∧ (b = true →
         ∀ n, ¬ (n ∈ neighbors ∧ assignments self !! n = None) →
              domains self' !! n = domains self !! n)
    ∧ (b = false →
         domains self' = original
         ∧ ∃ n d, n ∈ neighbors ∧ assignments self !! n = None
                  ∧ domains self !! n = Some d ∧ feasible_values self n d = []).
Proof.
  induction neighbors as [|nb rest IH]; intros self original b self' H; simpl in H.
  - inversion H; subst; clear H. split; [apply same_but_domains_refl|].
    split; [|split]; [| |done].
    + intros _ n Hn. by apply elem_of_nil in Hn.
    + done.
  - destruct (decide (is_Some (assignments self !! nb))) as [Has|Hun].
    + (* an assigned neighbour is skipped *)
      apply IH in H as (Hs & Ht & Hne & Hf). split; [done|].
      assert (Hnb : assignments self !! nb ≠ None) by (by apply not_eq_None_Some).
      split; [|split].
      * intros Hb n Hin Hnone. apply elem_of_cons in Hin as [->|Hin]; [done|]. by apply Ht.
      * intros Hb n Hn. apply (Hne Hb). intros [Hin Hnone]. apply Hn. split; [by right|done].
      * intros Hb. destruct (Hf Hb) as (Ho & n & d & Hin & ?). split; [done|].
        exists n, d. split; [by right|done].
    + (* an unassigned neighbour has its domain filtered *)
      assert (Hnb : assignments self !! nb = None).
      { destruct (assignments self !! nb) eqn:E; [|done]. destruct Hun. eauto. }
      bind_inv H as d Ha. bind_inv H as d' Hd'.
      unfold dict_get in Ha. destruct (domains self !! nb) as [d0|] eqn:Hd; [|done].
      inversion Ha; subst d0; clear Ha.
      apply filter_o_Ok in Hd'. fold (feasible_values self nb d) in Hd'. subst d'.
      destruct (feasible_values self nb d) as [|v0 fv] eqn:Hfv.
      * (* the recomputed domain is empty: restore and fail *)
        inversion H; subst; clear H. split; [by destruct self|].
        split; [done|]. split; [done|]. intros _. split; [done|].
        exists nb, d. split; [by left|done].
      * apply IH in H as (Hs & Ht & Hne & Hf).
        assert (Hfeas : ∀ n l,
          feasible_values (set_domains self (<[nb := v0 :: fv]> (domains self))) n l
          = feasible_values self n l).
        { intros n l. apply feasible_values_ext. intros v. apply consistent_at_set_domains. }
        setoid_rewrite Hfeas in Ht. setoid_rewrite Hfeas in Hf.
        simpl in Ht, Hne, Hf.
        split; [by apply same_but_domains_set in Hs|]. split; [|split].
        -- intros Hb n Hin Hnone.
           destruct (decide (n ∈ rest)) as [Hrest|Hrest].
           ++ destruct (Ht Hb n Hrest Hnone) as (dn & Hdn & Hnz & Hdn').
              destruct (decide (n = nb)) as [->|Hne'].
              ** rewrite lookup_insert_eq in Hdn. inversion Hdn; subst dn.
                 rewrite <- Hfv, feasible_values_idemp in Hnz, Hdn'.
                 exists d. auto.
              ** rewrite lookup_insert_ne in Hdn by done. eauto.
           ++ apply elem_of_cons in Hin as [->|Hin]; [|done].
              exists d. rewrite Hfv. split; [done|]. split; [done|].
              rewrite (Hne Hb nb) by (intros [? _]; done). by rewrite lookup_insert_eq.
        -- intros Hb n Hn. rewrite (Hne Hb n).
           ++ rewrite lookup_insert_ne; [done|]. intros <-. apply Hn. split; [by left|done].
           ++ intros [Hin Hnone]. apply Hn. split; [by right|done].
        -- intros Hb. destruct (Hf Hb) as (Ho & n & dn & Hin & Hnone & Hdn & Hz).
           split; [done|].
           destruct (decide (n = nb)) as [->|Hne'].
           ++ rewrite lookup_insert_eq in Hdn. inversion Hdn; subst dn.
              rewrite <- Hfv, feasible_values_idemp in Hz. congruence.
           ++ rewrite lookup_insert_ne in Hdn by done.
              exists n, dn. split; [by right|done].
Qed.

(** C5: forward checking leaves everything but the domain store alone and
    either (a) succeeds, having replaced the domain of every unassigned
    variable by its candidate vehicles on whose current route the variable
    can still be appended (none of these domains being empty) and having
    left the other domains alone, or (b) fails, because the recomputed
    domain of some unassigned variable is empty, with the domain store
    equal to what it was before the call. *)
Theorem forward_checking_outcome (self self' : CSP_VRPTW) (variable value : nat) (b : bool) :
  _forward_checking self variable value = Ok (b, self') →
  same_but_domains self self'
  ∧ (b = true →
       (∀ n, n ∈ variables self → assignments self !! n = None →
             ∃ d, domains self !! n = Some d ∧ feasible_values self n d ≠ []
                  ∧ domains self' !! n = Some (feasible_values self n d))
       ∧ (∀ n, ¬ (n ∈ variables self ∧ assignments self !! n = None) →
               domains self' !! n = domains self !! n))
  ∧ (b = false →
       domains self' = domains self
       ∧ ∃ n d, n ∈ variables self ∧ assignments self !! n = None
                ∧ domains self !! n = Some d ∧ feasible_values self n d = []).
Proof.
  intros H. apply fc_loop_outcome in H as (Hs & Ht & Hne & Hf). auto.
Qed.

(** ** Value ordering (section 4.4, step 3) *)

Lemma map_o_Ok_Forall2 {A B} (f : A → outcome B) (l : list A) (r : list B) :
  map_o f l = Ok r → Forall2 (λ a b, f a = Ok b) l r.
Proof.
  revert r. induction l as [|a l IH]; intros r H; simpl in H.
  - inversion H. constructor.
  - bind_inv H as b Hb. bind_inv H as bs Hbs. inversion H; subst. constructor; auto.
Qed.

(** What the counting loop of [_least_constraining_value] returns. *)
Lemma lcv_loop_count (self : CSP_VRPTW) (value : nat) (neighbors : list nat) :
  ∀ count c,
    lcv_loop self value neighbors count = Ok c →
    c = count + length (filter (λ n, assignments self !! n = None
                                     ∧ value ∈ default [] (domains self !! n)) neighbors).
Proof.
  induction neighbors as [|n rest IH]; intros count c H; simpl in H.
  - inversion H. simpl. lia.
  - destruct (decide (assignments self !! n = None)) as [Hn|Hn].
    + bind_inv H as d Hd. unfold dict_get in Hd.
      destruct (domains self !! n) as [d0|] eqn:Hdn; [|done]. inversion Hd; subst d0.
      destruct (bool_decide (value ∈ d)) eqn:Hv.
      * apply bool_decide_eq_true in Hv. apply IH in H.
        rewrite filter_cons_True by (rewrite Hdn; done). simpl. lia.
      * apply bool_decide_eq_false in Hv. apply IH in H.
        rewrite filter_cons_False; [done|]. rewrite Hdn. simpl. tauto.
    + apply IH in H. rewrite filter_cons_False; [done|]. tauto.
Qed.

Lemma filter_ext_elem_of {A} (P Q : A → Prop) `{∀ a, Decision (P a)} `{∀ a, Decision (Q a)}
    (l : list A) :
  (∀ a, a ∈ l → P a ↔ Q a) → filter P l = filter Q l.
Proof.
  induction l as [|a l IH]; intros HPQ; [done|].
  assert (Ha : P a ↔ Q a) by (apply HPQ; by left).
  assert (Hl : filter P l = filter Q l) by (apply IH; intros b Hb; apply HPQ; by right).
  destruct (decide (P a)) as [Hp|Hp].
  - rewrite !filter_cons_True by tauto. by rewrite Hl.
  - rewrite !filter_cons_False by tauto. done.
Qed.

(** Setting one element of a duplicate-free list apart. *)
Lemma filter_length_split (P : nat → Prop) `{∀ n, Decision (P n)} (x : nat) (l : list nat) :
  NoDup l → x ∈ l → P x →
  length (filter P l) = S (length (filter (λ n, n ≠ x ∧ P n) l)).
Proof.
  induction l as [|a l IH]; intros Hnd Hx HP.
  - by apply elem_of_nil in Hx.
  - apply NoDup_cons in Hnd as [Ha Hnd]. destruct (decide (a = x)) as [->|Hax].
    + rewrite filter_cons_True by done. rewrite (filter_cons_False (λ n, n ≠ x ∧ P n)) by tauto.
      simpl. f_equal. f_equal. apply filter_ext_elem_of.
      intros n Hn. split; [|tauto]. intros Hpn. split; [|done].
      intros ->. done.
    + apply elem_of_cons in Hx as [->|Hx]; [done|].
      specialize (IH Hnd Hx HP). destruct (decide (P a)) as [Hpa|Hpa].
      * rewrite filter_cons_True by done. rewrite (filter_cons_True (λ n, n ≠ x ∧ P n)) by done.
        simpl. by rewrite IH.
      * rewrite filter_cons_False by done. rewrite (filter_cons_False (λ n, n ≠ x ∧ P n)) by tauto.
        done.
Qed.

Lemma NoDup_variables (self : CSP_VRPTW) : NoDup (variables self).
Proof. apply NoDup_seq. Qed.

(** The key the code sorts by is the specification's count plus one: the
    loop also counts [variable] itself, for every candidate alike. *)
Lemma least_constraining_value_others (self : CSP_VRPTW) (variable value k : nat) (d : list nat) :
  variable ∈ variables self → assignments self !! variable = None →
  domains self !! variable = Some d → value ∈ d →
  _least_constraining_value self variable value = Ok k →
  k = S (lcv_others self variable value).
Proof.
  intros Hin Hun Hd Hv H. apply lcv_loop_count in H. rewrite H. simpl.
  unfold lcv_others.
  apply (filter_length_split _ variable); [apply NoDup_variables|done|].
  by rewrite Hd.
Qed.

Lemma insert_by_key_perm (a : nat * nat) (l : list (nat * nat)) :
  insert_by_key a l ≡ₚ a :: l.
Proof.
  induction l as [|b l IH]; simpl; [done|].
  destruct (decide (a.2 ≤ b.2)); [done|]. rewrite IH. apply Permutation_swap.
Qed.

Lemma insert_by_key_sorted (a : nat * nat) (l : list (nat * nat)) :
  StronglySorted key_before l → Forall (λ b, a.1 < b.1) l →
  StronglySorted key_before (insert_by_key a l).
Proof.
  induction l as [|b l IH]; intros Hs Hlt; simpl.
  - repeat constructor.
  - apply StronglySorted_inv in Hs as [Hs Hb]. apply Forall_cons in Hlt as [Hab Hlt].
    destruct (decide (a.2 ≤ b.2)) as [Hle|Hgt].
    + constructor; [by constructor|]. constructor.
      * unfold key_before. lia.
      * rewrite Forall_forall in Hb, Hlt |- *. intros c Hc.
        specialize (Hb c Hc). specialize (Hlt c Hc). unfold key_before in *. lia.
    + constructor; [by apply IH|].
      rewrite (insert_by_key_perm a l). constructor; [|done].
      unfold key_before. lia.
Qed.

Lemma sort_pairs_perm (l : list (nat * nat)) : foldr insert_by_key [] l ≡ₚ l.
Proof.
  induction l as [|a l IH]; simpl; [done|]. by rewrite insert_by_key_perm, IH.
Qed.

Lemma sort_pairs_sorted (l : list (nat * nat)) :
  StronglySorted (λ a b, a.1 < b.1) l →
  StronglySorted key_before (foldr insert_by_key [] l).
Proof.
  induction l as [|a l IH]; intros Hs; simpl; [constructor|].
  apply StronglySorted_inv in Hs as [Hs Ha].
  apply insert_by_key_sorted; [by apply IH|]. by rewrite sort_pairs_perm.
Qed.

Lemma StronglySorted_fst (R : nat → nat → Prop) (l : list (nat * nat)) :
  StronglySorted (λ a b, R a.1 b.1) l → StronglySorted R l.*1.
Proof.
  induction 1 as [|a l Hs IH Ha]; simpl; constructor; [done|].
  apply Forall_fmap. eapply Forall_impl; [exact Ha|]. done.
Qed.

Lemma StronglySorted_fst_inv (R : nat → nat → Prop) (l : list (nat * nat)) :
  StronglySorted R l.*1 → StronglySorted (λ a b, R a.1 b.1) l.
Proof.
  induction l as [|a l IH]; intros Hs; [constructor|].
  rewrite fmap_cons in Hs.
  apply StronglySorted_inv in Hs as [Hs Ha]. constructor; [by apply IH|].
  rewrite Forall_fmap in Ha. eapply Forall_impl; [exact Ha|]. done.
Qed.

Lemma StronglySorted_weaken {A} (R R' : A → A → Prop) (l : list A) :
  (∀ a b, a ∈ l → b ∈ l → R a b → R' a b) →
  StronglySorted R l → StronglySorted R' l.
Proof.
  intros HR Hs. induction Hs as [|a l Hs IH Ha]; constructor.
  - apply IH. intros x y Hx Hy. apply HR; by right.
  - rewrite Forall_forall in Ha |- *. intros b Hb. apply HR; [by left|by right|by apply Ha].
Qed.

(** The (value, key) pairs the sort receives. *)
Lemma keyed_values (self : CSP_VRPTW) (variable : nat) (dom : list nat) :
  variable ∈ variables self → assignments self !! variable = None →
  domains self !! variable = Some dom →
  ∀ d keyed,
    (∀ v, v ∈ d → v ∈ dom) →
    map_o (λ v, k ← _least_constraining_value self variable v; Ok (v, k)) d = Ok keyed →
    keyed.*1 = d ∧ Forall (λ p, p.2 = S (lcv_others self variable p.1)) keyed.
Proof.
  intros Hin Hun Hd. induction d as [|v d IH]; intros keyed Hsub H; simpl in H.
  - inversion H. split; [done|constructor].
  - bind_inv H as p Hp. bind_inv H as r Hr. inversion H; subst keyed; clear H.
    bind_inv Hp as k Hk. inversion Hp; subst p; clear Hp.
    destruct (IH r) as [Hfst Hkey]; [intros u Hu; apply Hsub; by right|done|].
    split.
    + rewrite fmap_cons, Hfst. done.
    + constructor; [|done]. simpl.
      eapply least_constraining_value_others; eauto. apply Hsub. by left.
Qed.

Lemma ordered_values_lcv_order (self : CSP_VRPTW) (variable : nat) (d tried : list nat) :
  variable ∈ variables self →
  assignments self !! variable = None →
  domains self !! variable = Some d →
  domains_ascending self →
  ordered_values self variable = Ok tried →
  tried ≡ₚ d ∧ StronglySorted (lcv_before self variable) tried.
Proof.
  intros Hin Hun Hd Hasc H. unfold ordered_values in H.
  bind_inv H as d0 Hd0. unfold dict_get in Hd0. rewrite Hd in Hd0. inversion Hd0; subst d0.
  bind_inv H as keyed Hk. inversion H; subst tried; clear H.
  destruct (keyed_values self variable d Hin Hun Hd d keyed) as [Hfst Hkey]; [done|done|].
  unfold sorted_by_key. split.
  - by rewrite sort_pairs_perm, Hfst.
  - apply StronglySorted_fst.
    assert (Hkey' : Forall (λ p, p.2 = S (lcv_others self variable p.1))
                           (foldr insert_by_key [] keyed)) by (by rewrite sort_pairs_perm).
    rewrite Forall_forall in Hkey'.
    eapply StronglySorted_weaken; [|apply sort_pairs_sorted].
    + intros a b Ha Hb Hab. apply Hkey' in Ha, Hb. unfold key_before in Hab.
      unfold lcv_before. lia.
    + apply StronglySorted_fst_inv. rewrite Hfst. by apply (Hasc variable).
Qed.

(** ** What the search leaves behind *)

Lemma same_problem_refl (self : CSP_VRPTW) : same_problem self self.
Proof. by repeat split. Qed.

Lemma same_problem_trans (s1 s2 s3 : CSP_VRPTW) :
  same_problem s1 s2 → same_problem s2 s3 → same_problem s1 s3.
Proof. unfold same_problem. intros (?&?&?&?) (?&?&?&?). repeat split; congruence. Qed.

Lemma same_problem_sym (s1 s2 : CSP_VRPTW) : same_problem s1 s2 → same_problem s2 s1.
Proof. unfold same_problem. intros (?&?&?&?). repeat split; congruence. Qed.

Lemma same_problem_variables (s1 s2 : CSP_VRPTW) :
  same_problem s1 s2 → variables s1 = variables s2.
Proof. intros (Hc&_). unfold variables, num_customers. by rewrite Hc. Qed.

Lemma same_but_domains_inv (self self' : CSP_VRPTW) :
  same_but_domains self self' →
  same_problem self self' ∧ assignments self' = assignments self ∧ routes self' = routes self.
Proof. unfold same_but_domains. intros ->. by repeat split. Qed.

Lemma forward_checking_frame (self self' : CSP_VRPTW) (variable value : nat) (b : bool) :
  _forward_checking self variable value = Ok (b, self') →
  same_problem self self' ∧ assignments self' = assignments self ∧ routes self' = routes self.
Proof.
  intros H. apply fc_loop_outcome in H as (Hs & _). by apply same_but_domains_inv.
Qed.

Lemma argmin_first_elem (l : list (nat * nat)) :
  ∀ best best_key, argmin_first best best_key l = best ∨ argmin_first best best_key l ∈ l.*1.
Proof.
  induction l as [|[a k] l IH]; intros best best_key; simpl; [by left|].
  destruct (decide (k < best_key)).
  - destruct (IH a k) as [->|Hin]; right; [by left|by right].
  - destruct (IH best best_key) as [->|Hin]; [by left|right; by right].
Qed.

(** The selected variable is a variable without an assignment. *)
Lemma select_unassigned_variable_spec (self : CSP_VRPTW) (x : nat) :
  _select_unassigned_variable self = Ok x →
  x ∈ variables self ∧ assignments self !! x = None.
Proof.
  unfold _select_unassigned_variable. intros H. bind_inv H as keyed Hk.
  assert (Hfst : keyed.*1 = unassigned self).
  { clear H. revert keyed Hk. generalize (unassigned self).
    induction l as [|v l IH]; intros keyed Hk; simpl in Hk.
    - by inversion Hk.
    - bind_inv Hk as p Hp. bind_inv Hk as r Hr. inversion Hk; subst keyed.
      bind_inv Hp as d Hd. inversion Hp; subst p. rewrite fmap_cons. by rewrite (IH r). }
  assert (Hx : x ∈ unassigned self).
  { rewrite <- Hfst. destruct keyed as [|[v k] rest]; [done|].
    inversion H; subst x. destruct (argmin_first_elem rest v k) as [->|Hin].
    - by left.
    - by right. }
  unfold unassigned in Hx. apply list_elem_of_filter in Hx. tauto.
Qed.

Lemma try_values_frame (recurse : CSP_VRPTW → outcome (option routes_t * CSP_VRPTW))
    (variable : nat) :
  (∀ s res s', recurse s = Ok (res, s') → search_frame s res s') →
  ∀ values self res self',
    assignments self !! variable = None →
    try_values recurse variable self values = Ok (res, self') →
    search_frame self res self'.
Proof.
  intros Hrec. induction values as [|value rest IH]; intros self res self' Hun H.
  - simpl in H. inversion H; subst. split; [apply same_problem_refl|done].
  - cbn [try_values] in H. bind_inv H as ok Hok. destruct ok; [|by apply IH].
    bind_inv H as r Hr. unfold dict_get in Hr. simpl in Hr.
    destruct (routes self !! value) as [r0|] eqn:Hrv; [|done]. inversion Hr; subst r0; clear Hr.
    bind_inv H as fc Hfc. destruct fc as [checked self2].
    apply forward_checking_frame in Hfc as (Hp2 & Ha2 & Hr2). simpl in Hp2, Ha2, Hr2.
    bind_inv H as rr Hrr. destruct rr as [result self3].
    assert (Hf3 : search_frame self2 result self3).
    { destruct checked; [by apply Hrec|]. inversion Hrr; subst.
      split; [apply same_problem_refl|done]. }
    clear Hrr. destruct Hf3 as (Hp3 & Hd3 & Hres).
    assert (Hdom : dom (<[value := r ++ [variable]]> (routes self)) = dom (routes self)).
    { apply dom_insert_lookup_L. by rewrite Hrv. }
    destruct result as [res0|].
    + inversion H; subst; clear H. split; [|split; [|done]].
      * eapply same_problem_trans; [|exact Hp3]. exact Hp2.
      * by rewrite Hd3, Hr2.
    + bind_inv H as old Hold. rewrite Hres, Ha2 in H.
      rewrite delete_insert_id in H by done.
      apply IH in H; [|done]. destruct H as (Hp & Hd & Hr). simpl in Hp, Hd, Hr.
      split; [|split].
      * destruct Hp2 as (?&?&?&?), Hp3 as (?&?&?&?), Hp as (?&?&?&?).
        simpl in *. repeat split; congruence.
      * by rewrite Hd.
      * done.
Qed.

Lemma backtrack_frame (fuel : nat) :
  ∀ self res self', _backtrack fuel self = Ok (res, self') → search_frame self res self'.
Proof.
  induction fuel as [|fuel IH]; intros self res self' H; [done|].
  cbn [_backtrack] in H.
  destruct (decide (size (assignments self) = length (variables self))).
  - inversion H; subst. split; [apply same_problem_refl|done].
  - bind_inv H as variable Hv. bind_inv H as values Hvals.
    apply select_unassigned_variable_spec in Hv as [_ Hun].
    by apply (try_values_frame _ variable IH values).
Qed.

(** ** The domains stay in ascending order *)

Lemma StronglySorted_seq (start n : nat) : StronglySorted lt (seq start n).
Proof.
  revert start. induction n as [|n IH]; intros start; simpl; constructor; [apply IH|].
  apply Forall_forall. intros x Hx. apply elem_of_seq in Hx. lia.
Qed.

(** The reset gives every variable an ascending domain. *)
Lemma reset_domains_ascending (self : CSP_VRPTW) (limit : nat) :
  domains_ascending (reset self limit).
Proof.
  intros n d Hd. simpl in Hd. unfold fresh_domains in Hd.
  apply elem_of_list_to_map_2, list_elem_of_fmap in Hd as (v & [= _ ->] & _).
  apply StronglySorted_seq.
Qed.

Lemma StronglySorted_filter_lt (P : nat → Prop) `{∀ n, Decision (P n)} (l : list nat) :
  StronglySorted lt l → StronglySorted lt (filter P l).
Proof.
  induction 1 as [|a l Hs IH Ha]; [constructor|].
  destruct (decide (P a)).
  - rewrite filter_cons_True by done. constructor; [done|].
    apply Forall_forall. intros x Hx. apply list_elem_of_filter in Hx as [_ Hx].
    rewrite Forall_forall in Ha. by apply Ha.
  - by rewrite filter_cons_False.
Qed.

(** Forward checking keeps the domains ascending. *)
Lemma forward_checking_ascending (self self' : CSP_VRPTW) (variable value : nat) (b : bool) :
  domains_ascending self →
  _forward_checking self variable value = Ok (b, self') →
  domains_ascending self'.
Proof.
  intros Hasc H. apply fc_loop_outcome in H as (_ & Hun & Hother & Hf).
  destruct b.
  - specialize (Hun eq_refl). specialize (Hother eq_refl). intros n d Hd.
    destruct (decide (n ∈ variables self ∧ assignments self !! n = None)) as [[Hn Ha]|Hn].
    + destruct (Hun n Hn Ha) as (d0 & Hd0 & _ & Hd').
      rewrite Hd' in Hd. inversion Hd; subst d.
      apply StronglySorted_filter_lt. by apply (Hasc n).
    + rewrite (Hother n Hn) in Hd. by apply (Hasc n).
  - destruct (Hf eq_refl) as [Hd _]. intros n d. rewrite Hd. apply Hasc.
Qed.

Lemma try_values_ascending (recurse : CSP_VRPTW → outcome (option routes_t * CSP_VRPTW))
    (variable : nat) :
  (∀ s res s', domains_ascending s → recurse s = Ok (res, s') → domains_ascending s') →
  ∀ values self res self',
    domains_ascending self →
    try_values recurse variable self values = Ok (res, self') →
    domains_ascending self'.
Proof.
  intros Hrec. induction values as [|value rest IH]; intros self res self' Hasc H.
  - simpl in H. by inversion H; subst.
  - cbn [try_values] in H. bind_inv H as ok Hok. destruct ok; [|by eapply IH].
    bind_inv H as r Hr. bind_inv H as fc Hfc. destruct fc as [checked self2].
    apply forward_checking_ascending in Hfc; [|exact Hasc].
    bind_inv H as rr Hrr. destruct rr as [result self3].
    assert (Hasc3 : domains_ascending self3).
    { destruct checked; [by eapply Hrec|]. by inversion Hrr; subst. }
    destruct result as [res0|].
    + by inversion H; subst.
    + bind_inv H as old Hold. by eapply IH; [|exact H].
Qed.

(** Every state the search passes through, from a reset on, has its
    domains in ascending order: only forward checking changes them. *)
Lemma backtrack_ascending (fuel : nat) :
  ∀ self res self',
    domains_ascending self →
    _backtrack fuel self = Ok (res, self') →
    domains_ascending self'.
Proof.
  induction fuel as [|fuel IH]; intros self res self' Hasc H; [done|].
  cbn [_backtrack] in H.
  destruct (decide (size (assignments self) = length (variables self))).
  - by inversion H; subst.
  - bind_inv H as variable Hv. bind_inv H as values Hvals.
    by eapply (try_values_ascending _ variable IH).
Qed.

(** C8: at a search node (domains in ascending order, as the reset and
    forward checking leave them), the candidate values of the selected
    variable are all the values of its domain, tried in ascending order of
    the number of other unassigned variables whose domain holds the value,
    candidates with equal counts in ascending order of the value. *)
Theorem candidate_values_lcv_order (self : CSP_VRPTW) (variable : nat) (tried : list nat) :
  domains_ascending self →
  _select_unassigned_variable self = Ok variable →
  ordered_values self variable = Ok tried →
  ∃ d, domains self !! variable = Some d
       ∧ tried ≡ₚ d
       ∧ StronglySorted (lcv_before self variable) tried.
Proof.
  intros Hasc Hsel H. apply select_unassigned_variable_spec in Hsel as [Hin Hun].
  destruct (domains self !! variable) as [d|] eqn:Hd.
  - exists d. split; [done|]. by apply ordered_values_lcv_order.
  - unfold ordered_values, dict_get in H. by rewrite Hd in H.
Qed.

(** ** Soundness of the search *)

Lemma dict_values_perm {A} (d : gmap nat A) : dict_values d ≡ₚ (map_to_list d).*2.
Proof. unfold dict_values, dict_items. by rewrite merge_sort_Permutation. Qed.

Lemma elem_of_dict_values {A} (d : gmap nat A) (a : A) :
  a ∈ dict_values d ↔ ∃ k, d !! k = Some a.
Proof.
  rewrite dict_values_perm, list_elem_of_fmap. split.
  - intros ([k a'] & -> & Hin). apply elem_of_map_to_list in Hin. eauto.
  - intros [k Hk]. exists (k, a). split; [done|]. by apply elem_of_map_to_list.
Qed.

Lemma elem_of_routed (self : CSP_VRPTW) (x : nat) :
  x ∈ routed_customers self ↔ ∃ v route, routes self !! v = Some route ∧ x ∈ route.
Proof.
  unfold routed_customers. rewrite list_elem_of_join. split.
  - intros (l & Hx & Hl). apply elem_of_dict_values in Hl as [v Hv]. eauto.
  - intros (v & l & Hv & Hx). exists l. split; [done|]. apply elem_of_dict_values. eauto.
Qed.

(** Appending [x] to a route adds [x] to the routed customers. *)
Lemma routed_append (self : CSP_VRPTW) (value x : nat) (route : list nat) :
  routes self !! value = Some route →
  routed_customers (set_routes self (<[value := route ++ [x]]> (routes self)))
  ≡ₚ x :: routed_customers self.
Proof.
  intros Hr. unfold routed_customers. simpl. rewrite !dict_values_perm.
  rewrite <- (insert_delete_eq (routes self)).
  rewrite map_to_list_insert by apply lookup_delete_eq.
  rewrite <- (map_to_list_delete (routes self) value route Hr).
  rewrite !fmap_cons. simpl.
  rewrite <- app_assoc. simpl. by rewrite <- Permutation_middle.
Qed.

Lemma map_o_app {A B} (f : A → outcome B) (l1 l2 : list A) (r : list B) :
  map_o f (l1 ++ l2) = Ok r ↔
  ∃ r1 r2, map_o f l1 = Ok r1 ∧ map_o f l2 = Ok r2 ∧ r = r1 ++ r2.
Proof.
  revert r. induction l1 as [|a l1 IH]; intros r; simpl.
  - split.
    + intros H. exists [], r. auto.
    + intros (r1 & r2 & H1 & H2 & ->). inversion H1. done.
  - split.
    + intros H. bind_inv H as b Hb. bind_inv H as bs Hbs. inversion H; subst r.
      apply IH in Hbs as (r1 & r2 & H1 & H2 & ->).
      exists (b :: r1), r2. rewrite Hb. simpl. rewrite H1. simpl. auto.
    + intros (r1 & r2 & H1 & H2 & ->).
      bind_inv H1 as b Hb. bind_inv H1 as bs Hbs. inversion H1; subst r1.
      rewrite Hb. simpl.
      assert (Hr : map_o f (l1 ++ l2) = Ok (bs ++ r2)) by (apply IH; eauto).
      rewrite Hr. done.
Qed.

Lemma sum_Z_app (l1 l2 : list Z) : sum_Z (l1 ++ l2) = (sum_Z l1 + sum_Z l2)%Z.
Proof. unfold sum_Z. induction l1 as [|a l1 IH]; simpl; [done|]. rewrite IH. lia. Qed.

(** What a passed feasibility check says. *)
Lemma is_consistent_true (self : CSP_VRPTW) (x v : nat) (route : list nat) :
  is_consistent self x v route = Ok true →
  (x ∉ routed_customers self) ∧ route_ok self (route ++ [x]).
Proof.
  unfold is_consistent. intros H.
  destruct (bool_decide (x ∈ routed_customers self)) eqn:Hin; [done|].
  apply bool_decide_eq_false in Hin. split; [done|].
  bind_inv H as ds Hds. bind_inv H as dv Hdv.
  destruct ((sum_Z ds + dv) >? vehicle_capacity self)%Z eqn:Hcap; [done|].
  split; [|done]. exists (ds ++ [dv]). split.
  - apply map_o_app. exists ds, [dv]. split; [done|]. split; [|done].
    simpl. rewrite Hdv. done.
  - rewrite sum_Z_app. simpl. lia.
Qed.

(** A failed uniqueness check: a routed customer is consistent with no value. *)
Lemma consistent_at_routed (self : CSP_VRPTW) (x v : nat) :
  x ∈ routed_customers self → consistent_at self x v ≠ Ok true.
Proof.
  intros Hin. unfold consistent_at. destruct (dict_get (routes self) v); simpl; try done.
  unfold is_consistent. by rewrite bool_decide_eq_true_2.
Qed.

Lemma route_ok_ext (s1 s2 : CSP_VRPTW) (route : list nat) :
  same_problem s1 s2 → route_ok s1 route → route_ok s2 route.
Proof.
  intros (Hc & Hv & _ & Hd) [(ds & Hds & Hsum) Htw]. split.
  - exists ds. unfold customer_at in *. rewrite <- Hc, <- Hv. done.
  - unfold _validate_time_windows in *. by rewrite <- (validate_loop_ext s1 s2).
Qed.

Lemma solution_ok_ext (s1 s2 : CSP_VRPTW) (r : routes_t) :
  same_problem s1 s2 → solution_ok s1 r → solution_ok s2 r.
Proof.
  intros Hp (H1 & H2 & H3). unfold solution_ok.
  rewrite <- (same_problem_variables s1 s2 Hp).
  split; [done|]. split; [done|].
  intros v route Hv. eapply route_ok_ext; eauto.
Qed.

(** With every variable assigned, a consistent state holds a solution. *)
Lemma consistent_state_complete (self : CSP_VRPTW) :
  consistent_state self →
  size (assignments self) = length (variables self) →
  solution_ok self (routes self).
Proof.
  intros (Hnd & Hra & Hav & Hfeas) Hsize.
  assert (Hall : ∀ x, x ∈ variables self → is_Some (assignments self !! x)).
  { assert (Hsub : dom (assignments self) ⊆ list_to_set (C := gset nat) (variables self)).
    { intros x Hx. apply elem_of_dom in Hx. apply elem_of_list_to_set. by apply Hav. }
    apply set_subseteq_size_eq in Hsub.
    - intros x Hx. apply elem_of_dom. rewrite Hsub. by apply elem_of_list_to_set.
    - rewrite size_dom, Hsize, size_list_to_set by apply NoDup_variables. done. }
  assert (Hdisj : ∀ x v1 v2 r1 r2,
    routes self !! v1 = Some r1 → routes self !! v2 = Some r2 →
    x ∈ r1 → x ∈ r2 → v1 = v2).
  { intros x v1 v2 r1 r2 H1 H2 Hx1 Hx2. destruct (decide (v1 = v2)) as [|Hne]; [done|].
    exfalso. unfold routed_customers in Hnd. rewrite dict_values_perm in Hnd.
    rewrite <- (map_to_list_delete (routes self) v1 r1 H1) in Hnd.
    assert (H2' : delete v1 (routes self) !! v2 = Some r2) by (by rewrite lookup_delete_ne).
    rewrite <- (map_to_list_delete _ v2 r2 H2') in Hnd.
    rewrite !fmap_cons in Hnd. simpl in Hnd.
    apply NoDup_app in Hnd as (_ & Hd & _). apply (Hd x Hx1).
    apply elem_of_app. by left. }
  split; [|split; [|done]].
  - intros x Hx. apply Hall, Hra, elem_of_routed in Hx as (v & route & Hv & Hin).
    exists v, route. split; [done|]. split; [done|].
    intros v' route' Hv' Hin'. by apply (Hdisj x v' v route' route).
  - intros v route Hv. split.
    + unfold routed_customers in Hnd. rewrite dict_values_perm in Hnd.
      rewrite <- (map_to_list_delete (routes self) v route Hv) in Hnd.
      rewrite fmap_cons in Hnd. simpl in Hnd. by apply NoDup_app in Hnd as (? & _).
    + intros x Hx. apply Hav, Hra, elem_of_routed. eauto.
Qed.

Lemma consistent_state_ext (s1 s2 : CSP_VRPTW) :
  same_problem s1 s2 → assignments s2 = assignments s1 → routes s2 = routes s1 →
  consistent_state s1 → consistent_state s2.
Proof.
  intros Hp Ha Hr (Hnd & Hra & Hav & Hfeas).
  unfold consistent_state, routed_customers in *.
  rewrite Ha, Hr, <- (same_problem_variables s1 s2 Hp).
  split; [done|]. split; [done|]. split; [done|].
  intros v route Hv. eapply route_ok_ext; eauto.
Qed.

(** The tentative commitment of a value that passed the check keeps the
    state consistent. *)
Lemma commit_consistent (self : CSP_VRPTW) (variable value : nat) (route : list nat) :
  consistent_state self →
  variable ∈ variables self →
  routes self !! value = Some route →
  is_consistent self variable value route = Ok true →
  consistent_state
    (set_routes (set_assignments self (<[variable := value]> (assignments self)))
                (<[value := route ++ [variable]]> (routes self))).
Proof.
  intros (Hnd & Hra & Hav & Hfeas) Hvar Hr Hok.
  apply is_consistent_true in Hok as [Hfresh Hroute].
  assert (Hperm :
    routed_customers
      (set_routes (set_assignments self (<[variable := value]> (assignments self)))
                  (<[value := route ++ [variable]]> (routes self)))
    ≡ₚ variable :: routed_customers self).
  { exact (routed_append (set_assignments self (<[variable := value]> (assignments self)))
                         value variable route Hr). }
  split; [|split; [|split]].
  - rewrite Hperm. by apply NoDup_cons.
  - intros x. rewrite Hperm, elem_of_cons, Hra. simpl.
    destruct (decide (x = variable)) as [->|Hne].
    + rewrite lookup_insert_eq. split; eauto.
    + rewrite lookup_insert_ne by done. split; [|auto]. by intros [?|?].
  - intros x. simpl. destruct (decide (x = variable)) as [->|Hne]; [done|].
    rewrite lookup_insert_ne by done. apply Hav.
  - intros v rt. simpl. destruct (decide (v = value)) as [->|Hne].
    + rewrite lookup_insert_eq. intros [= <-]. eapply route_ok_ext; [|exact Hroute].
      by repeat split.
    + rewrite lookup_insert_ne by done. intros Hv. eapply route_ok_ext; [|by eapply Hfeas].
      by repeat split.
Qed.

Lemma try_values_sound (recurse : CSP_VRPTW → outcome (option routes_t * CSP_VRPTW))
    (variable : nat) :
  (∀ s res s', recurse s = Ok (res, s') → search_frame s res s') →
  (∀ s r s', consistent_state s → recurse s = Ok (Some r, s') → solution_ok s r) →
  ∀ values self r self',
    variable ∈ variables self →
    (consistent_state self ∧ assignments self !! variable = None)
    ∨ variable ∈ routed_customers self →
    try_values recurse variable self values = Ok (Some r, self') →
    solution_ok self r.
Proof.
  intros Hframe Hsound.
  induction values as [|value rest IH]; intros self r self' Hvar Hstate H; [done|].
  cbn [try_values] in H. bind_inv H as ok Hok. destruct ok; [|by eapply IH].
  destruct Hstate as [[Hcons Hun]|Hdirty]; [|by apply consistent_at_routed with (v := value) in Hdirty].
  unfold consistent_at in Hok. bind_inv Hok as route Hroute.
  unfold dict_get in Hroute.
  destruct (routes self !! value) as [route0|] eqn:Hrv; [|done].
  inversion Hroute; subst route0; clear Hroute.
  pose proof (commit_consistent self variable value route Hcons Hvar Hrv Hok) as Hcons1.
  bind_inv H as r0 Hr0. unfold dict_get in Hr0. simpl in Hr0. rewrite Hrv in Hr0.
  inversion Hr0; subst r0; clear Hr0.
  bind_inv H as fc Hfc. destruct fc as [checked self2].
  apply forward_checking_frame in Hfc as (Hp2 & Ha2 & Hr2).
  assert (Hcons2 : consistent_state self2) by (by eapply consistent_state_ext; eauto).
  assert (Hp02 : same_problem self2 self).
  { apply same_problem_sym. eapply same_problem_trans; [|exact Hp2]. by repeat split. }
  bind_inv H as rr Hrr. destruct rr as [result self3].
  assert (Hp3 : same_problem self2 self3).
  { destruct checked; [by apply Hframe in Hrr as (? & _)|].
    inversion Hrr; subst. apply same_problem_refl. }
  destruct result as [res|].
  - inversion H; subst res self'; clear H.
    destruct checked; [|done].
    eapply solution_ok_ext; [exact Hp02|]. by eapply Hsound.
  - bind_inv H as old Hold.
    assert (Hp40 : same_problem
      (set_routes (set_assignments self3 (delete variable (assignments self3)))
                  (<[value := route ++ [variable]]> (routes self))) self).
    { eapply same_problem_trans; [|exact Hp02]. apply same_problem_sym.
      eapply same_problem_trans; [exact Hp3|]. by repeat split. }
    eapply solution_ok_ext; [exact Hp40|].
    eapply IH; [| |exact H].
    + by rewrite (same_problem_variables _ _ Hp40).
    + right. apply elem_of_routed. exists value, (route ++ [variable]). simpl.
      rewrite lookup_insert_eq. split; [done|]. apply elem_of_app. right. by left.
Qed.

(** A search that starts in a consistent state returns only solutions. *)
Lemma backtrack_sound (fuel : nat) :
  ∀ self r self',
    consistent_state self →
    _backtrack fuel self = Ok (Some r, self') →
    solution_ok self r.
Proof.
  induction fuel as [|fuel IH]; intros self r self' Hcons H; [done|].
  cbn [_backtrack] in H.
  destruct (decide (size (assignments self) = length (variables self))) as [Hsize|Hsize].
  - inversion H; subst. by apply consistent_state_complete.
  - bind_inv H as variable Hv. bind_inv H as values Hvals.
    apply select_unassigned_variable_spec in Hv as [Hvar Hun].
    eapply (try_values_sound (_backtrack fuel) variable);
      [apply backtrack_frame|exact IH|exact Hvar|left; split; [exact Hcons|exact Hun]|exact H].
Qed.

(** ** Termination: the fuel is never exhausted *)

Lemma terminates_bind {A B} (m : outcome A) (f : A → outcome B) :
  terminates m → (∀ a, m = Ok a → terminates (f a)) → terminates (m ≫= f).
Proof. unfold terminates. destruct m; simpl; intros Hm Hf; auto. Qed.

Lemma terminates_fmap {A B} (m : outcome A) (f : A → B) :
  terminates m → terminates (f <$> m).
Proof. unfold terminates. by destruct m. Qed.

Lemma terminates_Ok {A} (a : A) : terminates (Ok a).
Proof. done. Qed.

Lemma terminates_Raise {A} (e : exn) : terminates (@Raise A e).
Proof. done. Qed.

Lemma terminates_list_get {A} (l : list A) (i : nat) : terminates (list_get l i).
Proof. unfold list_get. by destruct (l !! i). Qed.

Lemma terminates_dict_get {A} (d : gmap nat A) (k : nat) : terminates (dict_get d k).
Proof. unfold dict_get. by destruct (d !! k). Qed.

Lemma terminates_map_o {A B} (f : A → outcome B) (l : list A) :
  (∀ a, terminates (f a)) → terminates (map_o f l).
Proof.
  intros Hf. induction l as [|a l IH]; simpl; [done|].
  apply terminates_bind; [done|]. intros b _. apply terminates_bind; [done|]. done.
Qed.

Lemma terminates_filter_o {A} (p : A → outcome bool) (l : list A) :
  (∀ a, terminates (p a)) → terminates (filter_o p l).
Proof.
  intros Hp. induction l as [|a l IH]; simpl; [done|].
  apply terminates_bind; [done|]. intros b _. apply terminates_bind; [done|]. done.
Qed.

Lemma terminates_any_o {A} (p : A → outcome bool) (l : list A) :
  (∀ a, terminates (p a)) → terminates (any_o p l).
Proof.
  intros Hp. induction l as [|a l IH]; simpl; [done|].
  apply terminates_bind; [done|]. by intros [] _.
Qed.

Lemma terminates_list_remove (a : nat) (l : list nat) : terminates (list_remove a l).
Proof.
  induction l as [|b l IH]; simpl; [done|]. destruct (decide (a = b)); [done|].
  apply terminates_bind; [done|]. done.
Qed.

Lemma terminates_int_to_float (z : Z) : terminates (int_to_float z).
Proof. unfold int_to_float. by destruct (binary_normalize _ _ _ _ _). Qed.

Lemma terminates_py_add (a b : pynum) : terminates (py_add a b).
Proof.
  destruct a, b; simpl; try done;
    (apply terminates_bind; [apply terminates_int_to_float|done]).
Qed.

Lemma terminates_dist (self : CSP_VRPTW) (a b : nat) : terminates (dist self a b).
Proof.
  unfold dist. apply terminates_bind; [apply terminates_list_get|].
  intros. apply terminates_list_get.
Qed.

Create HintDb terminates.
#[local] Hint Resolve terminates_Ok terminates_Raise terminates_list_get terminates_dict_get
  terminates_py_add terminates_dist terminates_list_remove terminates_fmap : terminates.

Lemma terminates_validate_loop (self : CSP_VRPTW) (route rest : list nat) :
  ∀ i time, terminates (validate_loop self route i rest time).
Proof.
  induction rest as [|cust rest IH]; intros i time; [done|]. cbn [validate_loop].
  apply terminates_bind.
  { destruct (decide (0 < i)); [|auto with terminates].
    apply terminates_bind; auto with terminates. }
  intros travel _. apply terminates_bind; [auto with terminates|].
  intros t _. apply terminates_bind; [unfold customer_at; auto with terminates|].
  intros c _. destruct (py_gt _ _); [done|].
  apply terminates_bind; [auto with terminates|]. intros t' _. apply IH.
Qed.

Lemma terminates_is_consistent (self : CSP_VRPTW) (x v : nat) (route : list nat) :
  terminates (is_consistent self x v route).
Proof.
  unfold is_consistent. destruct (bool_decide _); [done|].
  apply terminates_bind.
  { apply terminates_map_o. intros c. unfold customer_at. auto with terminates. }
  intros ds _. apply terminates_bind; [unfold customer_at; auto with terminates|].
  intros dv _. destruct (_ >? _)%Z; [done|]. apply terminates_validate_loop.
Qed.

Lemma terminates_consistent_at (self : CSP_VRPTW) (x v : nat) :
  terminates (consistent_at self x v).
Proof.
  unfold consistent_at. apply terminates_bind; [auto with terminates|].
  intros r _. apply terminates_is_consistent.
Qed.

Lemma terminates_fc_loop (neighbors : list nat) :
  ∀ self original, terminates (fc_loop self original neighbors).
Proof.
  induction neighbors as [|nb rest IH]; intros self original; simpl; [done|].
  destruct (decide _); [apply IH|].
  apply terminates_bind; [auto with terminates|]. intros d _.
  apply terminates_bind; [apply terminates_filter_o, terminates_consistent_at|].
  intros [|v d'] _; [done|apply IH].
Qed.

Lemma terminates_forward_checking (self : CSP_VRPTW) (variable value : nat) :
  terminates (_forward_checking self variable value).
Proof. apply terminates_fc_loop. Qed.

Lemma terminates_lcv_loop (self : CSP_VRPTW) (value : nat) (neighbors : list nat) :
  ∀ count, terminates (lcv_loop self value neighbors count).
Proof.
  induction neighbors as [|nb rest IH]; intros count; simpl; [done|].
  destruct (decide _); [|apply IH].
  apply terminates_bind; [auto with terminates|]. intros d _.
  destruct (bool_decide _); apply IH.
Qed.

Lemma terminates_select (self : CSP_VRPTW) : terminates (_select_unassigned_variable self).
Proof.
  unfold _select_unassigned_variable. apply terminates_bind.
  - apply terminates_map_o. intros var. apply terminates_bind; [auto with terminates|done].
  - intros [|[v k] rest] _; done.
Qed.

Lemma terminates_ordered_values (self : CSP_VRPTW) (variable : nat) :
  terminates (ordered_values self variable).
Proof.
  unfold ordered_values. apply terminates_bind; [auto with terminates|]. intros d _.
  apply terminates_bind; [|done]. apply terminates_map_o. intros v.
  apply terminates_bind; [apply terminates_lcv_loop|done].
Qed.

(** The loop over the candidate values ends when the recursive calls on
    the states with one more assignment do. *)
Lemma terminates_try_values (recurse : CSP_VRPTW → outcome (option routes_t * CSP_VRPTW))
    (variable : nat) (entry : CSP_VRPTW) :
  assignments entry !! variable = None →
  (∀ s res s', recurse s = Ok (res, s') → search_frame s res s') →
  (∀ s value, same_problem entry s →
              assignments s = <[variable := value]> (assignments entry) →
              terminates (recurse s)) →
  ∀ values self,
    same_problem entry self →
    assignments self = assignments entry →
    terminates (try_values recurse variable self values).
Proof.
  intros Hun Hframe Hrec. induction values as [|value rest IH]; intros self Hp Ha; [done|].
  cbn [try_values]. apply terminates_bind; [apply terminates_consistent_at|].
  intros [|] _; [|by apply IH].
  apply terminates_bind; [auto with terminates|]. intros route _.
  apply terminates_bind; [apply terminates_forward_checking|].
  intros [checked self2] Hfc. apply forward_checking_frame in Hfc as (Hp2 & Ha2 & _).
  simpl in Ha2. rewrite Ha in Ha2.
  assert (Hp02 : same_problem entry self2).
  { eapply same_problem_trans; [exact Hp|]. eapply same_problem_trans; [|exact Hp2].
    by repeat split. }
  apply terminates_bind.
  { destruct checked; [by eapply Hrec|done]. }
  intros [result self3] Hrr.
  assert (H3 : same_problem self2 self3
               ∧ (result = None → assignments self3 = <[variable := value]> (assignments entry))).
  { destruct checked.
    - apply Hframe in Hrr as (Hp3 & _ & Hr). split; [done|]. intros ->. by rewrite Hr.
    - inversion Hrr; subst. split; [apply same_problem_refl|done]. }
  destruct H3 as [Hp3 Ha3].
  destruct result as [res|]; [done|].
  apply terminates_bind; [auto with terminates|]. intros old _.
  apply IH.
  - eapply same_problem_trans; [exact Hp02|]. eapply same_problem_trans; [exact Hp3|].
    by repeat split.
  - simpl. rewrite Ha3 by done. by apply delete_insert_id.
Qed.

(** The search ends when its fuel exceeds the number of variables still
    to assign. *)
Lemma terminates_backtrack (fuel : nat) :
  ∀ self,
    (∀ x, is_Some (assignments self !! x) → x ∈ variables self) →
    length (variables self) - size (assignments self) < fuel →
    terminates (_backtrack fuel self).
Proof.
  induction fuel as [|fuel IH]; intros self Hav Hfuel; [lia|].
  cbn [_backtrack].
  destruct (decide (size (assignments self) = length (variables self))) as [|Hsize]; [done|].
  apply terminates_bind; [apply terminates_select|]. intros variable Hv.
  apply select_unassigned_variable_spec in Hv as [Hvar Hun].
  apply terminates_bind; [apply terminates_ordered_values|]. intros values _.
  assert (Hle : size (assignments self) ≤ length (variables self)).
  { rewrite <- size_dom, <- (size_list_to_set (C := gset nat)) by apply NoDup_variables.
    apply subseteq_size. intros x Hx. apply elem_of_dom in Hx.
    apply elem_of_list_to_set. by apply Hav. }
  apply (terminates_try_values _ variable self);
    [done|apply backtrack_frame| |apply same_problem_refl|done].
  intros s value Hp Has.
  rewrite (same_problem_variables _ _ Hp) in *.
  apply IH.
  - intros x. rewrite Has. destruct (decide (x = variable)) as [->|Hne]; [done|].
    rewrite lookup_insert_ne by done. apply Hav.
  - rewrite Has, map_size_insert_None by done. lia.
Qed.

Lemma terminates_backtracking_search (self : CSP_VRPTW) :
  (∀ x, is_Some (assignments self !! x) → x ∈ variables self) →
  terminates (backtracking_search self).
Proof. intros Hav. apply terminates_backtrack; [done|lia]. Qed.

(** ** The arc-consistency pass (section 4.3) *)

Lemma any_o_ext {A} (p q : A → outcome bool) (l : list A) :
  (∀ a, p a = q a) → any_o p l = any_o q l.
Proof.
  intros Hpq. induction l as [|a l IH]; simpl; [done|]. rewrite Hpq.
  apply bind_ext. by intros [|].
Qed.

Lemma fresh_routed_nil (self : CSP_VRPTW) (limit : nat) :
  fresh_state self limit → ∀ x, x ∉ routed_customers self.
Proof.
  intros [Hr _] x Hx. apply elem_of_routed in Hx as (v & route & Hv & Hin).
  rewrite Hr in Hv. destruct (decide (v < limit)); [|done].
  inversion Hv; subst. by apply elem_of_nil in Hin.
Qed.

(** With every route empty the check does not depend on the vehicle. *)
Lemma consistent_at_fresh (self : CSP_VRPTW) (limit x v : nat) :
  fresh_state self limit → v < limit →
  consistent_at self x v = alone_feasible self x.
Proof.
  intros Hf Hv. unfold consistent_at, dict_get. destruct Hf as [Hr Hd].
  rewrite Hr, decide_True by done. simpl.
  unfold is_consistent. rewrite bool_decide_eq_false_2
    by (by apply (fresh_routed_nil self limit)).
  simpl. unfold alone_feasible. destruct (customer_at self x) as [c| |]; simpl; try done.
Qed.

Lemma any_consistent_fresh (self : CSP_VRPTW) (limit x : nat) :
  fresh_state self limit → 0 < limit →
  any_o (consistent_at self x) (seq 0 limit) = alone_feasible self x.
Proof.
  intros Hf Hpos.
  assert (Hgen : ∀ n j, 0 < n → j + n ≤ limit →
    any_o (consistent_at self x) (seq j n) = alone_feasible self x).
  { induction n as [|n IH]; intros j Hn Hj; [lia|]. simpl.
    rewrite (consistent_at_fresh self limit) by (done || lia).
    destruct (alone_feasible self x) as [[|]| |] eqn:Haf; simpl; try done.
    destruct n as [|n]; [done|]. rewrite IH by lia. done. }
  apply Hgen; lia.
Qed.

Lemma set_domains_id (self : CSP_VRPTW) : set_domains self (domains self) = self.
Proof. by destruct self. Qed.

(** The revise step when the variable cannot be served alone: every value
    is removed. *)
Lemma revise_loop_unsupported (self : CSP_VRPTW) (x y : nat) (dy : list nat) :
  x ≠ y →
  any_o (consistent_at self x) dy = Ok false →
  ∀ values D revised,
    D !! x = Some values → D !! y = Some dy →
    revise_loop (set_domains self D) x y values revised
    = Ok (revised || bool_decide (values ≠ []), set_domains self (<[x := []]> D)).
Proof.
  intros Hxy Hany. induction values as [|value rest IH]; intros D revised Hx Hy.
  - simpl. rewrite insert_id by done. by rewrite orb_false_r.
  - cbn [revise_loop]. unfold dict_get. simpl. rewrite Hy. simpl.
    rewrite (any_o_ext _ (consistent_at self x)) by (intros; apply consistent_at_set_domains).
    rewrite Hany. simpl. rewrite Hx. simpl. rewrite decide_True by done. simpl.
    unfold set_domains at 1. simpl. fold (set_domains self (<[x := rest]> D)).
    rewrite IH.
    + rewrite insert_insert_eq. simpl. by rewrite orb_true_r.
    + by rewrite lookup_insert_eq.
    + by rewrite lookup_insert_ne.
Qed.

Lemma revise_loop_supported (self : CSP_VRPTW) (x y : nat) (dy : list nat) :
  domains self !! y = Some dy →
  any_o (consistent_at self x) dy = Ok true →
  ∀ values revised, revise_loop self x y values revised = Ok (revised, self).
Proof.
  intros Hy Hany. induction values as [|value rest IH]; intros revised; [done|].
  cbn [revise_loop]. unfold dict_get. rewrite Hy. simpl. rewrite Hany. simpl. apply IH.
Qed.

Lemma revise_loop_raise (self : CSP_VRPTW) (x y : nat) (dy : list nat) (e : exn) :
  domains self !! y = Some dy →
  any_o (consistent_at self x) dy = Raise e →
  ∀ values revised, values ≠ [] → revise_loop self x y values revised = Raise e.
Proof.
  intros Hy Hany [|value rest] revised Hne; [done|].
  cbn [revise_loop]. unfold dict_get. rewrite Hy. simpl. by rewrite Hany.
Qed.

(** The revise step in a fresh state. *)
Lemma revise_fresh (self : CSP_VRPTW) (limit x y : nat) :
  fresh_state self limit → 0 < limit →
  x ∈ variables self → y ∈ variables self → x ≠ y →
  _revise self x y =
    b ← alone_feasible self x;
    if b : bool then Ok (false, self)
    else Ok (true, set_domains self (<[x := []]> (domains self))).
Proof.
  intros Hf Hpos Hx Hy Hxy. pose proof Hf as [Hr Hd].
  pose proof (any_consistent_fresh self limit x Hf Hpos) as Hany.
  unfold _revise, dict_get. rewrite (Hd x Hx). simpl.
  destruct (alone_feasible self x) as [[|]| |] eqn:Haf; simpl.
  - apply (revise_loop_supported self x y (seq 0 limit)); auto.
  - rewrite <- (set_domains_id self) at 1.
    rewrite (revise_loop_unsupported self x y (seq 0 limit)); auto.
    simpl. rewrite bool_decide_eq_true_2; [done|]. destruct limit; [lia|done].
  - apply (revise_loop_raise self x y (seq 0 limit)); auto.
    destruct limit; [lia|done].
  - exfalso. by apply (terminates_any_o (consistent_at self x) (seq 0 limit)
                         (terminates_consistent_at self x)).
Qed.

(** The worklist loop in a fresh state: it stops at the first arc whose
    first variable cannot be served alone. *)
Lemma ac_loop_fresh (self : CSP_VRPTW) (limit : nat) :
  fresh_state self limit → 0 < limit →
  ∀ queue fuel,
    length queue < fuel →
    Forall (λ arc, arc.1 ∈ variables self ∧ arc.2 ∈ variables self ∧ arc.1 ≠ arc.2) queue →
    ac_loop fuel self queue = ac_first_failure self queue.*1.
Proof.
  intros Hf Hpos. induction queue as [|[x y] queue IH]; intros fuel Hfuel Harcs.
  - destruct fuel; [simpl in Hfuel; lia|]. done.
  - destruct fuel as [|fuel]; [simpl in Hfuel; lia|]. simpl in Hfuel.
    apply Forall_cons in Harcs as [(Hx & Hy & Hxy) Harcs]. simpl in Hx, Hy, Hxy.
    cbn [ac_loop]. rewrite (revise_fresh self limit) by done.
    rewrite fmap_cons. cbn [ac_first_failure fst].
    destruct (alone_feasible self x) as [[|]| |]; simpl; try done.
    + apply IH; [lia|done].
    + unfold dict_get. simpl. by rewrite lookup_insert_eq.
Qed.

Lemma arcs_spec (vs : list nat) (x y : nat) :
  (x, y) ∈ arcs vs ↔ x ∈ vs ∧ y ∈ vs ∧ x ≠ y.
Proof.
  unfold arcs. rewrite list_elem_of_bind. split.
  - intros (a & Hin & Ha). apply list_elem_of_bind in Hin as (b & Hin & Hb).
    destruct (decide (a ≠ b)); [|by apply elem_of_nil in Hin].
    apply list_elem_of_singleton in Hin. inversion Hin; subst. done.
  - intros (Hx & Hy & Hxy). exists x. split; [|done].
    apply list_elem_of_bind. exists y. split; [|done].
    rewrite decide_True by done. by apply list_elem_of_singleton.
Qed.

(** With at most one variable there is no arc. *)
Lemma arcs_short (vs : list nat) : length vs < 2 → arcs vs = [].
Proof. destruct vs as [|a [|b vs]]; simpl; intros; try lia; try done.
  unfold arcs. simpl. by rewrite decide_False by (intros H'; by apply H'). Qed.

(** With two variables or more, every variable starts an arc. *)
Lemma arcs_first (vs : list nat) (x : nat) :
  NoDup vs → 2 ≤ length vs → x ∈ vs → x ∈ (arcs vs).*1.
Proof.
  intros Hnd Hlen Hx.
  assert (Hy : ∃ y, y ∈ vs ∧ x ≠ y).
  { destruct vs as [|a [|b vs]]; simpl in Hlen; try lia.
    apply NoDup_cons in Hnd as [Hab _].
    destruct (decide (x = a)) as [->|Hxa].
    - exists b. split; [right; by left|]. intros ->. apply Hab. by left.
    - exists a. split; [by left|done]. }
  destruct Hy as (y & Hy & Hxy). apply list_elem_of_fmap. exists (x, y).
  split; [done|]. by apply arcs_spec.
Qed.

Lemma ac_first_failure_true (self : CSP_VRPTW) (xs : list nat) :
  (∀ x, x ∈ xs → alone_feasible self x = Ok true) →
  ac_first_failure self xs = Ok (true, self).
Proof.
  induction xs as [|x xs IH]; intros H; simpl; [done|].
  rewrite H by (by left). simpl. apply IH. intros y Hy. apply H. by right.
Qed.

Lemma ac_first_failure_false (self : CSP_VRPTW) (xs : list nat) :
  (∀ x, x ∈ xs → ∃ b, alone_feasible self x = Ok b) →
  (∃ x, x ∈ xs ∧ alone_feasible self x = Ok false) →
  ∃ x, x ∈ xs ∧ alone_feasible self x = Ok false
       ∧ ac_first_failure self xs = Ok (false, set_domains self (<[x := []]> (domains self))).
Proof.
  induction xs as [|a xs IH]; intros Hall (x & Hx & Hfalse); [by apply elem_of_nil in Hx|].
  simpl. destruct (Hall a) as [[|] Ha]; [by left| |].
  - rewrite Ha. simpl. destruct IH as (z & Hz & Hzf & Hres).
    + intros y Hy. apply Hall. by right.
    + exists x. split; [|done]. apply elem_of_cons in Hx as [->|Hx]; [congruence|done].
    + exists z. split; [by right|]. done.
  - exists a. rewrite Ha. split; [by left|]. done.
Qed.

(** ** The minimization loop (section 4.5) *)

Lemma fresh_routes_lookup (limit v : nat) :
  fresh_routes limit !! v = if decide (v < limit) then Some [] else None.
Proof.
  unfold fresh_routes. destruct (decide (v < limit)) as [Hv|Hv].
  - apply elem_of_list_to_map.
    + rewrite <- list_fmap_compose. simpl. rewrite list_fmap_id. apply NoDup_seq.
    + apply list_elem_of_fmap. exists v. split; [done|]. apply elem_of_seq. lia.
  - apply not_elem_of_list_to_map. rewrite <- list_fmap_compose. simpl. rewrite list_fmap_id.
    rewrite elem_of_seq. lia.
Qed.

Lemma fresh_domains_lookup (vars : list nat) (limit x : nat) :
  NoDup vars → x ∈ vars → fresh_domains vars limit !! x = Some (seq 0 limit).
Proof.
  intros Hnd Hx. unfold fresh_domains. apply elem_of_list_to_map.
  - rewrite <- list_fmap_compose. simpl. by rewrite list_fmap_id.
  - apply list_elem_of_fmap. exists x. done.
Qed.

Lemma reset_same_problem (self : CSP_VRPTW) (limit : nat) : same_problem self (reset self limit).
Proof. by repeat split. Qed.

Lemma reset_fresh (self : CSP_VRPTW) (limit : nat) : fresh_state (reset self limit) limit.
Proof.
  split.
  - intros v. apply fresh_routes_lookup.
  - intros x Hx. simpl. apply fresh_domains_lookup; [apply NoDup_variables|done].
Qed.

Lemma reset_ext (s1 s2 : CSP_VRPTW) (limit : nat) :
  same_problem s1 s2 → reset s2 limit = reset s1 limit.
Proof.
  intros Hp. pose proof (same_problem_variables _ _ Hp) as Hv.
  destruct Hp as (Hc & Hcap & Hn & Hd). unfold reset, set_assignments, set_routes, set_domains.
  simpl. rewrite Hc, Hcap, Hn, Hd, Hv. done.
Qed.

(** A fresh state is consistent when the capacity is not negative. *)
Lemma fresh_consistent (self : CSP_VRPTW) (limit : nat) :
  (0 <= vehicle_capacity self)%Z →
  fresh_state self limit → assignments self = ∅ → consistent_state self.
Proof.
  intros Hcap Hf Ha.
  assert (Hnil : routed_customers self = []).
  { destruct (routed_customers self) as [|x l] eqn:E; [done|].
    exfalso. apply (fresh_routed_nil self limit Hf x). rewrite E. by left. }
  split; [|split; [|split]].
  - rewrite Hnil. constructor.
  - intros x. rewrite Hnil, Ha, lookup_empty. split.
    + intros Hx. by apply elem_of_nil in Hx.
    + intros [? ?]. done.
  - intros x. rewrite Ha, lookup_empty. intros [? ?]. done.
  - intros v route Hv. destruct Hf as [Hr _]. rewrite Hr in Hv.
    destruct (decide (v < limit)); [|done]. inversion Hv; subst.
    split; [|done]. exists []. split; [done|]. simpl. lia.
Qed.

Lemma ac_first_failure_state (self : CSP_VRPTW) (xs : list nat) (b : bool) (self' : CSP_VRPTW) :
  ac_first_failure self xs = Ok (b, self') →
  same_but_domains self self' ∧ (b = true → self' = self).
Proof.
  induction xs as [|x xs IH]; simpl; intros H.
  - inversion H; subst. split; [apply same_but_domains_refl|done].
  - bind_inv H as ok Hok. destruct ok; [by apply IH|].
    inversion H; subst. split; [|done]. by destruct self.
Qed.

Lemma arcs_wf (self : CSP_VRPTW) :
  Forall (λ arc, arc.1 ∈ variables self ∧ arc.2 ∈ variables self ∧ arc.1 ≠ arc.2)
         (arcs (variables self)).
Proof. apply Forall_forall. intros [x y] Hin. by apply arcs_spec in Hin. Qed.

(** The pass in a fresh state, whatever the checks return. *)
Lemma fresh_pass_first_failure (self : CSP_VRPTW) (limit : nat) :
  fresh_state self limit → 0 < limit →
  _arc_consistency self = ac_first_failure self (arcs (variables self)).*1.
Proof.
  intros Hf Hpos. unfold _arc_consistency.
  apply (ac_loop_fresh self limit); [done|done| |apply arcs_wf].
  unfold ac_fuel. lia.
Qed.

Lemma terminates_ac_first_failure (self : CSP_VRPTW) (xs : list nat) :
  terminates (ac_first_failure self xs).
Proof.
  induction xs as [|x xs IH]; [done|]. simpl. apply terminates_bind.
  - unfold alone_feasible. apply terminates_bind; [unfold customer_at; auto with terminates|].
    intros c _. destruct (_ >? _)%Z; [done|]. apply terminates_validate_loop.
  - by intros [|] _.
Qed.

Lemma fresh_routes_nonempty (limit : nat) : 0 < limit → fresh_routes limit ≠ ∅.
Proof.
  intros Hpos Hempty. pose proof (fresh_routes_lookup limit 0) as H.
  rewrite Hempty, lookup_empty, decide_True in H by done. done.
Qed.

(** One turn of the loop of [solve], in terms of [attempt]. *)
Lemma solve_loop_first_success (self0 : CSP_VRPTW) (limits : list nat) :
  Forall (λ k, 0 < k) limits →
  ∀ self, same_problem self0 self →
    fst <$> solve_loop self limits = first_success (attempt self0) limits.
Proof.
  induction limits as [|k rest IH]; intros Hpos self Hp; [done|].
  apply Forall_cons in Hpos as [Hk Hpos].
  cbn [solve_loop first_success]. unfold attempt.
  rewrite (reset_ext self0 self k Hp).
  pose proof (reset_fresh self0 k) as Hf.
  rewrite (fresh_pass_first_failure _ k Hf Hk).
  destruct (ac_first_failure _ _) as [[consistent s1]| |] eqn:Hac; simpl; try done.
  apply ac_first_failure_state in Hac as [Hs1 Hs1'].
  apply same_but_domains_inv in Hs1 as (Hp1 & Ha1 & Hr1).
  assert (Hp01 : same_problem self0 s1).
  { eapply same_problem_trans; [apply (reset_same_problem self0 k)|exact Hp1]. }
  destruct consistent; [|by apply IH].
  destruct (backtracking_search s1) as [[solution s2]| |] eqn:Hbs; simpl; try done.
  apply backtrack_frame in Hbs as (Hp2 & Hd2 & Hres).
  assert (Hp02 : same_problem self0 s2) by (by eapply same_problem_trans).
  destruct solution as [r|]; [|by apply IH].
  assert (Hne : r ≠ ∅).
  { subst r. intros Hempty. rewrite Hempty, Hr1 in Hd2. simpl in Hd2.
    rewrite dom_empty_L in Hd2. symmetry in Hd2. apply dom_empty_inv_L in Hd2.
    by apply (fresh_routes_nonempty k). }
  simpl. rewrite bool_decide_eq_true_2 by done. done.
Qed.

Lemma first_success_Some (try : nat → outcome (option routes_t)) (start n : nat) (r : routes_t) :
  first_success try (seq start n) = Ok (Some r) →
  ∃ k, start ≤ k < start + n ∧ try k = Ok (Some r)
       ∧ ∀ j, start ≤ j < k → try j = Ok None.
Proof.
  revert start. induction n as [|n IH]; intros start H; [done|].
  simpl in H. bind_inv H as res Hres. destruct res as [r'|].
  - inversion H; subst r'. exists start. split; [lia|]. split; [done|]. intros j Hj. lia.
  - apply IH in H as (k & Hk & Hkr & Hbefore). exists k. split; [lia|]. split; [done|].
    intros j Hj. destruct (decide (j = start)) as [->|Hne]; [done|]. apply Hbefore. lia.
Qed.

Lemma first_success_None (try : nat → outcome (option routes_t)) (start n : nat) :
  first_success try (seq start n) = Ok None ↔
  ∀ k, start ≤ k < start + n → try k = Ok None.
Proof.
  revert start. induction n as [|n IH]; intros start; simpl.
  - split; [|done]. intros _ k Hk. lia.
  - split.
    + intros H. bind_inv H as res Hres. destruct res as [r'|]; [done|].
      intros k Hk. destruct (decide (k = start)) as [->|Hne]; [done|].
      apply (proj1 (IH (S start)) H). lia.
    + intros H. rewrite (H start) by lia. simpl. apply IH. intros k Hk. apply H. lia.
Qed.

Lemma attempt_inv (self : CSP_VRPTW) (limit : nat) (r : routes_t) :
  0 < limit → attempt self limit = Ok (Some r) →
  ∃ self', backtracking_search (reset self limit) = Ok (Some r, self').
Proof.
  intros Hpos H. unfold attempt in H.
  rewrite (fresh_pass_first_failure _ limit (reset_fresh self limit) Hpos) in H.
  bind_inv H as ac Hac. destruct ac as [consistent s1].
  apply ac_first_failure_state in Hac as [_ Hs1].
  destruct consistent; [|done]. rewrite Hs1 in H by done.
  apply fmap_Ok in H as ([sol s2] & Hbs & Hsol). simpl in Hsol. subst sol. eauto.
Qed.

(** The routes table an attempt returns has one route per vehicle below
    the cap. *)
Lemma attempt_routes_dom (self : CSP_VRPTW) (limit : nat) (r : routes_t) :
  0 < limit → attempt self limit = Ok (Some r) → ∀ v, is_Some (r !! v) ↔ v < limit.
Proof.
  intros Hpos H v. apply attempt_inv in H as [self' H]; [|done].
  apply backtrack_frame in H as (_ & Hdom & ->).
  rewrite <- elem_of_dom, Hdom, elem_of_dom. simpl. rewrite fresh_routes_lookup.
  destruct (decide (v < limit)); split; try done; try (by intros [? ?]); eauto.
Qed.

Lemma attempt_sound (self : CSP_VRPTW) (limit : nat) (r : routes_t) :
  (0 <= vehicle_capacity self)%Z → 0 < limit →
  attempt self limit = Ok (Some r) → solution_ok self r.
Proof.
  intros Hcap Hpos H. apply attempt_inv in H as [self' H]; [|done].
  eapply solution_ok_ext; [apply same_problem_sym, (reset_same_problem self limit)|].
  eapply backtrack_sound; [|exact H].
  by apply (fresh_consistent _ limit); [|apply reset_fresh|].
Qed.

Lemma terminates_attempt (self : CSP_VRPTW) (limit : nat) :
  0 < limit → terminates (attempt self limit).
Proof.
  intros Hpos. unfold attempt.
  rewrite (fresh_pass_first_failure _ limit (reset_fresh self limit) Hpos).
  apply terminates_bind; [apply terminates_ac_first_failure|].
  intros [consistent s1] Hac. apply ac_first_failure_state in Hac as [_ Hs1].
  destruct consistent; [|done]. rewrite Hs1 by done.
  apply terminates_fmap, terminates_backtracking_search.
  intros x. simpl. rewrite lookup_empty. by intros [? ?].
Qed.

Lemma terminates_first_success (try : nat → outcome (option routes_t)) (limits : list nat) :
  (∀ k, k ∈ limits → terminates (try k)) → terminates (first_success try limits).
Proof.
  induction limits as [|k rest IH]; intros H; [done|]. simpl.
  apply terminates_bind; [apply H; by left|]. intros [r|] _; [done|].
  apply IH. intros j Hj. apply H. by right.
Qed.

Lemma solve_first_success (self : CSP_VRPTW) :
  fst <$> solve self = first_success (attempt self) (vehicle_limits self).
Proof.
  unfold solve. apply solve_loop_first_success; [|apply same_problem_refl].
  apply Forall_forall. intros k Hk. apply elem_of_seq in Hk. lia.
Qed.

(** C4: [solve] runs the attempts for the caps 1, 2, ..., fleet size in
    this order, each from the reset state, and returns the result of the
    first that finds a solution: a returned solution comes from an attempt
    with some cap [k] (its routes table has the vehicles below [k]) and
    every attempt with a smaller cap failed; the no-solution result is
    returned exactly when every attempt up to the fleet size failed. *)
Theorem solve_first_solution (self : CSP_VRPTW) :
  fst <$> solve self = first_success (attempt self) (vehicle_limits self)
  ∧ terminates (solve self)
  ∧ (∀ r self', solve self = Ok (Some r, self') →
       ∃ k, 1 ≤ k ≤ Z.to_nat (num_vehicles self)
            ∧ attempt self k = Ok (Some r)
            ∧ (∀ v, is_Some (r !! v) ↔ v < k)
            ∧ ∀ j, 1 ≤ j < k → attempt self j = Ok None)
  ∧ ((∃ self', solve self = Ok (None, self')) ↔
       ∀ k, 1 ≤ k ≤ Z.to_nat (num_vehicles self) → attempt self k = Ok None).
Proof.
  pose proof (solve_first_success self) as Heq.
  split; [done|]. split; [|split].
  - assert (Ht : terminates (first_success (attempt self) (vehicle_limits self))).
    { apply terminates_first_success. intros k Hk. apply elem_of_seq in Hk.
      apply terminates_attempt. lia. }
    rewrite <- Heq in Ht. unfold terminates in *. by destruct (solve self).
  - intros r self' H. rewrite H in Heq. simpl in Heq. symmetry in Heq.
    apply first_success_Some in Heq as (k & Hk & Hr & Hbefore).
    exists k. split; [lia|]. split; [done|]. split; [|done].
    apply (attempt_routes_dom self); [lia|done].
  - unfold vehicle_limits in Heq. split.
    + intros [self' H] k Hk. rewrite H in Heq. simpl in Heq. symmetry in Heq.
      apply (proj1 (first_success_None _ _ _) Heq). lia.
    + intros H.
      assert (Hfs : first_success (attempt self) (seq 1 (Z.to_nat (num_vehicles self)))
                    = Ok None).
      { apply first_success_None. intros k Hk. apply H. lia. }
      rewrite Hfs in Heq. destruct (solve self) as [[res self']| |]; try done.
      inversion Heq; subst. eauto.
Qed.

(** C3: a solution returned by [solve] satisfies the Route invariant:
    every customer but the depot is in exactly one route, no route visits
    a customer twice, every route is within the vehicle capacity and
    passes the time-window check, which is the simulation of section
    4.2. *)
Theorem solve_solution_ok (self self' : CSP_VRPTW) (r : routes_t) :
  (0 <= vehicle_capacity self)%Z →
  solve self = Ok (Some r, self') →
  solution_ok self r
  ∧ ∀ v route, r !! v = Some route → time_window_feasible self route = Ok true.
Proof.
  intros Hcap H. pose proof (solve_first_success self) as Heq.
  rewrite H in Heq. simpl in Heq. symmetry in Heq.
  apply first_success_Some in Heq as (k & Hk & Hr & _).
  assert (Hok : solution_ok self r) by (apply (attempt_sound self k); [done|lia|done]).
  split; [done|]. intros v route Hv.
  destruct Hok as (_ & _ & Hfeas). destruct (Hfeas v route Hv) as [_ Htw].
  unfold time_window_feasible. rewrite <- Htw.
  symmetry. exact (validate_loop_simulation self route [] (PInt 0)).
Qed.

(** C2 (amended): started in a consistent state the search ends, and what
    it returns is the routes table of a complete feasible assignment:
    every customer but the depot in exactly one route, every route within
    capacity and passing the time-window simulation in the order in which
    the search appended its customers. *)
Theorem backtracking_search_sound (self : CSP_VRPTW) :
  consistent_state self →
  terminates (backtracking_search self)
  ∧ ∀ r self', backtracking_search self = Ok (Some r, self') →
               solution_ok self r ∧ routes self' = r.
Proof.
  intros Hcons. split.
  - apply terminates_backtracking_search. by destruct Hcons as (_ & _ & Hav & _).
  - intros r self' H. split; [by eapply backtrack_sound|].
    by apply backtrack_frame in H as (_ & _ & ->).
Qed.

(** C7 (amended): in the state set up for a cap of at least one vehicle,
    when the checks of the single customers raise no exception, the pass
    changes nothing but the domain store, leaves the whole object as it
    was when it returns true, and returns false exactly when there are at
    least two customers besides the depot and one of them cannot be served
    alone. *)
Theorem arc_consistency_fresh (self : CSP_VRPTW) (limit : nat) :
  0 < limit →
  fresh_state self limit →
  (∀ x, x ∈ variables self → ∃ b, alone_feasible self x = Ok b) →
  ∃ b self',
    _arc_consistency self = Ok (b, self')
    ∧ same_but_domains self self'
    ∧ (b = true → self' = self)
    ∧ (b = false ↔
         2 ≤ length (variables self)
         ∧ ∃ x, x ∈ variables self ∧ alone_feasible self x = Ok false).
Proof.
  intros Hpos Hf Hall. rewrite (fresh_pass_first_failure self limit Hf Hpos).
  assert (Hdec : (2 ≤ length (variables self)
                  ∧ ∃ x, x ∈ variables self ∧ alone_feasible self x = Ok false)
                 ∨ ¬ (2 ≤ length (variables self)
                      ∧ ∃ x, x ∈ variables self ∧ alone_feasible self x = Ok false)).
  { destruct (decide (2 ≤ length (variables self)
                      ∧ Exists (λ x, alone_feasible self x = Ok false) (variables self)))
      as [[Hlen Hex]|Hno].
    - left. split; [done|]. by apply Exists_exists in Hex.
    - right. intros [Hlen Hex]. apply Hno. split; [done|]. by apply Exists_exists. }
  destruct Hdec as [[Hlen (x & Hx & Hxf)]|Hno].
  - destruct (ac_first_failure_false self (arcs (variables self)).*1) as (z & Hz & Hzf & Hres).
    + intros y Hy. apply Hall. apply list_elem_of_fmap in Hy as ([a b] & -> & Hin).
      apply arcs_spec in Hin. tauto.
    + exists x. split; [|done]. apply arcs_first; [apply NoDup_variables|done|done].
    + exists false, (set_domains self (<[z := []]> (domains self))).
      split; [done|]. split; [by destruct self|]. split; [done|]. split; [|done].
      intros _. split; [done|]. eauto.
  - exists true, self. split; [|split; [apply same_but_domains_refl|split; [done|]]].
    + apply ac_first_failure_true. intros x Hx.
      apply list_elem_of_fmap in Hx as ([a b] & -> & Hin). apply arcs_spec in Hin as (Ha & Hb & Hab).
      simpl. destruct (Hall a Ha) as [[|] Haf]; [done|]. exfalso. apply Hno. split; [|eauto].
      destruct (variables self) as [|u [|w l]]; simpl; try lia.
      * by apply elem_of_nil in Ha.
      * apply list_elem_of_singleton in Ha, Hb. congruence.
    + split; [done|]. intros H. by apply Hno in H.
Qed.

(** ** The instance with the depot alone *)

Lemma fsub_diag (f : spec_float) : fsub f f = S754_zero false ∨ fsub f f = S754_nan.
Proof.
  destruct f as [s|s| |s m e]; simpl.
  - left. by destruct s.
  - right. by destruct s.
  - by right.
  - left. unfold fsub, SFsub. by rewrite Z.sub_diag.
Qed.

(** The distance of a location to itself is computed without an exception. *)
Lemma euclidean_distance_self (loc : spec_float * spec_float) :
  ∃ d, euclidean_distance loc loc = Ok d.
Proof.
  unfold euclidean_distance.
  destruct (fsub_diag loc.1) as [-> | ->], (fsub_diag loc.2) as [-> | ->]; simpl; eauto.
Qed.

(** C10: with the depot as only record and a fleet of at least one
    vehicle, the object is built, [solve] succeeds at the cap of one
    vehicle with no assignment and one empty route, and [format_solution]
    then reports no route, zero vehicles used and the total distance 0. *)
Theorem depot_only_solution (depot_record : customer) (capacity nv : Z) :
  (1 <= nv)%Z →
  ∃ self self',
    init [depot_record] capacity nv = Ok self
    ∧ solve self = Ok (Some {[0 := []]}, self')
    ∧ attempt self 1 = Ok (Some {[0 := []]})
    ∧ assignments self' = ∅
    ∧ routes self' = {[0 := []]}
    ∧ format_solution self' = Ok (""%string, 0, PInt 0).
Proof.
  intros Hnv.
  destruct (euclidean_distance_self (cust_x depot_record, cust_y depot_record)) as [d Hd].
  assert (Hlimits : ∃ n, Z.to_nat nv = S n) by (exists (Z.to_nat nv - 1); lia).
  destruct Hlimits as [n Hn].
  unfold init, _create_distance_matrix. simpl. rewrite Hd. simpl.
  eexists. eexists. split; [reflexivity|].
  unfold solve, vehicle_limits. simpl. rewrite Hn.
  cbn [seq solve_loop]. unfold attempt.
  split; [reflexivity|]. split; [reflexivity|]. split; [reflexivity|].
  split; [reflexivity|]. reflexivity.
Qed.

(** ** The distance matrix (section 4.1) *)

(** *** Rounding keeps the sign and yields no NaN *)

Lemma shr_1_nonneg (mrs : shr_record) : (0 <= shr_m mrs)%Z → (0 <= shr_m (shr_1 mrs))%Z.
Proof. destruct mrs as [[|[p|p|]|p] r s]; simpl; intros; lia. Qed.

Lemma iter_pos_nonneg (p : positive) :
  ∀ mrs, (0 <= shr_m mrs)%Z → (0 <= shr_m (SpecFloat.iter_pos shr_1 p mrs))%Z.
Proof.
  induction p as [p IH|p IH|]; intros mrs H; simpl.
  - apply IH, IH. by apply shr_1_nonneg.
  - by apply IH, IH.
  - by apply shr_1_nonneg.
Qed.

Lemma shr_fexp_nonneg (m e : Z) (l : location) :
  (0 <= m)%Z → (0 <= shr_m (shr_fexp prec emax m e l).1)%Z.
Proof.
  intros Hm. unfold shr_fexp, shr.
  assert (H0 : (0 <= shr_m (shr_record_of_loc m l))%Z) by (by destruct l as [|[]]).
  destruct (_ - e)%Z; simpl; try done. by apply iter_pos_nonneg.
Qed.

Lemma round_nearest_even_nonneg (m : Z) (l : location) :
  (0 <= m)%Z → (0 <= round_nearest_even m l)%Z.
Proof. intros Hm. destruct l as [|[]]; simpl; try lia. destruct (Z.even m); lia. Qed.

(** What [binary_round_aux] can return on a mantissa that is not negative. *)
Lemma binary_round_aux_cases (s : bool) (m e : Z) (l : location) :
  (0 <= m)%Z →
  match binary_round_aux prec emax s m e l with
  | S754_zero s' | S754_infinity s' | S754_finite s' _ _ => s' = s
  | S754_nan => False
  end.
Proof.
  intros Hm. unfold binary_round_aux.
  pose proof (shr_fexp_nonneg m e l Hm) as H1.
  destruct (shr_fexp prec emax m e l) as [mrs' e']. simpl in H1.
  pose proof (shr_fexp_nonneg _ e' loc_Exact
                (round_nearest_even_nonneg _ (loc_of_shr_record mrs') H1)) as H2.
  destruct (shr_fexp prec emax _ e' loc_Exact) as [mrs'' e'']. simpl in H2.
  destruct (shr_m mrs'') as [|p|p]; [done| |lia].
  by destruct (_ <=? _)%Z.
Qed.

Lemma binary_round_cases (s : bool) (m : positive) (e : Z) :
  match binary_round prec emax s m e with
  | S754_zero s' | S754_infinity s' | S754_finite s' _ _ => s' = s
  | S754_nan => False
  end.
Proof.
  unfold binary_round. destruct (shl_align _ _ _) as [mz ez].
  by apply binary_round_aux_cases.
Qed.

(** Rounding [-z] gives the rounding of [z] with the other sign. *)
Lemma binary_round_abs (s s' : bool) (m : positive) (e : Z) :
  SFabs (binary_round prec emax s m e) = SFabs (binary_round prec emax s' m e).
Proof.
  unfold binary_round. destruct (shl_align _ _ _) as [mz ez]. unfold binary_round_aux.
  destruct (shr_fexp prec emax (Z.pos mz) ez loc_Exact) as [mrs' e'].
  destruct (shr_fexp prec emax _ e' loc_Exact) as [mrs'' e''].
  destruct (shr_m mrs''); try done. by destruct (_ <=? _)%Z.
Qed.

Lemma binary_normalize_opp_abs (z e : Z) :
  SFabs (binary_normalize prec emax (- z) e false)
  = SFabs (binary_normalize prec emax z e false).
Proof. destruct z; simpl; try done; apply binary_round_abs. Qed.

(** *** Subtraction, square and square root *)

Lemma fsub_swap_abs (a b : spec_float) : SFabs (fsub a b) = SFabs (fsub b a).
Proof.
  destruct a as [sa|sa| |sa ma ea], b as [sb|sb| |sb mb eb]; simpl; try done.
  - by destruct sa, sb.
  - by destruct sa, sb.
  - unfold fsub, SFsub. rewrite (Z.min_comm eb ea).
    rewrite <- binary_normalize_opp_abs. f_equal. f_equal. lia.
Qed.

Lemma float_pow2_abs (f g : spec_float) : SFabs f = SFabs g → float_pow2 f = float_pow2 g.
Proof.
  destruct f as [s|s| |s m e], g as [s'|s'| |s' m' e']; simpl; try done.
  intros [= <- <-]. unfold fmul, SFmul. by rewrite !xorb_nilpotent.
Qed.

(** The distance does not depend on the order of its two locations. *)
Lemma euclidean_distance_comm (loc1 loc2 : spec_float * spec_float) :
  euclidean_distance loc1 loc2 = euclidean_distance loc2 loc1.
Proof.
  unfold euclidean_distance.
  rewrite (float_pow2_abs _ _ (fsub_swap_abs loc1.1 loc2.1)).
  rewrite (float_pow2_abs _ _ (fsub_swap_abs loc1.2 loc2.2)). done.
Qed.

Lemma float_pow2_not_negative (f r : spec_float) :
  f ≠ S754_nan → float_pow2 f = Ok r → not_negative r = true.
Proof.
  destruct f as [s|s| |s m e]; simpl; intros Hnan H; try done; try (by inversion H).
  unfold fmul, SFmul in H. rewrite xorb_nilpotent in H.
  pose proof (binary_round_aux_cases false (Z.pos (m * m)) (e + e) loc_Exact
                ltac:(lia)) as Hc.
  destruct (binary_round_aux _ _ _ _ _ _) as [s'|s'| |s' m' e'];
    try done; inversion H; subst; done.
Qed.

Lemma fsub_finite_not_nan (a b : spec_float) :
  is_finite a = true → is_finite b = true → fsub a b ≠ S754_nan.
Proof.
  destruct a as [sa|sa| |sa ma ea], b as [sb|sb| |sb mb eb]; simpl; try done.
  - by destruct sa, sb.
  - intros _ _. unfold fsub, SFsub.
    destruct (_ - _)%Z as [|p|p]; simpl; try done.
    + pose proof (binary_round_cases false p (Z.min ea eb)) as Hc.
      by destruct (binary_round _ _ _ _ _).
    + pose proof (binary_round_cases true p (Z.min ea eb)) as Hc.
      by destruct (binary_round _ _ _ _ _).
Qed.

Lemma fadd_not_negative (f g : spec_float) :
  not_negative f = true → not_negative g = true →
  not_negative (fadd f g) = true ∧ (f = S754_zero false → g = S754_zero false →
                                    fadd f g = S754_zero false).
Proof.
  destruct f as [sf|[|]| |[|] mf ef], g as [sg|[|]| |[|] mg eg]; simpl; try done.
  - intros _ _. split; [by destruct sf, sg|]. by intros [= ->] [= ->].
  - intros _ _. split; [|done]. unfold fadd, SFadd. simpl.
    destruct (shl_align mf ef _) as [a ?], (shl_align mg eg _) as [b ?]. simpl.
    pose proof (binary_round_cases false (a + b) (Z.min ef eg)) as Hc.
    destruct (binary_round _ _ _ _ _); try done; by subst.
Qed.

Lemma math_sqrt_not_negative (f : spec_float) :
  not_negative f = true →
  ∃ r, math_sqrt f = Ok r ∧ not_negative r = true
       ∧ (f = S754_zero false → r = S754_zero false).
Proof.
  destruct f as [s|[|]| |[|] m e]; simpl; try done; intros _.
  - exists (S754_zero s). split; [done|]. split; [done|]. done.
  - exists (S754_infinity false). done.
  - eexists. split; [done|]. split; [|done].
    unfold fsqrt, SFsqrt.
    destruct (SFsqrt_core_binary prec emax (Z.pos m) e) as [[mz ez] lz] eqn:Hcore.
    assert (Hmz : (0 <= mz)%Z).
    { unfold SFsqrt_core_binary in Hcore.
      set (m' := match (e - 2 * _)%Z with Z.pos _ => _ | Z0 => _ | Z.neg _ => _ end) in Hcore.
      assert (Hm' : (0 <= m')%Z).
      { unfold m'. destruct (e - 2 * _)%Z; try lia. apply Z.shiftl_nonneg. lia. }
      pose proof (Z.sqrtrem_spec m' Hm') as Hspec.
      destruct (Z.sqrtrem m') as [q r]. inversion Hcore; subst. lia. }
    pose proof (binary_round_aux_cases false mz ez lz Hmz) as Hc.
    destruct (binary_round_aux _ _ _ _ _ _); try done; by subst.
Qed.

(** A float that is not a NaN is equal to itself. *)
Lemma py_eq_refl (f : spec_float) : f ≠ S754_nan → py_eq (PFloat f) (PFloat f) = true.
Proof.
  intros Hnan. unfold py_eq. simpl. destruct f as [s|s| |s m e]; simpl; try done.
  - by destruct s.
  - rewrite Z.compare_refl. rewrite Pos.compare_cont_refl. by destruct s.
Qed.

(** *** The entries of the matrix *)

Lemma map_o_lookup {A B} (f : A → outcome B) (l : list A) (r : list B) (i : nat) (a : A) :
  map_o f l = Ok r → l !! i = Some a → ∃ b, r !! i = Some b ∧ f a = Ok b.
Proof.
  intros H Ha. apply map_o_Ok_Forall2 in H.
  destruct (Forall2_lookup_l _ _ _ _ _ H Ha) as (b & Hb & Hf). eauto.
Qed.

Lemma distance_matrix_entry (custs : list customer) (m : list (list spec_float))
    (i j : nat) (ci cj : customer) :
  _create_distance_matrix custs = Ok m →
  custs !! i = Some ci → custs !! j = Some cj →
  ∃ d, entry m i j = Some d
       ∧ euclidean_distance (cust_x ci, cust_y ci) (cust_x cj, cust_y cj) = Ok d.
Proof.
  intros H Hi Hj. unfold _create_distance_matrix in H.
  eapply map_o_lookup in H as (row & Hrow & Hr);
    [|by rewrite list_lookup_fmap, Hi].
  eapply map_o_lookup in Hr as (d & Hd & He);
    [|by rewrite list_lookup_fmap, Hj].
  exists d. unfold entry. rewrite Hrow. simpl. done.
Qed.

(** A distance between finite locations is not negative, and is [+0.0]
    from a location to itself. *)
Lemma euclidean_distance_finite (c1 c2 : customer) (d : spec_float) :
  finite_location c1 → finite_location c2 →
  euclidean_distance (cust_x c1, cust_y c1) (cust_x c2, cust_y c2) = Ok d →
  not_negative d = true ∧ (c1 = c2 → d = S754_zero false).
Proof.
  intros [Hx1 Hy1] [Hx2 Hy2] H. unfold euclidean_distance in H. simpl in H.
  bind_inv H as dx Hdx. bind_inv H as dy Hdy.
  pose proof (float_pow2_not_negative _ _ (fsub_finite_not_nan _ _ Hx1 Hx2) Hdx) as Hnx.
  pose proof (float_pow2_not_negative _ _ (fsub_finite_not_nan _ _ Hy1 Hy2) Hdy) as Hny.
  destruct (fadd_not_negative dx dy Hnx Hny) as [Hsum Hzero].
  destruct (math_sqrt_not_negative _ Hsum) as (r & Hr & Hnr & Hrz).
  rewrite Hr in H. inversion H; subst r. split; [done|].
  intros <-. apply Hrz, Hzero.
  - destruct (fsub_diag (cust_x c1)) as [E|E]; rewrite E in Hdx; [by inversion Hdx|].
    by apply fsub_finite_not_nan in E.
  - destruct (fsub_diag (cust_y c1)) as [E|E]; rewrite E in Hdy; [by inversion Hdy|].
    by apply fsub_finite_not_nan in E.
Qed.

Lemma not_negative_not_nan (f : spec_float) : not_negative f = true → f ≠ S754_nan.
Proof. by destruct f. Qed.

(** C9, as amended: when the coordinates of all customers are finite
    floats, the distance matrix that the constructor builds has an entry
    for every pair of indices, is symmetric and has a zero diagonal:
    [matrix[i][j] == matrix[j][i]] and [matrix[i][i] == 0].  Without the
    finiteness the claim fails: an infinite coordinate gives a NaN on the
    diagonal. *)
Theorem distance_matrix_symmetric (custs : list customer) (m : list (list spec_float))
    (i j : nat) :
  Forall finite_location custs →
  _create_distance_matrix custs = Ok m →
  i < length custs → j < length custs →
  ∃ dij dji dii,
    entry m i j = Some dij ∧ entry m j i = Some dji ∧ entry m i i = Some dii
    ∧ py_eq (PFloat dij) (PFloat dji) = true
    ∧ py_eq (PFloat dii) (PInt 0) = true.
Proof.
  intros Hfin H Hi Hj.
  destruct (lookup_lt_is_Some_2 custs i Hi) as [ci Hci].
  destruct (lookup_lt_is_Some_2 custs j Hj) as [cj Hcj].
  assert (Hfi : finite_location ci) by (by eapply Forall_lookup_1 in Hfin).
  assert (Hfj : finite_location cj) by (by eapply Forall_lookup_1 in Hfin).
  destruct (distance_matrix_entry custs m i j ci cj H Hci Hcj) as (dij & Hij & Eij).
  destruct (distance_matrix_entry custs m j i cj ci H Hcj Hci) as (dji & Hji & Eji).
  destruct (distance_matrix_entry custs m i i ci ci H Hci Hci) as (dii & Hii & Eii).
  exists dij, dji, dii. split; [done|]. split; [done|]. split; [done|].
  rewrite euclidean_distance_comm, Eij in Eji. inversion Eji; subst dji.
  destruct (euclidean_distance_finite ci cj dij Hfi Hfj Eij) as [Hn _].
  destruct (euclidean_distance_finite ci ci dii Hfi Hfi Eii) as [_ Hz].
  split.
  - by apply py_eq_refl, not_negative_not_nan.
  - by rewrite Hz.
Qed.

(** ** The claims on the example instances *)

(** A way to establish the Route invariant of a given routes table. *)
Lemma solution_ok_intro (self : CSP_VRPTW) (r : routes_t) :
  NoDup (mjoin (dict_values r)) →
  (∀ x, x ∈ variables self ↔ x ∈ mjoin (dict_values r)) →
  map_Forall (λ _ route, route_ok self route) r →
  solution_ok self r.
Proof.
  intros Hnd Hvars Hfeas.
  apply (solution_ok_ext (set_routes (set_assignments self
           (list_to_map ((λ x, (x, 0)) <$> variables self))) r) self); [by repeat split|].
  assert (Hlook : ∀ x, is_Some ((list_to_map ((λ x, (x, 0)) <$> variables self)
                                   : gmap nat nat) !! x) ↔ x ∈ variables self).
  { intros x. split.
    - intros [v Hv]. apply elem_of_list_to_map_2, list_elem_of_fmap in Hv as (y & [= -> _] & Hy).
      done.
    - intros Hx. exists 0. apply elem_of_list_to_map_1.
      + rewrite <- list_fmap_compose. simpl. rewrite list_fmap_id. apply NoDup_variables.
      + apply list_elem_of_fmap. eauto. }
  apply consistent_state_complete.
  - split; [done|]. split; [|split].
    + intros x. unfold routed_customers. simpl. by rewrite Hlook, Hvars.
    + intros x. simpl. apply Hlook.
    + intros v route Hv. simpl in Hv. eapply route_ok_ext; [|by eapply Hfeas]. by repeat split.
  - simpl. rewrite map_size_list_to_map.
    + by rewrite length_fmap.
    + rewrite <- list_fmap_compose. simpl. rewrite list_fmap_id. apply NoDup_variables.
Qed.

Lemma solution_ok_check (self : CSP_VRPTW) (r : routes_t) :
  NoDup (mjoin (dict_values r))
  ∧ variables self ⊆ mjoin (dict_values r)
  ∧ mjoin (dict_values r) ⊆ variables self
  ∧ map_Forall (λ _ route, route_ok self route) r →
  solution_ok self r.
Proof.
  intros (Hnd & H1 & H2 & Hfeas). apply solution_ok_intro; [done| |done].
  intros x. split; [apply H1|apply H2].
Qed.

(** The Route invariant of a concrete routes table, by evaluation. *)
Ltac solution_ok_by_evaluation :=
  apply solution_ok_check; apply (bool_decide_unpack _); vm_compute; exact I.

(** C2, counterexample: with one vehicle the customers of [late_first] can
    be served in the order 2, 1, and the pass finds the instance
    arc-consistent, but the search assigns customer 1 first, finds no
    value left for customer 2 and returns failure. *)
Lemma search_misses_feasible_order :
  let self := reset (built late_first 10 1) 1 in
  init late_first 10 1 = Ok (built late_first 10 1)
  ∧ consistent_state self
  ∧ _arc_consistency self = Ok (true, self)
  ∧ solution_ok self {[0 := [2; 1]]}
  ∧ backtracking_search self
    = Ok (None, final_state (backtracking_search self) self).
Proof.
  split; [|split; [|split; [|split]]].
  - vm_compute. reflexivity.
  - apply (fresh_consistent _ 1); [done|apply reset_fresh|done].
  - vm_compute. reflexivity.
  - solution_ok_by_evaluation.
  - vm_compute. reflexivity.
Qed.

(** The undo in general: whenever a candidate that passed the check
    fails, the state in which the next candidate is tried still has the
    variable in the route it was appended to. *)
Lemma failed_candidate_stays_routed
    (recurse : CSP_VRPTW → outcome (option routes_t * CSP_VRPTW))
    (variable value : nat) (self self' : CSP_VRPTW) :
  consistent_at self variable value = Ok true →
  try_values recurse variable self [value] = Ok (None, self') →
  (variable ∉ routed_customers self)
  ∧ variable ∈ routed_customers self'
  ∧ ∃ route, routes self !! value = Some route
             ∧ routes self' = <[value := route ++ [variable]]> (routes self).
Proof.
  intros Hok H. cbn [try_values] in H. rewrite Hok in H. simpl in H.
  unfold consistent_at in Hok. bind_inv Hok as route Hroute.
  unfold dict_get in Hroute. destruct (routes self !! value) as [route0|] eqn:Hrv; [|done].
  inversion Hroute; subst route0; clear Hroute.
  apply is_consistent_true in Hok as [Hfresh _].
  bind_inv H as r Hr. unfold dict_get in Hr. simpl in Hr. rewrite Hrv in Hr.
  inversion Hr; subst r; clear Hr.
  bind_inv H as fc Hfc. destruct fc as [checked self2].
  bind_inv H as rr Hrr. destruct rr as [[res|] self3]; [done|].
  bind_inv H as old Hold. inversion H; subst self'; clear H.
  split; [done|]. split; [|eauto].
  apply elem_of_routed. exists value, (route ++ [variable]). simpl.
  rewrite lookup_insert_eq. split; [done|]. apply elem_of_app. right. by left.
Qed.

(** C1, on the code: three customers of demand 10, capacity 15, cap of two
    vehicles.  At the root, variable 1 is selected and its candidates are
    vehicle 0, then vehicle 1.  Vehicle 0 passes the check, the search
    below it fails, and after the undo the routes table still has
    customer 1 on vehicle 0, although no assignment is left: the snapshot
    is taken after the append.  Candidate 1, which passes the check in the
    routes table as it was before the commitment, is then rejected by the
    uniqueness check, and the whole search fails the same way. *)
Theorem failed_candidate_not_undone :
  let self := reset (built three_heavy 15 2) 2 in
  let after := final_state (try_values (_backtrack 3) 1 self [0]) self in
  let ending := final_state (backtracking_search self) self in
  init three_heavy 15 2 = Ok (built three_heavy 15 2)
  ∧ _select_unassigned_variable self = Ok 1
  ∧ ordered_values self 1 = Ok [0; 1]
  ∧ routes self = {[0 := []; 1 := []]}
  ∧ try_values (_backtrack 3) 1 self [0] = Ok (None, after)
  ∧ assignments after = ∅
  ∧ routes after = {[0 := [1]; 1 := []]}
  ∧ consistent_at self 1 1 = Ok true
  ∧ consistent_at after 1 1 = Ok false
  ∧ backtracking_search self = Ok (None, ending)
  ∧ routes ending = {[0 := [1]; 1 := []]}.
Proof. vm_compute. repeat split; reflexivity. Qed.

(** What the missing undo costs: customers 1 and 4 fit one vehicle and
    customers 2 and 3 the other, but once the branch that puts customers 1
    and 2 together has failed, no other branch is explored. *)
Example failed_branch_hides_solution :
  let self := reset (built four_mixed 10 2) 2 in
  solution_ok self {[0 := [1; 4]; 1 := [2; 3]]}
  ∧ backtracking_search self = Ok (None, final_state (backtracking_search self) self)
  ∧ fst <$> solve (built four_mixed 10 2) = Ok None.
Proof.
  split; [solution_ok_by_evaluation|]. split; vm_compute; reflexivity.
Qed.

(** C2, witness: the search on the two customers of demand 10 with one
    vehicle of capacity 100. *)
Lemma backtracking_search_sound_witness :
  let self := reset (built two_customers 100 1) 1 in
  backtracking_search self = Ok (Some {[0 := [1; 2]]}, final_state (backtracking_search self) self)
  ∧ solution_ok self {[0 := [1; 2]]}.
Proof.
  assert (Hrun : backtracking_search (reset (built two_customers 100 1) 1)
                 = Ok (Some {[0 := [1; 2]]},
                       final_state (backtracking_search (reset (built two_customers 100 1) 1))
                                   (reset (built two_customers 100 1) 1)))
    by (vm_compute; reflexivity).
  split; [exact Hrun|].
  refine (proj1 (proj2 (backtracking_search_sound (reset (built two_customers 100 1) 1) _)
                       _ _ Hrun)).
  apply (fresh_consistent _ 1); [simpl; lia|apply reset_fresh|reflexivity].
Defined.

(** C3, witness: capacity 15 forces the two customers onto two vehicles. *)
Lemma solve_solution_ok_witness :
  let self := built two_customers 15 2 in
  solve self = Ok (Some {[0 := [1]; 1 := [2]]}, final_state (solve self) self)
  ∧ solution_ok self {[0 := [1]; 1 := [2]]}.
Proof.
  assert (Hrun : solve (built two_customers 15 2)
                 = Ok (Some {[0 := [1]; 1 := [2]]},
                       final_state (solve (built two_customers 15 2))
                                   (built two_customers 15 2)))
    by (vm_compute; reflexivity).
  split; [exact Hrun|].
  assert (Hcap : (0 <= vehicle_capacity (built two_customers 15 2))%Z) by (simpl; lia).
  exact (proj1 (solve_solution_ok (built two_customers 15 2) _ _ Hcap Hrun)).
Defined.

(** C4 on the same instance: the attempt with one vehicle fails, the
    attempt with two succeeds. *)
Example two_attempts_example :
  let self := built two_customers 15 2 in
  attempt self 1 = Ok None
  ∧ attempt self 2 = Ok (Some {[0 := [1]; 1 := [2]]})
  ∧ fst <$> solve self = Ok (Some {[0 := [1]; 1 := [2]]}).
Proof. vm_compute. repeat split; reflexivity. Qed.

(** C5, witness: after customer 1 of [two_customers] is put on vehicle 0
    under capacity 15, forward checking leaves vehicle 1 to customer 2. *)
Lemma forward_checking_outcome_witness :
  let start := reset (built two_customers 15 2) 2 in
  let self := set_routes (set_assignments start {[1 := 0]}) {[0 := [1]; 1 := []]} in
  let self' := set_domains self {[1 := [0; 1]; 2 := [1]]} in
  _forward_checking self 1 0 = Ok (true, self')
  ∧ same_but_domains self self'
  ∧ domains self' !! 2 = Some (feasible_values self 2 [0; 1]).
Proof.
  set (start := reset (built two_customers 15 2) 2).
  set (self := set_routes (set_assignments start {[1 := 0]}) {[0 := [1]; 1 := []]}).
  set (self' := set_domains self {[1 := [0; 1]; 2 := [1]]}).
  assert (Hrun : _forward_checking self 1 0 = Ok (true, self')) by (vm_compute; reflexivity).
  destruct (forward_checking_outcome self self' 1 0 true Hrun) as (Hsame & Htrue & _).
  split; [exact Hrun|]. split; [exact Hsame|].
  destruct (proj1 (Htrue eq_refl) 2) as (d & Hd & _ & Hd').
  - apply (bool_decide_unpack _). vm_compute. exact I.
  - vm_compute. reflexivity.
  - assert (Hd0 : domains self !! 2 = Some [0; 1]) by (vm_compute; reflexivity).
    rewrite Hd0 in Hd. inversion Hd; subst d. exact Hd'.
Defined.

(** C7, counterexample: one customer besides the depot, whose demand of
    20 exceeds the capacity of 10: there is no arc, and the pass returns
    true. *)
Lemma arc_consistency_single_customer :
  let self := reset (built one_heavy 10 1) 1 in
  init one_heavy 10 1 = Ok (built one_heavy 10 1)
  ∧ fresh_state self 1
  ∧ variables self = [1]
  ∧ alone_feasible self 1 = Ok false
  ∧ _arc_consistency self = Ok (true, self).
Proof.
  split; [vm_compute; reflexivity|].
  split; [apply reset_fresh|]. vm_compute. repeat split; reflexivity.
Qed.

(** C7, witness: among the three customers of [three_heavy] under
    capacity 5 none can be served alone, and the pass returns false. *)
Lemma arc_consistency_fresh_witness :
  let self := reset (built three_heavy 5 2) 2 in
  ∃ b self', _arc_consistency self = Ok (b, self') ∧ (b = true → self' = self).
Proof.
  destruct (arc_consistency_fresh (reset (built three_heavy 5 2) 2) 2) as (b & self' & H & _ & Ht & _).
  - lia.
  - apply reset_fresh.
  - intros x Hx. exists false.
    assert (Hv : variables (reset (built three_heavy 5 2) 2) = [1; 2; 3]) by (vm_compute; reflexivity).
    rewrite Hv in Hx.
    repeat (apply elem_of_cons in Hx as [->|Hx]; [vm_compute; reflexivity|]).
    by apply elem_of_nil in Hx.
  - exists b, self'. split; [exact H|exact Ht].
Defined.

(** C8, witness: the three candidate vehicles of customer 1 at the root of
    the search for [two_customers] and a cap of three vehicles. *)
Lemma candidate_values_lcv_order_witness :
  let self := reset (built two_customers 100 3) 3 in
  _select_unassigned_variable self = Ok 1
  ∧ ordered_values self 1 = Ok [0; 1; 2]
  ∧ StronglySorted (lcv_before self 1) [0; 1; 2].
Proof.
  assert (Hsel : _select_unassigned_variable (reset (built two_customers 100 3) 3) = Ok 1)
    by (vm_compute; reflexivity).
  assert (Hrun : ordered_values (reset (built two_customers 100 3) 3) 1 = Ok [0; 1; 2])
    by (vm_compute; reflexivity).
  split; [exact Hsel|]. split; [exact Hrun|].
  destruct (candidate_values_lcv_order _ 1 [0; 1; 2]
              (reset_domains_ascending (built two_customers 100 3) 3) Hsel Hrun)
    as (d & _ & _ & Hsorted).
  exact Hsorted.
Defined.

(** C9, counterexample: a coordinate can also be an infinity (it is read
    with [float], and the constructor checks nothing).  For a location
    infinitely far east the matrix is built, and the distance of the
    location to itself, the entry [matrix[0][0]], is a NaN, which is equal
    neither to [0] nor to itself: the diagonal is not zero and the matrix
    is not symmetric. *)
Example infinite_coordinate_gives_nan :
  _create_distance_matrix far_east = Ok [[S754_nan]]
  ∧ py_eq (PFloat S754_nan) (PInt 0) = false
  ∧ py_eq (PFloat S754_nan) (PFloat S754_nan) = false.
Proof. vm_compute. repeat split; reflexivity. Qed.

(** C9, witness: the matrix of [two_customers]. *)
Lemma distance_matrix_symmetric_witness :
  ∃ m dij dji dii,
    _create_distance_matrix two_customers = Ok m
    ∧ entry m 1 2 = Some dij ∧ entry m 2 1 = Some dji ∧ entry m 1 1 = Some dii
    ∧ py_eq (PFloat dij) (PFloat dji) = true
    ∧ py_eq (PFloat dii) (PInt 0) = true.
Proof.
  exists (distance_matrix (built two_customers 100 1)).
  assert (Hrun : _create_distance_matrix two_customers
                 = Ok (distance_matrix (built two_customers 100 1)))
    by (vm_compute; reflexivity).
  destruct (distance_matrix_symmetric two_customers
              (distance_matrix (built two_customers 100 1)) 1 2)
    as (dij & dji & dii & H).
  - repeat constructor.
  - exact Hrun.
  - simpl. lia.
  - simpl. lia.
  - exists dij, dji, dii. split; [exact Hrun|exact H].
Defined.

(** C10, witness: the depot of the examples alone, capacity 10, three
    vehicles. *)
Lemma depot_only_solution_witness :
  ∃ self self',
    init [the_depot] 10 3 = Ok self
    ∧ solve self = Ok (Some {[0 := []]}, self')
    ∧ format_solution self' = Ok (""%string, 0, PInt 0).
Proof.
  destruct (depot_only_solution the_depot 10 3) as (self & self' & Hi & Hs & _ & _ & _ & Hf).
  - lia.
  - exists self, self'. split; [exact Hi|]. split; [exact Hs|exact Hf].
Defined.

(** * Further properties of the solver *)

(** ** Variable selection (minimum remaining values) *)

(** [min] with a key: the result splits the list into the items before
    it, whose keys are all larger, and the items after it, whose keys are
    not smaller. *)
Lemma argmin_first_split (l : list (nat * nat)) :
  ∀ best best_key,
    ∃ pre post k,
      (best, best_key) :: l = pre ++ (argmin_first best best_key l, k) :: post
      ∧ Forall (λ p, k < p.2) pre ∧ Forall (λ p, k ≤ p.2) post.
Proof.
  induction l as [|[a ka] l IH]; intros best bk.
  - exists [], [], bk. simpl. repeat split; constructor.
  - cbn [argmin_first]. destruct (decide (ka < bk)) as [Hlt|Hge].
    + destruct (IH a ka) as (pre & post & k & Heq & Hpre & Hpost).
      exists ((best, bk) :: pre), post, k. split; [by rewrite Heq|]. split; [|done].
      constructor; [|done]. simpl.
      assert (Hk : k ≤ ka).
      { destruct pre as [|p pre]; simpl in Heq; inversion Heq; subst; [lia|].
        apply Forall_cons in Hpre as [Hp _]. simpl in Hp. lia. }
      lia.
    + destruct (IH best bk) as (pre & post & k & Heq & Hpre & Hpost).
      destruct pre as [|p pre]; simpl in Heq.
      * injection Heq as Hb Hk Hl. exists [], ((a, ka) :: post), k. simpl.
        split; [by rewrite <- Hb, <- Hk, Hl|].
        split; [constructor|]. constructor; [simpl; lia|done].
      * injection Heq as Hp' Hl. subst p.
        exists ((best, bk) :: (a, ka) :: pre), post, k.
        split; [simpl; do 2 f_equal; exact Hl|]. split; [|done].
        apply Forall_cons in Hpre as [Hp Hpre]. simpl in Hp.
        constructor; [done|]. constructor; [simpl; lia|done].
Qed.

(** The (variable, domain size) pairs that the selection builds. *)
Lemma select_keyed (self : CSP_VRPTW) (l : list nat) (keyed : list (nat * nat)) :
  map_o (λ var, d ← dict_get (domains self) var; Ok (var, length d)) l = Ok keyed →
  keyed.*1 = l
  ∧ ∀ p, p ∈ keyed → ∃ d, domains self !! p.1 = Some d ∧ p.2 = length d.
Proof.
  revert keyed. induction l as [|v l IH]; intros keyed Hk; simpl in Hk.
  - inversion Hk. split; [done|]. intros p Hp. by apply elem_of_nil in Hp.
  - bind_inv Hk as p Hp. bind_inv Hk as r Hr. inversion Hk; subst keyed.
    bind_inv Hp as d Hd. inversion Hp; subst p.
    destruct (IH r Hr) as [Hfst Hkeys]. split; [rewrite fmap_cons; by rewrite Hfst|].
    intros q Hq. apply elem_of_cons in Hq as [->|Hq]; [|by apply Hkeys].
    exists d. split; [|done]. simpl. unfold dict_get in Hd.
    by destruct (domains self !! v); inversion Hd.
Qed.

Lemma unassigned_sorted (self : CSP_VRPTW) : StronglySorted lt (unassigned self).
Proof. apply StronglySorted_filter_lt, StronglySorted_seq. Qed.

Lemma StronglySorted_middle (pre post : list nat) (x : nat) :
  StronglySorted lt (pre ++ x :: post) →
  Forall (λ y, y < x) pre ∧ Forall (λ y, x < y) post.
Proof.
  induction pre as [|a pre IH]; simpl; intros H.
  - apply StronglySorted_inv in H as [_ H]. split; [constructor|done].
  - apply StronglySorted_inv in H as [Hs Ha]. destruct (IH Hs) as [Hpre Hpost].
    split; [|done]. constructor; [|done].
    rewrite Forall_app, Forall_cons in Ha. tauto.
Qed.

(** X1: the selected variable is an unassigned variable with a domain of
    the least size among the unassigned variables, and of those with a
    domain of that size it is the one with the smallest index. *)
Theorem select_minimum_remaining_values (self : CSP_VRPTW) (x : nat) :
  _select_unassigned_variable self = Ok x →
  x ∈ variables self ∧ assignments self !! x = None
  ∧ ∃ d, domains self !! x = Some d
         ∧ ∀ y dy, y ∈ variables self → assignments self !! y = None →
                   domains self !! y = Some dy →
                   length d ≤ length dy ∧ (length dy = length d → x ≤ y).
Proof.
  unfold _select_unassigned_variable. intros H. bind_inv H as keyed Hk.
  apply select_keyed in Hk as [Hfst Hkeys].
  destruct keyed as [|[v k] rest]; [done|]. inversion H; subst x; clear H.
  destruct (argmin_first_split rest v k) as (pre & post & kx & Heq & Hpre & Hpost).
  set (x := argmin_first v k rest) in *.
  assert (Hun : unassigned self = pre.*1 ++ x :: post.*1).
  { rewrite <- Hfst, Heq, fmap_app, fmap_cons. done. }
  assert (Hx : x ∈ unassigned self).
  { rewrite Hun. apply elem_of_app. right. by left. }
  apply list_elem_of_filter in Hx as [Hxa Hxv].
  split; [done|]. split; [done|].
  destruct (Hkeys (x, kx)) as (d & Hd & Hlen).
  { rewrite Heq. apply elem_of_app. right. by left. }
  simpl in Hd, Hlen. subst kx. exists d. split; [done|].
  intros y dy Hy Hya Hdy.
  assert (Hyin : y ∈ unassigned self) by (by apply list_elem_of_filter).
  pose proof (unassigned_sorted self) as Hsorted. rewrite Hun in Hsorted.
  apply StronglySorted_middle in Hsorted as [Hbefore Hafter].
  rewrite Hun in Hyin. apply elem_of_app in Hyin as [Hyin|Hyin].
  - apply list_elem_of_fmap in Hyin as ([y' ky] & -> & Hp).
    destruct (Hkeys (y', ky)) as (d' & Hd' & Hlen').
    { rewrite Heq. apply elem_of_app. by left. }
    simpl in *. rewrite Hdy in Hd'. inversion Hd'; subst d'.
    rewrite Forall_forall in Hpre. specialize (Hpre _ Hp). simpl in Hpre. lia.
  - apply elem_of_cons in Hyin as [->|Hyin].
    + rewrite Hd in Hdy. inversion Hdy; subst. lia.
    + rewrite Forall_forall in Hafter. specialize (Hafter _ Hyin).
      apply list_elem_of_fmap in Hyin as ([y' ky] & -> & Hp).
      destruct (Hkeys (y', ky)) as (d' & Hd' & Hlen').
      { rewrite Heq. apply elem_of_app. right. by right. }
      simpl in *. rewrite Hdy in Hd'. inversion Hd'; subst d'.
      rewrite Forall_forall in Hpost. specialize (Hpost _ Hp). simpl in Hpost. lia.
Qed.

(** Reading the domain sizes fails with [KeyError] only. *)
Lemma select_keyed_raise (self : CSP_VRPTW) (l : list nat) (e : exn) :
  map_o (λ var, d ← dict_get (domains self) var; Ok (var, length d)) l = Raise e →
  e = KeyError.
Proof.
  induction l as [|v l IH]; simpl; [done|]. unfold dict_get.
  destruct (domains self !! v); [|simpl; congruence]. simpl.
  destruct (map_o _ l); simpl; done.
Qed.

(** X2: the selection raises [ValueError] (the [min] of an empty list)
    exactly when no variable is left without an assignment. *)
Theorem select_value_error (self : CSP_VRPTW) :
  _select_unassigned_variable self = Raise ValueError
  ↔ ∀ x, x ∈ variables self → is_Some (assignments self !! x).
Proof.
  unfold _select_unassigned_variable. split.
  - intros H x Hx. destruct (assignments self !! x) eqn:Hax; [eauto|]. exfalso.
    assert (Hin : x ∈ unassigned self) by (by apply list_elem_of_filter).
    destruct (unassigned self) as [|v l]; [by apply elem_of_nil in Hin|].
    destruct (map_o _ (v :: l)) as [keyed| |] eqn:Hk; simpl in H.
    + apply select_keyed in Hk as [Hfst _]. by destruct keyed as [|[??] ?].
    + apply select_keyed_raise in Hk. congruence.
    + done.
  - intros H. assert (Hnil : unassigned self = []).
    { destruct (unassigned self) as [|x l] eqn:E; [done|]. exfalso.
      assert (Hin : x ∈ unassigned self) by (rewrite E; by left).
      apply list_elem_of_filter in Hin as [Hnone Hx].
      destruct (H x Hx) as [? Hsome]. congruence. }
    by rewrite Hnil.
Qed.

(** ** The revise step and the arc-consistency pass in any state *)

Lemma terminates_revise_loop (x y : nat) (values : list nat) :
  ∀ self revised, terminates (revise_loop self x y values revised).
Proof.
  induction values as [|value rest IH]; intros self revised; [done|].
  cbn [revise_loop]. apply terminates_bind; [auto with terminates|]. intros dy _.
  apply terminates_bind; [apply terminates_any_o, terminates_consistent_at|].
  intros [|] _; [apply IH|].
  apply terminates_bind; [auto with terminates|]. intros dx _.
  apply terminates_bind; [apply terminates_list_remove|]. intros dx' _. apply IH.
Qed.

Lemma terminates_revise (self : CSP_VRPTW) (x y : nat) : terminates (_revise self x y).
Proof.
  unfold _revise. apply terminates_bind; [auto with terminates|]. intros dx _.
  apply terminates_revise_loop.
Qed.

(** The test of the revise step does not mention the value under
    revision: the step removes no value, or all of them. *)
Lemma revise_outcome (self : CSP_VRPTW) (x y : nat) (revised : bool) (self' : CSP_VRPTW) :
  x ≠ y →
  _revise self x y = Ok (revised, self') →
  (revised = false ∧ self' = self)
  ∨ (revised = true
     ∧ self' = set_domains self (<[x := []]> (domains self))
     ∧ ∃ dx dy, domains self !! x = Some dx ∧ dx ≠ [] ∧ domains self !! y = Some dy
                ∧ any_o (consistent_at self x) dy = Ok false).
Proof.
  intros Hxy H. unfold _revise in H. bind_inv H as dx Hdx.
  unfold dict_get in Hdx. destruct (domains self !! x) as [dx0|] eqn:Hx; [|done].
  inversion Hdx; subst dx0; clear Hdx.
  destruct dx as [|value rest]; [inversion H; by left|].
  destruct (domains self !! y) as [dy|] eqn:Hy;
    [|cbn [revise_loop] in H; unfold dict_get in H; by rewrite Hy in H].
  destruct (any_o (consistent_at self x) dy) as [[|]| |] eqn:Hany.
  - rewrite (revise_loop_supported self x y dy) in H by done. inversion H. by left.
  - rewrite <- (set_domains_id self) in H at 1.
    rewrite (revise_loop_unsupported self x y dy) in H by done.
    inversion H; subst. right. split; [done|]. split; [done|].
    exists (value :: rest), dy. done.
  - rewrite (revise_loop_raise self x y dy e) in H; done.
  - cbn [revise_loop] in H. unfold dict_get in H. rewrite Hy in H. simpl in H.
    by rewrite Hany in H.
Qed.

(** X3: on an arc between two different variables the revise step is all or
    nothing.  Either it reports no change and leaves the solver object as
    it was, or it reports a change and has emptied the whole domain of
    [x]; the latter happens exactly when that domain was not empty and no
    vehicle of the domain of [y] can take [x] on its current route. *)
Theorem revise_all_or_nothing (self : CSP_VRPTW) (x y : nat) (revised : bool)
    (self' : CSP_VRPTW) :
  x ≠ y →
  _revise self x y = Ok (revised, self') →
  (revised = false ∧ self' = self)
  ∨ (revised = true
     ∧ self' = set_domains self (<[x := []]> (domains self))
     ∧ ∃ dx dy, domains self !! x = Some dx ∧ dx ≠ [] ∧ domains self !! y = Some dy
                ∧ any_o (consistent_at self x) dy = Ok false).
Proof. apply revise_outcome. Qed.

(** The worklist loop: a revise step that changes something empties a
    domain, so the loop stops there and never appends an arc. *)
Lemma ac_loop_outcome (self : CSP_VRPTW) :
  ∀ queue fuel,
    length queue < fuel →
    Forall (λ arc : nat * nat, arc.1 ≠ arc.2) queue →
    terminates (ac_loop fuel self queue)
    ∧ ∀ consistent self',
        ac_loop fuel self queue = Ok (consistent, self') →
        (consistent = true ∧ self' = self)
        ∨ (consistent = false
           ∧ ∃ x y dy, (x, y) ∈ queue
                       ∧ self' = set_domains self (<[x := []]> (domains self))
                       ∧ domains self !! y = Some dy
                       ∧ any_o (consistent_at self x) dy = Ok false).
Proof.
  induction queue as [|[x y] queue IH]; intros fuel Hfuel Harcs.
  - destruct fuel; [simpl in Hfuel; lia|]. simpl. split; [done|].
    intros consistent self' H. inversion H. by left.
  - destruct fuel as [|fuel]; [simpl in Hfuel; lia|]. simpl in Hfuel.
    apply Forall_cons in Harcs as [Hxy Harcs]. simpl in Hxy.
    destruct (IH fuel ltac:(lia) Harcs) as [IHt IHr].
    cbn [ac_loop]. destruct (_revise self x y) as [[revised s1]| |] eqn:Hrev.
    + apply (revise_outcome _ _ _ _ _ Hxy) in Hrev
        as [[-> ->]|(-> & -> & dx & dy & Hdx & Hne & Hdy & Hany)]; simpl.
      * split; [done|]. intros consistent self' H.
        destruct (IHr _ _ H) as [?|(-> & x' & y' & dy' & Hin & ?)]; [by left|].
        right. split; [done|]. exists x', y', dy'. split; [by right|done].
      * unfold dict_get. simpl. rewrite lookup_insert_eq. simpl. split; [done|].
        intros consistent self' H. inversion H; subst. right. split; [done|].
        exists x, y, dy. split; [by left|done].
    + simpl. split; [done|]. intros ? ? H. done.
    + exfalso. by apply (terminates_revise self x y).
Qed.

(** X4: the arc-consistency pass in any state.  It ends within its fuel;
    when it returns, it either reports consistency and has changed
    nothing, or it reports an inconsistency and has emptied the domain of
    one variable [x], for which no vehicle of the domain of another
    variable [y] can take [x] on its current route.  No other domain is
    ever pruned. *)
Theorem arc_consistency_outcome (self : CSP_VRPTW) :
  terminates (_arc_consistency self)
  ∧ ∀ consistent self',
      _arc_consistency self = Ok (consistent, self') →
      (consistent = true ∧ self' = self)
      ∨ (consistent = false
         ∧ ∃ x y dy, x ∈ variables self ∧ y ∈ variables self ∧ x ≠ y
                     ∧ self' = set_domains self (<[x := []]> (domains self))
                     ∧ domains self !! y = Some dy
                     ∧ any_o (consistent_at self x) dy = Ok false).
Proof.
  unfold _arc_consistency.
  destruct (ac_loop_outcome self (arcs (variables self)) (ac_fuel self)) as [Ht Hr].
  - unfold ac_fuel. lia.
  - eapply Forall_impl; [apply arcs_wf|]. by intros arc (_ & _ & ?).
  - split; [done|]. intros consistent self' H.
    destruct (Hr _ _ H) as [?|(-> & x & y & dy & Hin & ?)]; [by left|].
    right. split; [done|]. exists x, y, dy. apply arcs_spec in Hin. tauto.
Qed.

(** ** What a search leaves behind *)

Lemma try_values_all_assigned (recurse : CSP_VRPTW → outcome (option routes_t * CSP_VRPTW))
    (variable : nat) :
  (∀ s r s', recurse s = Ok (Some r, s') → size (assignments s') = length (variables s')) →
  ∀ values self r self',
    try_values recurse variable self values = Ok (Some r, self') →
    size (assignments self') = length (variables self').
Proof.
  intros Hrec. induction values as [|value rest IH]; intros self r self' H; [done|].
  cbn [try_values] in H. bind_inv H as ok Hok. destruct ok; [|by eapply IH].
  bind_inv H as r0 Hr0. bind_inv H as fc Hfc. destruct fc as [checked self2].
  bind_inv H as rr Hrr. destruct rr as [[res|] self3].
  - inversion H; subst. destruct checked; [by eapply Hrec|done].
  - bind_inv H as old Hold. by eapply IH.
Qed.

Lemma backtrack_all_assigned (fuel : nat) :
  ∀ self r self',
    _backtrack fuel self = Ok (Some r, self') →
    size (assignments self') = length (variables self').
Proof.
  induction fuel as [|fuel IH]; intros self r self' H; [done|].
  cbn [_backtrack] in H.
  destruct (decide (size (assignments self) = length (variables self))).
  - by inversion H; subst.
  - bind_inv H as variable Hv. bind_inv H as values Hvals.
    by eapply (try_values_all_assigned _ variable IH).
Qed.

(** X5: what a call of the search leaves behind.  The problem data and the
    set of vehicles of the routes table are never touched.  A failed
    search hands back the assignment it was entered with; a successful one
    ends with every variable assigned and returns the routes table of the
    solver object itself. *)
Theorem backtracking_search_frame (self : CSP_VRPTW) (result : option routes_t)
    (self' : CSP_VRPTW) :
  backtracking_search self = Ok (result, self') →
  same_problem self self'
  ∧ dom (routes self') = dom (routes self)
  ∧ match result with
    | None => assignments self' = assignments self
    | Some r => r = routes self' ∧ size (assignments self') = length (variables self)
    end.
Proof.
  intros H. unfold backtracking_search in H.
  pose proof (backtrack_frame _ _ _ _ H) as (Hp & Hd & Hres).
  split; [done|]. split; [done|]. destruct result as [r|]; [|done].
  split; [done|]. rewrite (same_problem_variables _ _ Hp).
  by eapply backtrack_all_assigned.
Qed.

(** ** Domains only shrink *)

Lemma domains_shrunk_refl (s1 s2 : CSP_VRPTW) :
  domains s2 = domains s1 → domains_shrunk s1 s2.
Proof. intros Hd n d Hn. exists d. by rewrite Hd. Qed.

Lemma domains_shrunk_trans (s1 s2 s3 : CSP_VRPTW) :
  domains_shrunk s1 s2 → domains_shrunk s2 s3 → domains_shrunk s1 s3.
Proof.
  intros H12 H23 n d Hn. destruct (H12 n d Hn) as (d2 & Hd2 & Hsub2).
  destruct (H23 n d2 Hd2) as (d3 & Hd3 & Hsub3). exists d3. split; [done|].
  by etrans.
Qed.

Lemma forward_checking_shrinks (self self' : CSP_VRPTW) (variable value : nat) (b : bool) :
  _forward_checking self variable value = Ok (b, self') → domains_shrunk self self'.
Proof.
  intros H. apply fc_loop_outcome in H as (_ & Hpruned & Hkept & Hfailed).
  destruct b.
  - intros n d Hn.
    destruct (decide (n ∈ variables self ∧ assignments self !! n = None)) as [[Hv Ha]|Hno].
    + destruct (Hpruned eq_refl n Hv Ha) as (d0 & Hd0 & _ & Hd').
      rewrite Hn in Hd0. inversion Hd0; subst d0.
      eexists. split; [exact Hd'|]. apply sublist_filter.
    + exists d. by rewrite (Hkept eq_refl n Hno).
  - destruct (Hfailed eq_refl) as [Hd _]. by apply domains_shrunk_refl.
Qed.

Lemma try_values_shrinks (recurse : CSP_VRPTW → outcome (option routes_t * CSP_VRPTW))
    (variable : nat) :
  (∀ s res s', recurse s = Ok (res, s') → domains_shrunk s s') →
  ∀ values self res self',
    try_values recurse variable self values = Ok (res, self') →
    domains_shrunk self self'.
Proof.
  intros Hrec. induction values as [|value rest IH]; intros self res self' H.
  - simpl in H. inversion H; subst. by apply domains_shrunk_refl.
  - cbn [try_values] in H. bind_inv H as ok Hok. destruct ok; [|by eapply IH].
    bind_inv H as r Hr. bind_inv H as fc Hfc. destruct fc as [checked self2].
    apply forward_checking_shrinks in Hfc.
    bind_inv H as rr Hrr. destruct rr as [result self3].
    assert (H23 : domains_shrunk self2 self3).
    { destruct checked; [by eapply Hrec|]. inversion Hrr; subst.
      by apply domains_shrunk_refl. }
    assert (H03 : domains_shrunk self self3).
    { eapply domains_shrunk_trans; [|exact H23].
      eapply domains_shrunk_trans; [|exact Hfc]. by apply domains_shrunk_refl. }
    destruct result as [res0|].
    + by inversion H; subst.
    + bind_inv H as old Hold. apply IH in H.
      eapply domains_shrunk_trans; [exact H03|].
      eapply domains_shrunk_trans; [|exact H]. by apply domains_shrunk_refl.
Qed.

Lemma backtrack_shrinks (fuel : nat) :
  ∀ self res self', _backtrack fuel self = Ok (res, self') → domains_shrunk self self'.
Proof.
  induction fuel as [|fuel IH]; intros self res self' H; [done|].
  cbn [_backtrack] in H.
  destruct (decide (size (assignments self) = length (variables self))).
  - inversion H; subst. by apply domains_shrunk_refl.
  - bind_inv H as variable Hv. bind_inv H as values Hvals.
    by eapply (try_values_shrinks _ variable IH).
Qed.

(** X6: the search never gives a value back to a domain.  Whether it
    succeeds or fails, every domain it was entered with is still there at
    the end and lists a sub-sequence of the vehicles it listed at the
    start: values dropped below a candidate that failed stay dropped. *)
Theorem search_domains_only_shrink (self : CSP_VRPTW) (result : option routes_t)
    (self' : CSP_VRPTW) :
  backtracking_search self = Ok (result, self') →
  ∀ n d, domains self !! n = Some d →
         ∃ d', domains self' !! n = Some d' ∧ d' `sublist_of` d.
Proof. intros H. by eapply backtrack_shrinks. Qed.

(** ** A node tries one feasible candidate at most *)

Lemma try_values_cons (recurse : CSP_VRPTW → outcome (option routes_t * CSP_VRPTW))
    (variable value : nat) (rest : list nat) (self : CSP_VRPTW) :
  try_values recurse variable self (value :: rest)
  = '(result, s) ← try_values recurse variable self [value];
    match result with
    | Some _ => Ok (result, s)
    | None => try_values recurse variable s rest
    end.
Proof.
  cbn [try_values].
  destruct (consistent_at self variable value) as [[|]| |]; simpl; try done.
  destruct (dict_get (routes self) value) as [r| |]; simpl; try done.
  destruct (_forward_checking _ variable value) as [[checked s2]| |]; simpl; try done.
  destruct (if checked then recurse s2 else Ok (None, s2)) as [[[res|] s3]| |];
    simpl; try done.
  destruct (dict_get (assignments s3) variable); simpl; done.
Qed.

(** Once the variable is in a route, every candidate is turned down. *)
Lemma try_values_routed (recurse : CSP_VRPTW → outcome (option routes_t * CSP_VRPTW))
    (variable : nat) (self : CSP_VRPTW) (values : list nat) :
  variable ∈ routed_customers self →
  (∀ v, v ∈ values → is_Some (routes self !! v)) →
  try_values recurse variable self values = Ok (None, self).
Proof.
  intros Hin. induction values as [|value rest IH]; intros Hkeys; [done|].
  cbn [try_values]. unfold consistent_at, dict_get.
  destruct (Hkeys value) as [r Hr]; [by left|]. rewrite Hr. simpl.
  unfold is_consistent. rewrite bool_decide_eq_true_2 by done. simpl.
  apply IH. intros v Hv. apply Hkeys. by right.
Qed.

(** X7: a search node explores one feasible candidate at most.  When a
    candidate passes the check and the search below it fails, the variable
    stays in the route it was appended to, so each of the remaining
    candidates is turned down by the uniqueness check and the node
    reports failure, in the state the failed candidate left. *)
Theorem failed_candidate_ends_node
    (recurse : CSP_VRPTW → outcome (option routes_t * CSP_VRPTW))
    (variable value : nat) (rest : list nat) (self self' : CSP_VRPTW) :
  consistent_at self variable value = Ok true →
  try_values recurse variable self [value] = Ok (None, self') →
  (∀ v, v ∈ rest → is_Some (routes self !! v)) →
  try_values recurse variable self (value :: rest) = Ok (None, self').
Proof.
  intros Hok H Hkeys. rewrite try_values_cons, H. simpl.
  apply failed_candidate_stays_routed in H as (_ & Hin & route & Hr & Hr'); [|done].
  apply try_values_routed; [done|]. intros v Hv. rewrite Hr'.
  destruct (decide (v = value)) as [->|Hne].
  - rewrite lookup_insert_eq. eauto.
  - rewrite lookup_insert_ne by done. by apply Hkeys.
Qed.

(** ** The time-window validator on prefixes of a route *)

Lemma validate_as_simulation (self : CSP_VRPTW) (route : list nat) :
  _validate_time_windows self route = tw_simulation self depot (PInt 0) route.
Proof. exact (validate_loop_simulation self route [] (PInt 0)). Qed.

(** A simulation that does not pass on a route ends the same way on
    every extension of the route. *)
Lemma tw_simulation_stuck (self : CSP_VRPTW) (extra route : list nat) :
  ∀ previous_stop clock,
    tw_simulation self previous_stop clock route ≠ Ok true →
    tw_simulation self previous_stop clock (route ++ extra)
    = tw_simulation self previous_stop clock route.
Proof.
  induction route as [|cust rest IH]; intros prev clock Hne; [done|].
  rewrite <- app_comm_cons. cbn [tw_simulation] in Hne |- *.
  destruct (dist self prev cust) as [travel| |]; cbn [mbind outcome_bind] in *; [|done|done].
  destruct (py_add clock (PFloat travel)) as [arrival| |];
    cbn [mbind outcome_bind] in *; [|done|done].
  destruct (customer_at self cust) as [c| |]; cbn [mbind outcome_bind] in *; [|done|done].
  destruct (py_gt _ _); [done|].
  destruct (py_add _ (PInt (service_time c))) as [departure| |];
    cbn [mbind outcome_bind] in *; [|done|done].
  by apply IH.
Qed.

(** X8: the validator reads a route from left to right and never looks
    back.  A route that passes has only prefixes that pass; and when a
    route does not pass (it is rejected, or the check raises), appending
    customers to it changes nothing: the outcome is the same. *)
Theorem validate_time_windows_prefix (self : CSP_VRPTW) (route extra : list nat) :
  (_validate_time_windows self (route ++ extra) = Ok true →
   _validate_time_windows self route = Ok true)
  ∧ (_validate_time_windows self route ≠ Ok true →
     _validate_time_windows self (route ++ extra) = _validate_time_windows self route).
Proof.
  rewrite !validate_as_simulation.
  assert (Hstuck := tw_simulation_stuck self extra route depot (PInt 0)).
  split; [|done]. intros H.
  destruct (decide (tw_simulation self depot (PInt 0) route = Ok true)) as [|Hne]; [done|].
  rewrite (Hstuck Hne) in H. done.
Qed.

(** ** What the feasibility check accepts *)

(** X9: the feasibility check accepts the customer for a route exactly
    when the customer is in no route of the table yet and the route with
    the customer appended is within capacity and passes the time-window
    validator. *)
Theorem is_consistent_accepts_iff (self : CSP_VRPTW) (variable value : nat) (route : list nat) :
  is_consistent self variable value route = Ok true
  ↔ (variable ∉ routed_customers self) ∧ route_ok self (route ++ [variable]).
Proof.
  split; [apply is_consistent_true|].
  intros (Hfresh & (ds' & Hds' & Hcap) & Htw). unfold is_consistent.
  rewrite bool_decide_eq_false_2 by done.
  apply map_o_app in Hds' as (ds & dv & Hds & Hdv & ->). rewrite Hds.
  simpl in Hdv. bind_inv Hdv as d Hd. rewrite Hd. inversion Hdv; subst dv.
  cbn [mbind outcome_bind]. rewrite sum_Z_app in Hcap. simpl in Hcap.
  destruct (_ >? _)%Z eqn:Hgt; [|done]. apply Z.gtb_lt in Hgt. lia.
Qed.

(** ** The shape of the distance matrix *)

Lemma map_o_length {A B} (f : A → outcome B) (l : list A) (r : list B) :
  map_o f l = Ok r → length r = length l.
Proof. intros H. apply map_o_Ok_Forall2, Forall2_length in H. done. Qed.

Lemma create_distance_matrix_shape (custs : list customer) (m : list (list spec_float)) :
  _create_distance_matrix custs = Ok m →
  length m = length custs ∧ Forall (λ row, length row = length custs) m.
Proof.
  unfold _create_distance_matrix. intros H. split.
  - apply map_o_length in H. by rewrite length_fmap in H.
  - apply map_o_Ok_Forall2 in H. apply Forall_forall. intros row Hrow.
    apply list_elem_of_lookup in Hrow as [i Hi].
    destruct (Forall2_lookup_r _ _ _ _ _ H Hi) as (li & _ & Hli).
    apply map_o_length in Hli. by rewrite length_fmap in Hli.
Qed.

Lemma init_square (custs : list customer) (capacity nv : Z) (self : CSP_VRPTW) :
  init custs capacity nv = Ok self → customers self = custs ∧ square_matrix self.
Proof.
  unfold init. intros H. bind_inv H as dm Hdm. inversion H; subst self; clear H.
  split; [done|]. by apply create_distance_matrix_shape.
Qed.

(** A square matrix answers every pair of customer indices. *)
Lemma dist_returns (self : CSP_VRPTW) (a b : nat) :
  square_matrix self → a < num_customers self → b < num_customers self →
  returns (dist self a b).
Proof.
  intros [Hlen Hrows] Ha Hb. unfold dist, list_get.
  destruct (lookup_lt_is_Some_2 (distance_matrix self) a) as [row Hrow]; [lia|].
  rewrite Hrow. simpl. rewrite Forall_forall in Hrows.
  pose proof (Hrows row (list_elem_of_lookup_2 _ _ _ Hrow)) as Hr.
  destruct (lookup_lt_is_Some_2 row b) as [d Hd]; [lia|]. rewrite Hd. by exists d.
Qed.

(** X10: the matrix that the constructor builds has one row per customer
    record and one column per customer record, so a distance lookup
    returns for every pair of customer indices and raises [IndexError]
    for every other pair. *)
Theorem distance_matrix_square (custs : list customer) (capacity nv : Z) (self : CSP_VRPTW) :
  init custs capacity nv = Ok self →
  length (distance_matrix self) = length custs
  ∧ Forall (λ row, length row = length custs) (distance_matrix self)
  ∧ ∀ a b, if decide (a < length custs ∧ b < length custs)
           then returns (dist self a b)
           else dist self a b = Raise IndexError.
Proof.
  intros H. apply init_square in H as [Hc Hsq]. pose proof Hsq as [Hlen Hrows].
  unfold num_customers in *. rewrite Hc in *. split; [done|]. split; [done|].
  intros a b. destruct (decide _) as [[Ha Hb]|Hno].
  - apply dist_returns; unfold num_customers; by rewrite ?Hc.
  - unfold dist, list_get. destruct (distance_matrix self !! a) as [row|] eqn:Hrow; [|done].
    simpl. rewrite Forall_forall in Hrows.
    pose proof (Hrows row (list_elem_of_lookup_2 _ _ _ Hrow)) as Hr.
    apply lookup_lt_Some in Hrow.
    rewrite (lookup_ge_None_2 row b) by lia. done.
Qed.

(** X11: the matrix is its own mirror image up to the NaNs, whatever the
    coordinates are.  The entry [j][i] is a NaN exactly when the entry
    [i][j] is one (nothing is said of the sign of a NaN, which can differ
    between the two and is not modelled); and when the entry [i][j] is not
    a NaN, the entry [j][i] is the same float, an infinity included. *)
Theorem distance_matrix_mirror (custs : list customer) (m : list (list spec_float))
    (i j : nat) (d : spec_float) :
  _create_distance_matrix custs = Ok m →
  entry m i j = Some d →
  ∃ d', entry m j i = Some d'
        ∧ (d' = S754_nan ↔ d = S754_nan)
        ∧ (d ≠ S754_nan → d' = d).
Proof.
  intros H Hd. destruct (create_distance_matrix_shape _ _ H) as [Hlen Hrows].
  assert (Hij : i < length custs ∧ j < length custs).
  { unfold entry in Hd. destruct (m !! i) as [row|] eqn:Hrow; [|done]. simpl in Hd.
    rewrite Forall_forall in Hrows.
    pose proof (Hrows row (list_elem_of_lookup_2 _ _ _ Hrow)) as Hr.
    apply lookup_lt_Some in Hrow, Hd. lia. }
  destruct Hij as [Hi Hj].
  destruct (lookup_lt_is_Some_2 custs i Hi) as [ci Hci].
  destruct (lookup_lt_is_Some_2 custs j Hj) as [cj Hcj].
  destruct (distance_matrix_entry custs m i j ci cj H Hci Hcj) as (d1 & Hd1 & He1).
  destruct (distance_matrix_entry custs m j i cj ci H Hcj Hci) as (d2 & Hd2 & He2).
  rewrite euclidean_distance_comm, He1 in He2. inversion He2; subst d2.
  rewrite Hd in Hd1. inversion Hd1; subst d1. by exists d.
Qed.

(** ** Forward checking twice *)

Lemma filter_o_all {A} (p : A → outcome bool) (l : list A) :
  (∀ a, a ∈ l → p a = Ok true) → filter_o p l = Ok l.
Proof.
  induction l as [|a l IH]; intros H; [done|]. simpl.
  rewrite H by (by left). simpl. rewrite IH; [done|]. intros b Hb. apply H. by right.
Qed.

(** The loop changes nothing when every domain it looks at is not empty and
    holds feasible values only. *)
Lemma fc_loop_fixed (self : CSP_VRPTW) (original : gmap nat (list nat)) (neighbors : list nat) :
  (∀ n, n ∈ neighbors → assignments self !! n = None →
        ∃ d, domains self !! n = Some d ∧ d ≠ []
             ∧ ∀ v, v ∈ d → consistent_at self n v = Ok true) →
  fc_loop self original neighbors = Ok (true, self).
Proof.
  induction neighbors as [|n rest IH]; intros H; [done|].
  assert (Hrest : fc_loop self original rest = Ok (true, self)).
  { apply IH. intros m Hm. apply H. by right. }
  cbn [fc_loop]. destruct (decide (is_Some (assignments self !! n))) as [|Hno]; [done|].
  destruct (H n) as (d & Hd & Hne & Hall); [by left|by apply eq_None_not_Some|].
  unfold dict_get. rewrite Hd. cbn [mbind outcome_bind].
  rewrite (filter_o_all _ d Hall). cbn [mbind outcome_bind].
  rewrite insert_id by done. rewrite set_domains_id.
  destruct d; [done|exact Hrest].
Qed.

(** X12: forward checking is idempotent.  After a forward check that
    succeeded, a second one (for whatever variable and value it is called)
    succeeds as well and changes nothing. *)
Theorem forward_checking_idempotent (self self' : CSP_VRPTW)
    (variable value variable' value' : nat) :
  _forward_checking self variable value = Ok (true, self') →
  _forward_checking self' variable' value' = Ok (true, self').
Proof.
  intros H. apply fc_loop_outcome in H as (Hsame & Hpruned & _ & _).
  apply same_but_domains_inv in Hsame as (Hp & Ha & Hr).
  unfold _forward_checking. apply fc_loop_fixed. intros n Hn Hnone.
  rewrite <- (same_problem_variables _ _ Hp) in Hn. rewrite Ha in Hnone.
  destruct (Hpruned eq_refl n Hn Hnone) as (d & Hd & Hne & Hd').
  exists (feasible_values self n d). split; [done|]. split; [done|].
  intros v Hv. apply list_elem_of_filter in Hv as [Hv _]. rewrite <- Hv.
  destruct Hp as (Hc & Hcap & _ & Hdm). symmetry. by apply consistent_at_ext.
Qed.

(** ** Running [solve] again *)

Lemma arc_consistency_same_problem (self self' : CSP_VRPTW) (consistent : bool) :
  _arc_consistency self = Ok (consistent, self') → same_problem self self'.
Proof.
  unfold _arc_consistency. intros H.
  destruct (ac_loop_outcome self (arcs (variables self)) (ac_fuel self)) as [_ Hr].
  - unfold ac_fuel. lia.
  - eapply Forall_impl; [apply arcs_wf|]. by intros arc (_ & _ & ?).
  - destruct (Hr _ _ H) as [[_ ->]|(_ & x & y & dy & _ & -> & _)]; by repeat split.
Qed.

Lemma solve_loop_same_problem (limits : list nat) :
  ∀ self result self', solve_loop self limits = Ok (result, self') → same_problem self self'.
Proof.
  induction limits as [|k rest IH]; intros self result self' H.
  - inversion H. apply same_problem_refl.
  - cbn [solve_loop] in H. bind_inv H as ac Hac. destruct ac as [consistent s1].
    apply arc_consistency_same_problem in Hac.
    assert (Hp1 : same_problem self s1).
    { eapply same_problem_trans; [apply (reset_same_problem self k)|exact Hac]. }
    destruct consistent.
    + bind_inv H as bs Hbs. destruct bs as [solution s2].
      apply backtrack_frame in Hbs as (Hp2 & _).
      assert (Hp02 : same_problem self s2) by (by eapply same_problem_trans).
      destruct (truthy solution).
      * by inversion H; subst.
      * eapply same_problem_trans; [exact Hp02|]. by eapply IH.
    + eapply same_problem_trans; [exact Hp1|]. by eapply IH.
Qed.

Lemma first_success_ext (try1 try2 : nat → outcome (option routes_t)) (limits : list nat) :
  (∀ k, try1 k = try2 k) → first_success try1 limits = first_success try2 limits.
Proof.
  intros Hext. induction limits as [|k rest IH]; [done|]. simpl. rewrite Hext.
  apply bind_ext. by intros [r|].
Qed.

Lemma attempt_ext (s1 s2 : CSP_VRPTW) (limit : nat) :
  same_problem s1 s2 → attempt s2 limit = attempt s1 limit.
Proof. intros Hp. unfold attempt. by rewrite (reset_ext s1 s2 limit Hp). Qed.

(** X13: [solve] starts from scratch.  It never touches the problem data,
    and whatever state an earlier run left in the solver object, running
    it again gives the same result. *)
Theorem solve_again (self self' : CSP_VRPTW) (result : option routes_t) :
  solve self = Ok (result, self') →
  same_problem self self' ∧ fst <$> solve self' = Ok result.
Proof.
  intros H. pose proof (solve_loop_same_problem _ _ _ _ H) as Hp. split; [done|].
  rewrite solve_first_success.
  rewrite (first_success_ext _ (attempt self)) by (intros k; by apply attempt_ext).
  unfold vehicle_limits. destruct Hp as (_ & _ & <- & _).
  fold (vehicle_limits self). rewrite <- solve_first_success. by rewrite H.
Qed.

(** X14: a fleet size of zero or less leaves no cap to try: [solve]
    reports that there is no solution and leaves the solver object alone,
    also when there is no customer to serve. *)
Theorem solve_without_vehicles (self : CSP_VRPTW) :
  (num_vehicles self <= 0)%Z → solve self = Ok (None, self).
Proof.
  intros H. unfold solve, vehicle_limits.
  assert (Hz : Z.to_nat (num_vehicles self) = 0) by lia. by rewrite Hz.
Qed.

(** ** No exception on a well-formed problem *)

(** *** The checks *)

Lemma returns_bind {A B} (m : outcome A) (f : A → outcome B) :
  returns m → (∀ a, m = Ok a → returns (f a)) → returns (m ≫= f).
Proof. intros [a ->] H. simpl. by apply H. Qed.

Lemma returns_fmap {A B} (m : outcome A) (f : A → B) : returns m → returns (f <$> m).
Proof. intros [a ->]. by exists (f a). Qed.

Lemma returns_Ok {A} (a : A) : returns (Ok a).
Proof. by exists a. Qed.

Lemma returns_map_o {A B} (f : A → outcome B) (l : list A) :
  (∀ a, a ∈ l → returns (f a)) → returns (map_o f l).
Proof.
  induction l as [|a l IH]; intros H; [apply returns_Ok|]. simpl.
  apply returns_bind; [apply H; by left|]. intros b _.
  apply returns_bind; [apply IH; intros c Hc; apply H; by right|]. intros bs _.
  apply returns_Ok.
Qed.

Lemma returns_filter_o {A} (p : A → outcome bool) (l : list A) :
  (∀ a, a ∈ l → returns (p a)) → returns (filter_o p l).
Proof.
  induction l as [|a l IH]; intros H; [apply returns_Ok|]. simpl.
  apply returns_bind; [apply H; by left|]. intros b _.
  apply returns_bind; [apply IH; intros c Hc; apply H; by right|]. intros bs _.
  apply returns_Ok.
Qed.

Lemma convertible_zero : convertible 0.
Proof. by exists (S754_zero false). Qed.

Lemma variables_range (self : CSP_VRPTW) (x : nat) :
  x ∈ variables self ↔ 1 ≤ x < num_customers self.
Proof. unfold variables. rewrite elem_of_seq. lia. Qed.

Lemma same_problem_ok (s1 s2 : CSP_VRPTW) : same_problem s1 s2 → problem_ok s1 → problem_ok s2.
Proof.
  intros (Hc & _ & _ & Hd) [Hsq Htc]. unfold problem_ok, square_matrix, times_convertible,
    num_customers in *. by rewrite <- Hc, <- Hd.
Qed.

Lemma customer_at_returns (self : CSP_VRPTW) (c : nat) :
  c < num_customers self → ∃ r, customer_at self c = Ok r ∧ r ∈ customers self.
Proof.
  intros Hc. unfold customer_at, list_get.
  destruct (lookup_lt_is_Some_2 (customers self) c Hc) as [r Hr]. rewrite Hr.
  exists r. split; [done|]. by eapply list_elem_of_lookup_2.
Qed.

(** Adding a travel time to a clock gives a float clock. *)
Lemma py_add_travel (clock : pynum) (travel : spec_float) :
  clock_ok clock → ∃ f, py_add clock (PFloat travel) = Ok (PFloat f).
Proof.
  destruct clock as [z|f]; simpl.
  - intros [g ->]. simpl. eauto.
  - eauto.
Qed.

(** Adding the service time after the wait gives a clock that can take
    the next travel time. *)
Lemma py_add_service (self : CSP_VRPTW) (c : customer) (arrival : spec_float) :
  times_convertible self → c ∈ customers self →
  ∃ departure,
    py_add (if py_lt (PFloat arrival) (PInt (ready_time c))
            then PInt (ready_time c) else PFloat arrival)
           (PInt (service_time c)) = Ok departure
    ∧ clock_ok departure.
Proof.
  intros Htc Hc. destruct (Htc c Hc) as [[g Hg] Hsum].
  destruct (py_lt _ _); simpl.
  - eexists. split; [done|]. exact Hsum.
  - rewrite Hg. simpl. eexists. split; [done|]. done.
Qed.

Lemma tw_simulation_returns (self : CSP_VRPTW) :
  problem_ok self →
  ∀ route previous_stop clock,
    previous_stop < num_customers self →
    Forall (λ c, c < num_customers self) route →
    clock_ok clock →
    returns (tw_simulation self previous_stop clock route).
Proof.
  intros [Hsq Htc]. induction route as [|cust rest IH]; intros prev clock Hprev Hroute Hclock;
    [apply returns_Ok|].
  apply Forall_cons in Hroute as [Hcust Hrest]. cbn [tw_simulation].
  destruct (dist_returns self prev cust Hsq Hprev Hcust) as [travel ->].
  cbn [mbind outcome_bind].
  destruct (py_add_travel clock travel Hclock) as [arrival ->]. cbn [mbind outcome_bind].
  destruct (customer_at_returns self cust Hcust) as (c & -> & Hc). cbn [mbind outcome_bind].
  destruct (py_gt _ _); [apply returns_Ok|].
  destruct (py_add_service self c arrival Htc Hc) as (departure & -> & Hdep).
  cbn [mbind outcome_bind]. by apply IH.
Qed.

Lemma validate_returns (self : CSP_VRPTW) (route : list nat) :
  problem_ok self →
  Forall (λ c, c < num_customers self) route →
  returns (_validate_time_windows self route).
Proof.
  intros Hok Hroute. rewrite validate_as_simulation.
  destruct route as [|cust rest]; [apply returns_Ok|].
  apply tw_simulation_returns; [done| |done|apply convertible_zero].
  apply Forall_cons in Hroute as [Hcust _]. unfold depot. lia.
Qed.

Lemma is_consistent_returns (self : CSP_VRPTW) (x v : nat) (route : list nat) :
  problem_ok self →
  x < num_customers self →
  Forall (λ c, c < num_customers self) route →
  returns (is_consistent self x v route).
Proof.
  intros Hok Hx Hroute. unfold is_consistent.
  destruct (bool_decide _); [apply returns_Ok|].
  apply returns_bind.
  { apply returns_map_o. intros c Hc. rewrite Forall_forall in Hroute.
    destruct (customer_at_returns self c (Hroute c Hc)) as (r & -> & _). apply returns_Ok. }
  intros ds _. destruct (customer_at_returns self x Hx) as (r & -> & _). simpl.
  destruct (_ >? _)%Z; [apply returns_Ok|].
  apply validate_returns; [done|]. apply Forall_app. split; [done|].
  by apply Forall_singleton.
Qed.

Lemma consistent_at_returns (self : CSP_VRPTW) (x v : nat) :
  problem_ok self → routes_in_range self →
  x ∈ variables self → is_Some (routes self !! v) →
  returns (consistent_at self x v).
Proof.
  intros Hok Hrange Hx [route Hroute]. unfold consistent_at, dict_get. rewrite Hroute.
  simpl. apply is_consistent_returns; [done|by apply variables_range in Hx; lia|].
  apply Forall_forall. intros c Hc. apply (Hrange v route c Hroute) in Hc.
  apply variables_range in Hc. lia.
Qed.

(** *** Forward checking and the heuristics *)

Lemma set_domains_state_ok (self : CSP_VRPTW) (n : nat) (d d' : list nat) :
  search_state_ok self → domains self !! n = Some d → (∀ v, v ∈ d' → v ∈ d) →
  search_state_ok (set_domains self (<[n := d']> (domains self))).
Proof.
  intros (Hok & Hrange & Hkeyed & Hav) Hd Hsub. split; [done|]. split; [done|].
  split; [|done]. intros x Hx. simpl. destruct (decide (x = n)) as [->|Hne].
  - rewrite lookup_insert_eq. exists d'. split; [done|]. intros v Hv.
    destruct (Hkeyed n Hx) as (d0 & Hd0 & Hkeys). rewrite Hd in Hd0. inversion Hd0; subst d0.
    by apply Hkeys, Hsub.
  - rewrite lookup_insert_ne by done. by apply Hkeyed.
Qed.

Lemma fc_loop_returns (neighbors : list nat) :
  ∀ self original,
    search_state_ok self →
    (∀ x, x ∈ neighbors → x ∈ variables self) →
    returns (fc_loop self original neighbors).
Proof.
  induction neighbors as [|n rest IH]; intros self original Hstate Hvars; [apply returns_Ok|].
  assert (Hrest : ∀ x, x ∈ rest → x ∈ variables self) by (intros x Hx; apply Hvars; by right).
  cbn [fc_loop]. destruct (decide _); [by apply IH|].
  pose proof Hstate as (Hok & Hrange & Hkeyed & Hav).
  destruct (Hkeyed n) as (d & Hd & Hkeys); [apply Hvars; by left|].
  unfold dict_get. rewrite Hd. cbn [mbind outcome_bind].
  destruct (returns_filter_o (consistent_at self n) d) as [d' Hd'].
  { intros v Hv. apply consistent_at_returns; auto. apply Hvars. by left. }
  rewrite Hd'. cbn [mbind outcome_bind]. destruct d' as [|v d']; [apply returns_Ok|].
  apply IH; [|done]. apply (set_domains_state_ok self n d); [done|done|].
  intros u Hu. apply filter_o_Ok in Hd'. rewrite Hd' in Hu.
  by apply list_elem_of_filter in Hu as [_ Hu].
Qed.

(** A state the search can go on from: the routes are those of a good
    state, the domains have only shrunk. *)
Lemma search_state_ok_step (s s' : CSP_VRPTW) :
  search_state_ok s → same_problem s s' → routes s' = routes s →
  domains_shrunk s s' → assigned_variables s' →
  search_state_ok s'.
Proof.
  intros (Hok & Hrange & Hkeyed & _) Hp Hr Hshrunk Hav.
  pose proof (same_problem_variables _ _ Hp) as Hvars.
  split; [by eapply same_problem_ok|]. split; [|split; [|done]].
  - intros v route x. rewrite Hr, <- Hvars. apply Hrange.
  - intros x Hx. rewrite <- Hvars in Hx. destruct (Hkeyed x Hx) as (d & Hd & Hkeys).
    destruct (Hshrunk x d Hd) as (d' & Hd' & Hsub). exists d'. split; [done|].
    intros v Hv. rewrite Hr. apply Hkeys. by eapply elem_of_sublist.
Qed.

(** The tentative commitment of a value keeps the state good. *)
Lemma commit_state_ok (self : CSP_VRPTW) (variable value : nat) (route : list nat) :
  search_state_ok self → variable ∈ variables self → routes self !! value = Some route →
  search_state_ok
    (set_routes (set_assignments self (<[variable := value]> (assignments self)))
                (<[value := route ++ [variable]]> (routes self))).
Proof.
  intros (Hok & Hrange & Hkeyed & Hav) Hvar Hr. split; [done|]. split; [|split].
  - intros v rt x. simpl. destruct (decide (v = value)) as [->|Hne].
    + rewrite lookup_insert_eq. intros [= <-] Hx. apply elem_of_app in Hx as [Hx|Hx].
      * by eapply Hrange.
      * apply list_elem_of_singleton in Hx. by subst.
    + rewrite lookup_insert_ne by done. apply Hrange.
  - intros x Hx. destruct (Hkeyed x Hx) as (d & Hd & Hkeys). exists d. split; [done|].
    intros v Hv. simpl. destruct (decide (v = value)) as [->|Hne].
    + rewrite lookup_insert_eq. eauto.
    + rewrite lookup_insert_ne by done. by apply Hkeys.
  - intros x. simpl. destruct (decide (x = variable)) as [->|Hne]; [done|].
    rewrite lookup_insert_ne by done. apply Hav.
Qed.

Lemma forward_checking_returns (self : CSP_VRPTW) (variable value : nat) :
  search_state_ok self →
  ∃ checked self', _forward_checking self variable value = Ok (checked, self')
                   ∧ search_state_ok self'.
Proof.
  intros Hstate. destruct (fc_loop_returns (variables self) self (domains self) Hstate)
    as [[checked self'] H]; [done|].
  exists checked, self'. split; [done|].
  pose proof (forward_checking_shrinks self self' variable value checked H) as Hshrunk.
  apply (forward_checking_frame self self' variable value) in H as (Hp & Ha & Hr).
  apply (search_state_ok_step self self' Hstate Hp Hr Hshrunk).
  destruct Hstate as (_ & _ & _ & Hav). intros x. rewrite Ha, <- (same_problem_variables _ _ Hp).
  apply Hav.
Qed.

(** With the assigned variables among the variables, a variable is left
    as long as the sizes differ. *)
Lemma unassigned_nil_size (self : CSP_VRPTW) :
  assigned_variables self → unassigned self = [] →
  size (assignments self) = length (variables self).
Proof.
  intros Hav Hnil.
  rewrite <- size_dom, <- (size_list_to_set (C := gset nat)) by apply NoDup_variables.
  f_equal. apply set_eq. intros x. rewrite elem_of_dom, elem_of_list_to_set. split; [apply Hav|].
  intros Hx. destruct (assignments self !! x) eqn:Hax; [eauto|]. exfalso.
  assert (Hin : x ∈ unassigned self) by (by apply list_elem_of_filter).
  rewrite Hnil in Hin. by apply elem_of_nil in Hin.
Qed.

Lemma select_returns (self : CSP_VRPTW) :
  domains_keyed self → assigned_variables self →
  size (assignments self) ≠ length (variables self) →
  returns (_select_unassigned_variable self).
Proof.
  intros Hkeyed Hav Hsize. unfold _select_unassigned_variable.
  destruct (returns_map_o (λ var, d ← dict_get (domains self) var; Ok (var, length d))
              (unassigned self)) as [keyed Hk].
  { intros x Hx. apply list_elem_of_filter in Hx as [_ Hx].
    destruct (Hkeyed x Hx) as (d & Hd & _). unfold dict_get. rewrite Hd. apply returns_Ok. }
  rewrite Hk. simpl. destruct keyed as [|[v k] rest]; [|apply returns_Ok].
  exfalso. apply Hsize, unassigned_nil_size; [done|].
  apply map_o_length in Hk. by destruct (unassigned self).
Qed.

Lemma lcv_loop_returns (self : CSP_VRPTW) (value : nat) (neighbors : list nat) :
  domains_keyed self → (∀ x, x ∈ neighbors → x ∈ variables self) →
  ∀ count, returns (lcv_loop self value neighbors count).
Proof.
  intros Hkeyed. induction neighbors as [|n rest IH]; intros Hvars count; [apply returns_Ok|].
  assert (Hrest : ∀ x, x ∈ rest → x ∈ variables self) by (intros x Hx; apply Hvars; by right).
  cbn [lcv_loop]. destruct (decide _); [|by apply IH].
  destruct (Hkeyed n) as (d & Hd & _); [apply Hvars; by left|].
  unfold dict_get. rewrite Hd. cbn [mbind outcome_bind].
  destruct (bool_decide _); by apply IH.
Qed.

Lemma keyed_fst (g : nat → outcome nat) (d : list nat) (keyed : list (nat * nat)) :
  map_o (λ v, k ← g v; Ok (v, k)) d = Ok keyed → keyed.*1 = d.
Proof.
  revert keyed. induction d as [|v d IH]; intros keyed H; simpl in H.
  - by inversion H.
  - bind_inv H as p Hp. bind_inv H as r Hr. inversion H; subst keyed.
    bind_inv Hp as k Hk. inversion Hp; subst p. rewrite fmap_cons. by rewrite (IH r).
Qed.

(** The candidates are the values of the domain, in some order. *)
Lemma ordered_values_returns (self : CSP_VRPTW) (variable : nat) :
  domains_keyed self → variable ∈ variables self →
  ∃ values d, ordered_values self variable = Ok values
              ∧ domains self !! variable = Some d ∧ values ≡ₚ d.
Proof.
  intros Hkeyed Hvar. destruct (Hkeyed variable Hvar) as (d & Hd & _).
  unfold ordered_values, dict_get. rewrite Hd. cbn [mbind outcome_bind].
  destruct (returns_map_o (λ v, k ← _least_constraining_value self variable v; Ok (v, k)) d)
    as [keyed Hk].
  { intros v _. apply returns_bind; [by apply lcv_loop_returns|]. intros k _.
    apply returns_Ok. }
  rewrite Hk. cbn [mbind outcome_bind]. exists (sorted_by_key keyed), d.
  split; [done|]. split; [done|]. unfold sorted_by_key.
  by rewrite sort_pairs_perm, (keyed_fst _ _ _ Hk).
Qed.

(** *** The search and the minimization loop *)

Lemma forward_checking_state_ok (self self' : CSP_VRPTW) (variable value : nat) (b : bool) :
  search_state_ok self → _forward_checking self variable value = Ok (b, self') →
  search_state_ok self'.
Proof.
  intros Hstate H. destruct (forward_checking_returns self variable value Hstate)
    as (b' & s' & H' & Hs'). rewrite H in H'. by inversion H'; subst.
Qed.

Lemma try_values_returns (recurse : CSP_VRPTW → outcome (option routes_t * CSP_VRPTW))
    (variable : nat) (entry : CSP_VRPTW) :
  variable ∈ variables entry →
  assignments entry !! variable = None →
  (∀ s res s', recurse s = Ok (res, s') → search_frame s res s' ∧ domains_shrunk s s') →
  (∀ s value, search_state_ok s → same_problem entry s →
              assignments s = <[variable := value]> (assignments entry) →
              returns (recurse s)) →
  ∀ values self,
    search_state_ok self → same_problem entry self → assignments self = assignments entry →
    (∀ v, v ∈ values → is_Some (routes self !! v)) →
    returns (try_values recurse variable self values).
Proof.
  intros Hvar Hun Hframe Hrec.
  induction values as [|value rest IH]; intros self Hstate Hp Ha Hkeys; [apply returns_Ok|].
  assert (Hrest : ∀ v, v ∈ rest → is_Some (routes self !! v))
    by (intros v Hv; apply Hkeys; by right).
  pose proof (same_problem_variables _ _ Hp) as Hvars.
  assert (Hvar' : variable ∈ variables self) by (by rewrite <- Hvars).
  cbn [try_values]. apply returns_bind.
  { apply consistent_at_returns; [apply Hstate|apply Hstate|done|apply Hkeys; by left]. }
  intros ok _. destruct ok; [|by apply IH].
  destruct (Hkeys value) as [route Hr]; [by left|].
  apply returns_bind; [unfold dict_get; simpl; rewrite Hr; apply returns_Ok|].
  intros route' Hroute'. unfold dict_get in Hroute'. simpl in Hroute'. rewrite Hr in Hroute'.
  inversion Hroute'; subst route'; clear Hroute'.
  pose proof (commit_state_ok self variable value route Hstate Hvar' Hr) as Hs1.
  apply returns_bind.
  { destruct (forward_checking_returns _ variable value Hs1) as (b & s & Hfc & _).
    exists (b, s). exact Hfc. }
  intros [checked s2] Hfc.
  pose proof (forward_checking_state_ok _ _ _ _ _ Hs1 Hfc) as Hs2.
  pose proof (forward_checking_shrinks _ _ _ _ _ Hfc) as Hsh2.
  apply forward_checking_frame in Hfc as (Hp2 & Ha2 & Hr2). simpl in Ha2, Hr2.
  assert (Hp02 : same_problem entry s2).
  { eapply same_problem_trans; [exact Hp|]. eapply same_problem_trans; [|exact Hp2].
    by repeat split. }
  assert (Ha02 : assignments s2 = <[variable := value]> (assignments entry))
    by (by rewrite Ha2, Ha).
  assert (Hrr : ∃ result s3,
    (if checked then recurse s2 else Ok (None, s2)) = Ok (result, s3)
    ∧ same_problem s2 s3 ∧ domains_shrunk s2 s3
    ∧ (result = None → assignments s3 = assignments s2)).
  { destruct checked.
    - destruct (Hrec s2 value Hs2 Hp02 Ha02) as [[result s3] Hrun].
      exists result, s3. split; [done|].
      destruct (Hframe _ _ _ Hrun) as [(Hp3 & _ & Hres) Hsh3].
      split; [done|]. split; [done|]. by intros ->.
    - exists None, s2. split; [done|]. split; [apply same_problem_refl|].
      split; [by apply domains_shrunk_refl|done]. }
  destruct Hrr as (result & s3 & -> & Hp3 & Hsh3 & Ha3). cbn [mbind outcome_bind].
  destruct result as [res|]; [apply returns_Ok|].
  specialize (Ha3 eq_refl).
  apply returns_bind.
  { unfold dict_get. rewrite Ha3, Ha02, lookup_insert_eq. apply returns_Ok. }
  intros old _.
  assert (Hp04 : same_problem entry
    (set_routes (set_assignments s3 (delete variable (assignments s3)))
                (<[value := route ++ [variable]]> (routes self)))).
  { eapply same_problem_trans; [exact Hp02|]. eapply same_problem_trans; [exact Hp3|].
    by repeat split. }
  assert (Ha04 : delete variable (assignments s3) = assignments entry).
  { rewrite Ha3, Ha02. by apply delete_insert_id. }
  apply IH.
  - eapply (search_state_ok_step _ _ Hs1).
    + eapply same_problem_trans; [exact Hp2|]. eapply same_problem_trans; [exact Hp3|].
      by repeat split.
    + done.
    + eapply domains_shrunk_trans; [exact Hsh2|].
      eapply domains_shrunk_trans; [exact Hsh3|]. by apply domains_shrunk_refl.
    + intros x Hx.
      refine (eq_ind _ (λ l, x ∈ l) _ _ (same_problem_variables _ _ Hp04)).
      rewrite Hvars. simpl in Hx. rewrite Ha04, <- Ha in Hx. by apply Hstate.
  - exact Hp04.
  - exact Ha04.
  - intros v Hv. simpl. destruct (decide (v = value)) as [->|Hne].
    + rewrite lookup_insert_eq. eauto.
    + rewrite lookup_insert_ne by done. by apply Hrest.
Qed.

Lemma size_assignments_le (self : CSP_VRPTW) :
  assigned_variables self → size (assignments self) ≤ length (variables self).
Proof.
  intros Hav.
  rewrite <- size_dom, <- (size_list_to_set (C := gset nat)) by apply NoDup_variables.
  apply subseteq_size. intros x Hx. apply elem_of_dom in Hx.
  apply elem_of_list_to_set. by apply Hav.
Qed.

Lemma backtrack_returns (fuel : nat) :
  ∀ self,
    search_state_ok self →
    length (variables self) - size (assignments self) < fuel →
    returns (_backtrack fuel self).
Proof.
  induction fuel as [|fuel IH]; intros self Hstate Hfuel; [lia|].
  cbn [_backtrack]. destruct (decide _) as [|Hsize]; [apply returns_Ok|].
  pose proof Hstate as (Hok & Hrange & Hkeyed & Hav).
  apply returns_bind; [by apply select_returns|]. intros variable Hv.
  apply select_unassigned_variable_spec in Hv as [Hvar Hun].
  destruct (ordered_values_returns self variable Hkeyed Hvar) as (values & d & -> & Hd & Hperm).
  cbn [mbind outcome_bind]. pose proof (size_assignments_le self Hav) as Hle.
  apply (try_values_returns (_backtrack fuel) variable self Hvar Hun).
  - intros s res s' Hrun. split; [by eapply backtrack_frame|by eapply backtrack_shrinks].
  - intros s value Hs Hp Has. apply IH; [done|].
    rewrite <- (same_problem_variables _ _ Hp), Has, map_size_insert_None by done. lia.
  - exact Hstate.
  - apply same_problem_refl.
  - done.
  - intros v Hv. destruct (Hkeyed variable Hvar) as (d' & Hd' & Hkeys).
    rewrite Hd in Hd'. inversion Hd'; subst d'. apply Hkeys. by rewrite <- Hperm.
Qed.

Lemma reset_state_ok (self : CSP_VRPTW) (limit : nat) :
  problem_ok self → search_state_ok (reset self limit).
Proof.
  intros Hok. destruct (reset_fresh self limit) as [Hr Hd]. split; [done|]. split; [|split].
  - intros v route x Hv Hx. rewrite Hr in Hv. destruct (decide (v < limit)); [|done].
    inversion Hv; subst. by apply elem_of_nil in Hx.
  - intros x Hx. exists (seq 0 limit). split; [by apply Hd|]. intros v Hv.
    apply elem_of_seq in Hv. rewrite Hr, decide_True by lia. eauto.
  - intros x. simpl. rewrite lookup_empty. by intros [? ?].
Qed.

Lemma alone_feasible_returns (self : CSP_VRPTW) (x : nat) :
  problem_ok self → x ∈ variables self → returns (alone_feasible self x).
Proof.
  intros Hok Hx. apply variables_range in Hx. unfold alone_feasible.
  destruct (customer_at_returns self x) as (c & -> & _); [lia|]. simpl.
  destruct (_ >? _)%Z; [apply returns_Ok|]. apply validate_returns; [done|].
  apply Forall_singleton. lia.
Qed.

Lemma ac_first_failure_returns (self : CSP_VRPTW) (xs : list nat) :
  (∀ x, x ∈ xs → returns (alone_feasible self x)) → returns (ac_first_failure self xs).
Proof.
  induction xs as [|x xs IH]; intros H; [apply returns_Ok|]. simpl.
  apply returns_bind; [apply H; by left|]. intros [|] _; [|apply returns_Ok].
  apply IH. intros y Hy. apply H. by right.
Qed.

Lemma arcs_first_variable (vs : list nat) (x : nat) : x ∈ (arcs vs).*1 → x ∈ vs.
Proof.
  intros Hx. apply list_elem_of_fmap in Hx as ([a b] & -> & Hin).
  apply arcs_spec in Hin. tauto.
Qed.

Lemma attempt_returns (self : CSP_VRPTW) (limit : nat) :
  problem_ok self → 0 < limit → returns (attempt self limit).
Proof.
  intros Hok Hpos. unfold attempt.
  rewrite (fresh_pass_first_failure _ limit (reset_fresh self limit) Hpos).
  apply returns_bind.
  { apply ac_first_failure_returns. intros x Hx. apply arcs_first_variable in Hx.
    by apply alone_feasible_returns. }
  intros [consistent s1] Hac. apply ac_first_failure_state in Hac as [_ Hs1].
  destruct consistent; [|apply returns_Ok]. rewrite Hs1 by done.
  apply returns_fmap. apply backtrack_returns; [by apply reset_state_ok|lia].
Qed.

Lemma first_success_returns (try : nat → outcome (option routes_t)) (limits : list nat) :
  (∀ k, k ∈ limits → returns (try k)) → returns (first_success try limits).
Proof.
  induction limits as [|k rest IH]; intros H; [apply returns_Ok|]. simpl.
  apply returns_bind; [apply H; by left|]. intros [r|] _; [apply returns_Ok|].
  apply IH. intros j Hj. apply H. by right.
Qed.

(** X15: on a well-formed problem (a square distance matrix, as the
    constructor builds it, and service and ready times that convert to
    floats) a run of [solve] raises no exception and ends: every index
    into the customer list and the matrix is in range, every key looked
    up in a dictionary is there, the variable selection never sees an
    empty list, and the undo always finds the assignment it pops. *)
Theorem solve_returns (self : CSP_VRPTW) :
  problem_ok self → ∃ result self', solve self = Ok (result, self').
Proof.
  intros Hok.
  assert (H : returns (first_success (attempt self) (vehicle_limits self))).
  { apply first_success_returns. intros k Hk. apply elem_of_seq in Hk.
    apply attempt_returns; [done|lia]. }
  rewrite <- solve_first_success in H. destruct H as [r Hr].
  destruct (solve self) as [[result self']| |]; simpl in Hr; try done. eauto.
Qed.

(** ** A customer that cannot be served alone *)

Lemma alone_feasible_ext (s1 s2 : CSP_VRPTW) (x : nat) :
  same_problem s1 s2 → alone_feasible s2 x = alone_feasible s1 x.
Proof.
  intros (Hc & Hcap & _ & Hd). unfold alone_feasible, customer_at, _validate_time_windows.
  rewrite <- Hc, <- Hcap. apply bind_ext. intros c. destruct (_ >? _)%Z; [done|].
  by apply validate_loop_ext.
Qed.

(** Candidates that all fail the check leave the state alone. *)
Lemma try_values_rejected (recurse : CSP_VRPTW → outcome (option routes_t * CSP_VRPTW))
    (variable : nat) (self : CSP_VRPTW) (values : list nat) :
  (∀ v, v ∈ values → consistent_at self variable v = Ok false) →
  try_values recurse variable self values = Ok (None, self).
Proof.
  induction values as [|value rest IH]; intros H; [done|].
  cbn [try_values]. rewrite H by (by left). cbn [mbind outcome_bind].
  apply IH. intros v Hv. apply H. by right.
Qed.

Lemma short_list_one (l : list nat) (x y : nat) : length l < 2 → x ∈ l → y ∈ l → y = x.
Proof.
  destruct l as [|a [|b l]]; simpl; intros Hlen Hx Hy; try lia.
  - by apply elem_of_nil in Hx.
  - apply list_elem_of_singleton in Hx, Hy. congruence.
Qed.

(** With one variable only there is no arc, and the search itself turns
    every vehicle down. *)
Lemma search_single_unservable (self : CSP_VRPTW) (limit x : nat) :
  search_state_ok self → fresh_state self limit → assignments self = ∅ →
  length (variables self) < 2 → x ∈ variables self →
  alone_feasible self x = Ok false →
  fst <$> backtracking_search self = Ok None.
Proof.
  intros Hstate Hfresh Ha Hlen Hx Hfalse. pose proof Hstate as (Hok & Hrange & Hkeyed & Hav).
  unfold backtracking_search. cbn [_backtrack].
  assert (Hsize : size (assignments self) ≠ length (variables self)).
  { rewrite Ha, map_size_empty. destruct (variables self); [by apply elem_of_nil in Hx|done]. }
  rewrite decide_False by done.
  destruct (select_returns self Hkeyed Hav Hsize) as [v Hv]. rewrite Hv.
  cbn [mbind outcome_bind]. apply select_unassigned_variable_spec in Hv as [Hvar _].
  assert (v = x) as -> by (by apply (short_list_one (variables self))).
  destruct (ordered_values_returns self x Hkeyed Hx) as (values & d & -> & Hd & Hperm).
  cbn [mbind outcome_bind]. rewrite try_values_rejected; [done|].
  intros u Hu. rewrite Hperm in Hu. destruct Hfresh as [Hr Hdoms].
  rewrite (Hdoms x Hx) in Hd. inversion Hd; subst d. apply elem_of_seq in Hu.
  rewrite (consistent_at_fresh self limit); [done|by split|lia].
Qed.

Lemma attempt_unservable (self : CSP_VRPTW) (limit x : nat) :
  problem_ok self → 0 < limit → x ∈ variables self →
  alone_feasible self x = Ok false →
  attempt self limit = Ok None.
Proof.
  intros Hok Hpos Hx Hfalse. unfold attempt.
  pose proof (reset_fresh self limit) as Hfresh.
  pose proof (reset_state_ok self limit Hok) as Hstate.
  pose proof (reset_same_problem self limit) as Hp.
  assert (Ha : assignments (reset self limit) = ∅) by done.
  rewrite (fresh_pass_first_failure _ limit Hfresh Hpos).
  remember (reset self limit) as R eqn:HR. clear HR.
  pose proof (same_problem_variables _ _ Hp) as Hvars. rewrite Hvars in Hx.
  rewrite <- (alone_feasible_ext self R x Hp) in Hfalse.
  destruct (decide (length (variables R) < 2)) as [Hshort|Hlong].
  - rewrite (arcs_short _ Hshort). simpl.
    by apply (search_single_unservable R limit x).
  - destruct (ac_first_failure_false R (arcs (variables R)).*1) as (z & _ & _ & ->).
    + intros y Hy. apply arcs_first_variable in Hy.
      apply alone_feasible_returns; [apply Hstate|done].
    + exists x. split; [|done]. apply arcs_first; [apply NoDup_variables|lia|done].
    + done.
Qed.

(** X16: one customer that cannot be served alone (its demand exceeds the
    capacity, or a vehicle that drives to it straight from the depot
    arrives after its due time) is enough for [solve] to report that there
    is no solution, whatever the fleet size: with two customers or more
    the arc-consistency pass fails for every cap, with one customer the
    search turns every vehicle down. *)
Theorem solve_unservable_customer (self : CSP_VRPTW) (x : nat) :
  problem_ok self → x ∈ variables self → alone_feasible self x = Ok false →
  fst <$> solve self = Ok None.
Proof.
  intros Hok Hx Hfalse. rewrite solve_first_success. unfold vehicle_limits.
  apply first_success_None. intros k Hk. apply (attempt_unservable self k x); [done|lia|done|done].
Qed.

(** ** The total distance *)

(** The index loop over a route, from the position after [pre] on, and
    the leg back to the depot: the same sum as the walk. *)
Lemma inner_legs_walk (self : CSP_VRPTW) (rest : list nat) :
  ∀ pre a d route k,
    route = pre ++ a :: rest →
    k = length pre + length rest →
    (d' ← inner_legs self route (seq (length pre) (length rest)) d;
     last ← list_get route k;
     back ← dist self last depot;
     Ok (fadd d' back))
    = walk_legs self a rest d.
Proof.
  induction rest as [|c rest IH]; intros pre a d route k Hroute Hk.
  - cbn [length seq inner_legs mbind outcome_bind walk_legs].
    assert (Hlast : list_get route k = Ok a).
    { rewrite Hroute, Hk. unfold list_get. rewrite lookup_app_r by (simpl; lia).
      simpl. replace (length pre + 0 - length pre) with 0 by lia. done. }
    rewrite Hlast. done.
  - cbn [length seq inner_legs walk_legs].
    assert (Ha : list_get route (length pre) = Ok a).
    { rewrite Hroute. unfold list_get. rewrite lookup_app_r by lia.
      by rewrite Nat.sub_diag. }
    assert (Hc : list_get route (length pre + 1) = Ok c).
    { rewrite Hroute. unfold list_get. rewrite lookup_app_r by lia.
      replace (length pre + 1 - length pre) with 1 by lia. done. }
    rewrite Ha, Hc. cbn [mbind outcome_bind].
    destruct (dist self a c) as [leg| |]; cbn [mbind outcome_bind]; [|done|done].
    specialize (IH (pre ++ [a]) c (fadd d leg) route k).
    rewrite length_app, Nat.add_1_r in IH. apply IH.
    + by rewrite Hroute, <- app_assoc.
    + rewrite Hk. simpl. lia.
Qed.

Lemma route_distance_as_walk (self : CSP_VRPTW) (route : list nat) :
  route_distance self route
  = match route with
    | [] => Raise IndexError
    | first :: rest => d ← dist self depot first; walk_legs self first rest d
    end.
Proof.
  destruct route as [|first rest]; [done|]. unfold route_distance.
  assert (list_get (first :: rest) 0 = Ok first) as -> by done. cbn [mbind outcome_bind].
  apply bind_ext. intros d.
  replace (length (first :: rest) - 1) with (length rest) by (simpl; lia).
  by apply (inner_legs_walk self rest [] first d).
Qed.

(** X17: the length of a route as [calculate_total_distance] computes it
    with its index loop is the length of the walk from the depot through
    the customers of the route in their order and back to the depot, the
    legs added from left to right; on an empty route the computation
    would raise [IndexError] (the caller skips empty routes). *)
Theorem route_distance_walk (self : CSP_VRPTW) (route : list nat) :
  route_distance self route
  = match route with
    | [] => Raise IndexError
    | first :: rest => d ← dist self depot first; walk_legs self first rest d
    end.
Proof. apply route_distance_as_walk. Qed.

Lemma elem_of_dict_items {A} (d : gmap nat A) (k : nat) (a : A) :
  (k, a) ∈ dict_items d ↔ d !! k = Some a.
Proof. unfold dict_items. rewrite merge_sort_Permutation. apply elem_of_map_to_list. Qed.

Lemma py_add_float (total : pynum) (d : spec_float) (t : pynum) :
  py_add total (PFloat d) = Ok t → ∃ f, t = PFloat f.
Proof.
  destruct total as [z|g]; simpl; intros H.
  - bind_inv H as f Hf. inversion H. eauto.
  - inversion H. eauto.
Qed.

Lemma total_loop_kind (self : CSP_VRPTW) (items : list (nat * list nat)) :
  ∀ total t,
    total_loop self items total = Ok t →
    (Forall (λ vr, vr.2 = []) items → t = total)
    ∧ (Exists (λ vr, vr.2 ≠ []) items → ∃ f, t = PFloat f).
Proof.
  induction items as [|[v route] rest IH]; intros total t H.
  - simpl in H. inversion H. split; [done|]. intros Hex. by apply Exists_nil in Hex.
  - cbn [total_loop] in H. destruct route as [|c route].
    + destruct (IH _ _ H) as [Hall Hex]. split.
      * intros Hf. apply Forall_cons in Hf as [_ Hf]. by apply Hall.
      * intros He. apply Exists_cons in He as [He|He]; [done|by apply Hex].
    + bind_inv H as d Hd. bind_inv H as total' Ht. apply py_add_float in Ht as [f ->].
      destruct (IH _ _ H) as [Hall Hex]. split.
      * intros Hf. by apply Forall_cons in Hf as [Hf _].
      * intros _.
        destruct (decide (Forall (λ vr : nat * list nat, vr.2 = []) rest)) as [Hf|Hnf].
        -- exists f. by apply Hall.
        -- apply Hex. apply not_Forall_Exists in Hnf; [|apply _].
           eapply Exists_impl; [exact Hnf|]. by intros vr Hvr.
Qed.

(** X18: the total distance is the integer [0] when every route is empty,
    and a float as soon as one route is not: the first route length is
    added to the integer the sum starts from. *)
Theorem calculate_total_distance_kind (self : CSP_VRPTW) (t : pynum) :
  calculate_total_distance self = Ok t →
  ((∀ v route, routes self !! v = Some route → route = []) → t = PInt 0)
  ∧ ((∃ v route, routes self !! v = Some route ∧ route ≠ []) → ∃ f, t = PFloat f).
Proof.
  intros H. apply total_loop_kind in H as [Hall Hex]. split.
  - intros Hempty. apply Hall. apply Forall_forall. intros [v route] Hin.
    apply elem_of_dict_items in Hin. by apply (Hempty v).
  - intros (v & route & Hv & Hne). apply Hex. apply Exists_exists.
    exists (v, route). split; [by apply elem_of_dict_items|done].
Qed.

(** ** Formatting what [solve] returns *)

Lemma routes_in_range_ext (s s' : CSP_VRPTW) :
  same_problem s s' → routes s' = routes s → routes_in_range s → routes_in_range s'.
Proof.
  intros Hp Hr Hrange v route x. rewrite Hr, <- (same_problem_variables _ _ Hp).
  apply Hrange.
Qed.

Lemma commit_in_range (self : CSP_VRPTW) (variable value : nat) (route : list nat) :
  routes_in_range self → variable ∈ variables self → routes self !! value = Some route →
  routes_in_range
    (set_routes (set_assignments self (<[variable := value]> (assignments self)))
                (<[value := route ++ [variable]]> (routes self))).
Proof.
  intros Hrange Hvar Hr v rt x. simpl. destruct (decide (v = value)) as [->|Hne].
  - rewrite lookup_insert_eq. intros [= <-] Hx. apply elem_of_app in Hx as [Hx|Hx].
    + by eapply Hrange.
    + apply list_elem_of_singleton in Hx. by subst.
  - rewrite lookup_insert_ne by done. apply Hrange.
Qed.

Lemma try_values_in_range (recurse : CSP_VRPTW → outcome (option routes_t * CSP_VRPTW))
    (variable : nat) :
  (∀ s res s', recurse s = Ok (res, s') → same_problem s s') →
  (∀ s res s', routes_in_range s → recurse s = Ok (res, s') → routes_in_range s') →
  ∀ values self res self',
    variable ∈ variables self → routes_in_range self →
    try_values recurse variable self values = Ok (res, self') →
    routes_in_range self'.
Proof.
  intros Hframe Hrec. induction values as [|value rest IH]; intros self res self' Hvar Hrange H.
  - simpl in H. by inversion H; subst.
  - cbn [try_values] in H. bind_inv H as ok Hok. destruct ok; [|by eapply IH].
    bind_inv H as r Hr. unfold dict_get in Hr. simpl in Hr.
    destruct (routes self !! value) as [r0|] eqn:Hrv; [|done]. inversion Hr; subst r0; clear Hr.
    pose proof (commit_in_range self variable value r Hrange Hvar Hrv) as Hrange1.
    bind_inv H as fc Hfc. destruct fc as [checked self2].
    apply forward_checking_frame in Hfc as (Hp2 & Ha2 & Hr2).
    pose proof (routes_in_range_ext _ _ Hp2 Hr2 Hrange1) as Hrange2.
    bind_inv H as rr Hrr. destruct rr as [result self3].
    assert (H3 : same_problem self2 self3 ∧ routes_in_range self3).
    { destruct checked.
      - split; [by eapply Hframe|by eapply Hrec].
      - inversion Hrr; subst. split; [apply same_problem_refl|done]. }
    destruct H3 as [Hp3 Hrange3]. destruct result as [res0|].
    + by inversion H; subst.
    + bind_inv H as old Hold.
      assert (Hp13 : same_problem
        (set_routes (set_assignments self (<[variable := value]> (assignments self)))
                    (<[value := r ++ [variable]]> (routes self))) self3)
        by (by eapply same_problem_trans).
      eapply IH; [| |exact H].
      * assert (Hc : customers self3 = customers self)
          by (destruct Hp13 as (Hc & _); by rewrite <- Hc).
        unfold variables, num_customers. simpl. rewrite Hc. exact Hvar.
      * apply (routes_in_range_ext _ _) with (3 := Hrange1); [|done].
        eapply same_problem_trans; [exact Hp13|]. by repeat split.
Qed.

Lemma backtrack_in_range (fuel : nat) :
  ∀ self res self',
    routes_in_range self → _backtrack fuel self = Ok (res, self') → routes_in_range self'.
Proof.
  induction fuel as [|fuel IH]; intros self res self' Hrange H; [done|].
  cbn [_backtrack] in H.
  destruct (decide (size (assignments self) = length (variables self))).
  - by inversion H; subst.
  - bind_inv H as variable Hv. bind_inv H as values Hvals.
    apply select_unassigned_variable_spec in Hv as [Hvar _].
    eapply (try_values_in_range (_backtrack fuel) variable); [| |exact Hvar|exact Hrange|exact H].
    + intros s res0 s' Hrun. by apply backtrack_frame in Hrun as (? & _).
    + exact IH.
Qed.

(** The state in which the loop of [solve] returns a solution. *)
Lemma solve_loop_result (bound : nat) (limits : list nat) :
  Forall (λ k, k ≤ bound) limits →
  ∀ self r self',
    solve_loop self limits = Ok (Some r, self') →
    routes self' = r ∧ same_problem self self' ∧ routes_in_range self' ∧ size r ≤ bound.
Proof.
  induction limits as [|k rest IH]; intros Hbound self r self' H; [done|].
  apply Forall_cons in Hbound as [Hk Hbound]. cbn [solve_loop] in H.
  bind_inv H as ac Hac. destruct ac as [consistent s1].
  pose proof (arc_consistency_same_problem _ _ _ Hac) as Hp1.
  assert (Hp01 : same_problem self s1).
  { eapply same_problem_trans; [apply (reset_same_problem self k)|exact Hp1]. }
  assert (Hnext : ∀ s, same_problem self s → solve_loop s rest = Ok (Some r, self') →
    routes self' = r ∧ same_problem self self' ∧ routes_in_range self' ∧ size r ≤ bound).
  { intros s Hps Hs. destruct (IH Hbound s r self' Hs) as (? & ? & ? & ?).
    split; [done|]. split; [by eapply same_problem_trans|done]. }
  destruct consistent; [|by apply (Hnext s1)].
  assert (Hs1 : s1 = reset self k).
  { unfold _arc_consistency in Hac.
    destruct (ac_loop_outcome (reset self k) (arcs (variables (reset self k)))
                (ac_fuel (reset self k))) as [_ Hr].
    - unfold ac_fuel. lia.
    - eapply Forall_impl; [apply arcs_wf|]. by intros arc (_ & _ & ?).
    - by destruct (Hr _ _ Hac) as [[_ ->]|[? _]]. }
  subst s1. bind_inv H as bs Hbs. destruct bs as [solution s2].
  pose proof (backtrack_frame _ _ _ _ Hbs) as (Hp2 & Hd2 & Hres).
  assert (Hp02 : same_problem self s2) by (by eapply same_problem_trans).
  destruct (truthy solution); [|by apply (Hnext s2)].
  inversion H; subst solution self'; clear H. simpl in Hres.
  split; [done|]. split; [done|]. split.
  - eapply backtrack_in_range; [|exact Hbs]. intros v route x Hv Hx.
    simpl in Hv. rewrite fresh_routes_lookup in Hv. destruct (decide (v < k)); [|done].
    inversion Hv; subst. by apply elem_of_nil in Hx.
  - rewrite Hres, <- size_dom, Hd2. simpl.
    assert (Hsub : dom (fresh_routes k) ⊆ (list_to_set (seq 0 k) : gset nat)).
    { intros v Hv. apply elem_of_dom in Hv. rewrite fresh_routes_lookup in Hv.
      destruct (decide (v < k)); [|by destruct Hv]. apply elem_of_list_to_set, elem_of_seq. lia. }
    apply subseteq_size in Hsub. rewrite size_list_to_set, length_seq in Hsub by apply NoDup_seq.
    lia.
Qed.

Lemma walk_legs_returns (self : CSP_VRPTW) :
  square_matrix self →
  ∀ route previous_stop d,
    previous_stop < num_customers self →
    Forall (λ c, c < num_customers self) route →
    returns (walk_legs self previous_stop route d).
Proof.
  intros Hsq. induction route as [|c rest IH]; intros prev d Hprev Hroute; cbn [walk_legs].
  - destruct (dist_returns self prev depot Hsq Hprev) as [back ->]; [unfold depot; lia|].
    apply returns_Ok.
  - apply Forall_cons in Hroute as [Hc Hrest].
    destruct (dist_returns self prev c Hsq Hprev Hc) as [leg ->]. cbn [mbind outcome_bind].
    by apply IH.
Qed.

Lemma total_loop_returns (self : CSP_VRPTW) (items : list (nat * list nat)) :
  square_matrix self →
  (∀ vr, vr ∈ items → Forall (λ c, c < num_customers self) vr.2) →
  ∀ total, clock_ok total → returns (total_loop self items total).
Proof.
  intros Hsq. induction items as [|[v route] rest IH]; intros Hitems total Htotal;
    [apply returns_Ok|].
  assert (Hrest : ∀ vr, vr ∈ rest → Forall (λ c, c < num_customers self) vr.2)
    by (intros vr Hvr; apply Hitems; by right).
  cbn [total_loop]. destruct route as [|first route]; [by apply IH|].
  pose proof (Hitems (v, first :: route) ltac:(by left)) as Hroute. simpl in Hroute.
  apply Forall_cons in Hroute as [Hfirst Hroute].
  rewrite route_distance_as_walk.
  destruct (dist_returns self depot first Hsq) as [d0 ->]; [unfold depot; lia|done|].
  cbn [mbind outcome_bind].
  destruct (walk_legs_returns self Hsq route first d0 Hfirst Hroute) as [d ->].
  cbn [mbind outcome_bind].
  destruct (py_add_travel total d Htotal) as [f ->]. cbn [mbind outcome_bind].
  by apply IH.
Qed.

(** X19: after [solve] has returned a solution on a solver object with a
    square distance matrix, [format_solution] raises no exception; the
    number of routes it reports is the number of non-empty routes of the
    solution, and at most the fleet size. *)
Theorem format_solution_after_solve (self self' : CSP_VRPTW) (r : routes_t) :
  square_matrix self →
  solve self = Ok (Some r, self') →
  ∃ text total,
    format_solution self' =
      Ok (text, length (filter (λ vr : nat * list nat, vr.2 ≠ []) (dict_items r)), total)
    ∧ length (filter (λ vr : nat * list nat, vr.2 ≠ []) (dict_items r))
      ≤ Z.to_nat (num_vehicles self).
Proof.
  intros Hsq H. unfold solve in H.
  apply (solve_loop_result (Z.to_nat (num_vehicles self))) in H
    as (Hr & Hp & Hrange & Hsize).
  2:{ apply Forall_forall. intros k Hk. apply elem_of_seq in Hk. lia. }
  assert (Hsq' : square_matrix self').
  { destruct Hp as (Hc & _ & _ & Hd). unfold square_matrix, num_customers in *.
    by rewrite <- Hc, <- Hd. }
  destruct (total_loop_returns self' (dict_items (routes self')) Hsq') with (total := PInt 0)
    as [total Htotal].
  { intros [v route] Hin. apply elem_of_dict_items in Hin. apply Forall_forall.
    intros c Hc. apply (Hrange v route c Hin) in Hc. apply variables_range in Hc. simpl. lia. }
  { apply convertible_zero. }
  unfold format_solution, calculate_total_distance. rewrite Htotal. cbn [mbind outcome_bind].
  rewrite length_fmap, Hr. eexists _, total. split; [done|].
  etrans; [apply length_filter|]. unfold dict_items.
  rewrite merge_sort_Permutation, length_map_to_list. done.
Qed.

(** ** A vehicle for every customer *)

(** *** Counting the empty vehicles *)

Lemma clean_routed_size (self : CSP_VRPTW) :
  clean_state self → length (routed_customers self) = size (assignments self).
Proof.
  intros [Hnd Hiff].
  rewrite <- size_dom, <- (size_list_to_set (C := gset nat)) by done.
  f_equal. apply set_eq. intros x. by rewrite elem_of_dom, elem_of_list_to_set.
Qed.

Lemma join_length_nonempty (ls : list (list nat)) :
  Forall (λ l, l ≠ []) ls → length ls ≤ length (mjoin ls).
Proof.
  induction 1 as [|l ls Hl _ IH]; [done|]. simpl. rewrite length_app.
  destruct l; [done|]. simpl. lia.
Qed.

Lemma unassigned_size_lt (self : CSP_VRPTW) (y : nat) :
  assigned_variables self → y ∈ variables self → assignments self !! y = None →
  size (assignments self) < length (variables self).
Proof.
  intros Hav Hy Hnone. pose proof (size_assignments_le self Hav) as Hle.
  destruct (decide (size (assignments self) = length (variables self))) as [Heq|]; [|lia].
  exfalso.
  assert (Hsub : dom (assignments self) ⊆ (list_to_set (variables self) : gset nat)).
  { intros x Hx. apply elem_of_dom in Hx. apply elem_of_list_to_set. by apply Hav. }
  apply set_subseteq_size_eq in Hsub.
  - assert (Hin : y ∈ dom (assignments self))
      by (rewrite Hsub; by apply elem_of_list_to_set).
    apply elem_of_dom in Hin as [? Hin]. congruence.
  - rewrite size_dom, size_list_to_set by apply NoDup_variables. lia.
Qed.

Lemma dict_values_length {A} (d : gmap nat A) : length (dict_values d) = size d.
Proof.
  unfold dict_values, dict_items.
  by rewrite length_fmap, merge_sort_Permutation, length_map_to_list.
Qed.

(** As long as a customer is left, a vehicle is left. *)
Lemma empty_vehicle_exists (self : CSP_VRPTW) (y : nat) :
  clean_state self → assigned_variables self → enough_vehicles self →
  y ∈ variables self → assignments self !! y = None →
  ∃ v, routes self !! v = Some [].
Proof.
  intros Hclean Hav Henough Hy Hnone.
  pose proof (unassigned_size_lt self y Hav Hy Hnone) as Hlt.
  rewrite <- (clean_routed_size self Hclean) in Hlt. unfold enough_vehicles in Henough.
  rewrite <- dict_values_length in Henough. unfold routed_customers in Hlt.
  destruct (decide (Forall (λ l : list nat, l ≠ []) (dict_values (routes self)))) as [Hall|Hex].
  - apply join_length_nonempty in Hall. lia.
  - apply not_Forall_Exists in Hex; [|apply _]. apply Exists_exists in Hex as (l & Hin & Hl).
    apply elem_of_dict_values in Hin as [v Hv]. exists v. rewrite Hv. f_equal.
    simpl in Hl. destruct l; [done|]. exfalso. by apply Hl.
Qed.

(** On an empty route the check is the check of the customer alone. *)
Lemma consistent_at_empty (self : CSP_VRPTW) (x v : nat) :
  routes self !! v = Some [] → x ∉ routed_customers self →
  consistent_at self x v = alone_feasible self x.
Proof.
  intros Hv Hx. unfold consistent_at, dict_get. rewrite Hv. simpl.
  unfold is_consistent. rewrite bool_decide_eq_false_2 by done.
  simpl. unfold alone_feasible. destruct (customer_at self x) as [c| |]; simpl; try done.
Qed.

Lemma commit_clean (self : CSP_VRPTW) (variable value : nat) (route : list nat) :
  clean_state self → variable ∉ routed_customers self →
  routes self !! value = Some route →
  clean_state
    (set_routes (set_assignments self (<[variable := value]> (assignments self)))
                (<[value := route ++ [variable]]> (routes self))).
Proof.
  intros [Hnd Hiff] Hfresh Hr.
  pose proof (routed_append (set_assignments self (<[variable := value]> (assignments self)))
                value variable route Hr) as Hperm.
  split.
  - rewrite Hperm. by apply NoDup_cons.
  - intros x. rewrite Hperm, elem_of_cons, Hiff. simpl.
    destruct (decide (x = variable)) as [->|Hne].
    + rewrite lookup_insert_eq. split; eauto.
    + rewrite lookup_insert_ne by done. split; [|auto]. by intros [?|?].
Qed.

(** The first step of a candidate that passes the check, when forward
    checking and the search below it succeed. *)
Lemma try_values_first_succeeds
    (recurse : CSP_VRPTW → outcome (option routes_t * CSP_VRPTW))
    (variable value : nat) (rest route : list nat) (self s2 s3 : CSP_VRPTW) (r : routes_t) :
  consistent_at self variable value = Ok true →
  routes self !! value = Some route →
  _forward_checking
    (set_routes (set_assignments self (<[variable := value]> (assignments self)))
                (<[value := route ++ [variable]]> (routes self))) variable value
  = Ok (true, s2) →
  recurse s2 = Ok (Some r, s3) →
  try_values recurse variable self (value :: rest) = Ok (Some r, s3).
Proof.
  intros Hok Hr Hfc Hrec. cbn [try_values]. rewrite Hok. cbn [mbind outcome_bind].
  change (routes (set_assignments self (<[variable := value]> (assignments self))))
    with (routes self).
  assert (Hget : dict_get (routes self) value = Ok route)
    by (unfold dict_get; by rewrite Hr).
  rewrite Hget. cbn [mbind outcome_bind].
  rewrite Hfc. cbn [mbind outcome_bind]. rewrite Hrec. done.
Qed.

(** *** The search never turns back *)

(** In a ready state, a value of the domain of an unassigned variable
    passes the check, forward checking succeeds after the commitment,
    and the state it leaves is ready again. *)
Lemma ready_step (self : CSP_VRPTW) (x v0 : nat) (d : list nat) :
  search_ready self →
  x ∈ variables self → assignments self !! x = None →
  domains self !! x = Some d → v0 ∈ d →
  ∃ route s2,
    consistent_at self x v0 = Ok true
    ∧ routes self !! v0 = Some route
    ∧ _forward_checking
        (set_routes (set_assignments self (<[x := v0]> (assignments self)))
                    (<[v0 := route ++ [x]]> (routes self))) x v0
      = Ok (true, s2)
    ∧ search_ready s2
    ∧ same_problem self s2
    ∧ assignments s2 = <[x := v0]> (assignments self).
Proof.
  intros (Hstate & Hclean & Hchecked & Hkept & Halone & Henough) Hx Hun Hd Hv0.
  pose proof (Hchecked x d v0 Hx Hun Hd Hv0) as Hok.
  assert (Hroute : ∃ route, routes self !! v0 = Some route
                            ∧ is_consistent self x v0 route = Ok true).
  { unfold consistent_at, dict_get in Hok.
    destruct (routes self !! v0) as [route|]; [|done]. eauto. }
  destruct Hroute as (route & Hr & Hic).
  pose proof (is_consistent_true _ _ _ _ Hic) as [Hfresh _].
  exists route.
  pose proof (commit_state_ok self x v0 route Hstate Hx Hr) as Hstate1.
  pose proof (commit_clean self x v0 route Hclean Hfresh Hr) as Hclean1.
  assert (Hp1 : same_problem self
    (set_routes (set_assignments self (<[x := v0]> (assignments self)))
                (<[v0 := route ++ [x]]> (routes self)))) by (by repeat split).
  assert (Ha1 : assignments
    (set_routes (set_assignments self (<[x := v0]> (assignments self)))
                (<[v0 := route ++ [x]]> (routes self)))
    = <[x := v0]> (assignments self)) by done.
  assert (Hr1 : routes
    (set_routes (set_assignments self (<[x := v0]> (assignments self)))
                (<[v0 := route ++ [x]]> (routes self)))
    = <[v0 := route ++ [x]]> (routes self)) by done.
  assert (Hd1 : domains
    (set_routes (set_assignments self (<[x := v0]> (assignments self)))
                (<[v0 := route ++ [x]]> (routes self)))
    = domains self) by done.
  remember (set_routes (set_assignments self (<[x := v0]> (assignments self)))
                       (<[v0 := route ++ [x]]> (routes self))) as s1 eqn:Hs1.
  clear Hs1. pose proof (same_problem_variables _ _ Hp1) as Hvars1.
  assert (Henough1 : enough_vehicles s1).
  { unfold enough_vehicles. rewrite <- Hvars1, Hr1, map_size_insert_Some by eauto. done. }
  (* an empty vehicle of [s1] is a feasible value of every unassigned variable *)
  assert (Hempty : ∀ n v, n ∈ variables s1 → assignments s1 !! n = None →
            routes s1 !! v = Some [] →
            ∃ dn, domains s1 !! n = Some dn ∧ v ∈ feasible_values s1 n dn).
  { intros n v Hn Hnun Hv. rewrite <- Hvars1 in Hn. rewrite Ha1 in Hnun.
    assert (Hnx : n ≠ x) by (intros ->; by rewrite lookup_insert_eq in Hnun).
    rewrite lookup_insert_ne in Hnun by done.
    assert (Hvv : v ≠ v0).
    { intros ->. rewrite Hr1, lookup_insert_eq in Hv. inversion Hv. by destruct route. }
    assert (Hv' : routes self !! v = Some [])
      by (rewrite Hr1, lookup_insert_ne in Hv; done).
    destruct (Hkept n Hn Hnun) as (dn & Hdn & _ & Hall). exists dn.
    split; [by rewrite Hd1|]. apply list_elem_of_filter. split; [|by apply Hall].
    rewrite (consistent_at_empty s1 n v Hv).
    - rewrite (alone_feasible_ext self s1 n Hp1). by apply Halone.
    - destruct Hclean1 as [_ Hiff]. rewrite Hiff, Ha1, lookup_insert_ne by done.
      rewrite Hnun. by intros [? ?]. }
  destruct (forward_checking_returns s1 x v0 Hstate1) as (checked & s2 & Hfc & Hstate2).
  pose proof (fc_loop_outcome (variables s1) s1 (domains s1) checked s2 Hfc)
    as (Hsame & Hpruned & _ & Hfailed).
  apply same_but_domains_inv in Hsame as (Hp2 & Ha2 & Hr2).
  destruct checked.
  2:{ exfalso. destruct (Hfailed eq_refl) as (_ & n & dn & Hn & Hnun & Hdn & Hnil).
      destruct (empty_vehicle_exists s1 n) as [v Hv]; try done; [apply Hstate1|].
      destruct (Hempty n v Hn Hnun Hv) as (dn' & Hdn' & Hin).
      rewrite Hdn in Hdn'. inversion Hdn'; subst dn'. rewrite Hnil in Hin.
      by apply elem_of_nil in Hin. }
  exists s2. split; [done|]. split; [done|]. split; [done|].
  pose proof (same_problem_variables _ _ Hp2) as Hvars2.
  assert (Hp02 : same_problem self s2) by (by eapply same_problem_trans).
  assert (Hcons : ∀ y v, consistent_at s2 y v = consistent_at s1 y v).
  { intros y v. destruct Hp2 as (Hc & Hcap & _ & Hdm). symmetry.
    by apply consistent_at_ext. }
  split; [|split; [done|by rewrite Ha2]].
  split; [done|]. split; [|split; [|split; [|split]]].
  - unfold clean_state, routed_customers in *. by rewrite Hr2, Ha2.
  - intros y dy v Hy Hyun Hdy Hv. rewrite <- Hvars2 in Hy. rewrite Ha2 in Hyun.
    destruct (Hpruned eq_refl y Hy Hyun) as (d0 & Hd0 & _ & Hd2).
    rewrite Hdy in Hd2. inversion Hd2; subst dy.
    apply list_elem_of_filter in Hv as [Hv _]. by rewrite Hcons.
  - intros y Hy Hyun. rewrite <- Hvars2 in Hy. rewrite Ha2 in Hyun.
    destruct (Hpruned eq_refl y Hy Hyun) as (d0 & Hd0 & Hne & Hd2).
    exists (feasible_values s1 y d0). split; [done|]. split; [done|].
    intros v Hv. rewrite Hr2 in Hv.
    destruct (Hempty y v Hy Hyun Hv) as (dn & Hdn & Hin).
    rewrite Hd0 in Hdn. by inversion Hdn; subst dn.
  - intros y Hy. rewrite <- (same_problem_variables _ _ Hp02) in Hy.
    rewrite (alone_feasible_ext self s2 y Hp02). by apply Halone.
  - unfold enough_vehicles in *. by rewrite <- Hvars2, Hr2.
Qed.

Lemma backtrack_succeeds (fuel : nat) :
  ∀ self,
    search_ready self →
    length (variables self) - size (assignments self) < fuel →
    ∃ r self', _backtrack fuel self = Ok (Some r, self').
Proof.
  induction fuel as [|fuel IH]; intros self Hready Hfuel; [lia|].
  cbn [_backtrack]. destruct (decide _) as [|Hsize]; [eauto|].
  pose proof Hready as ((Hok & Hrange & Hkeyed & Hav) & _ & _ & Hkept & _).
  destruct (select_returns self Hkeyed Hav Hsize) as [x Hsel]. rewrite Hsel.
  cbn [mbind outcome_bind]. apply select_unassigned_variable_spec in Hsel as [Hx Hun].
  destruct (ordered_values_returns self x Hkeyed Hx) as (values & d & -> & Hd & Hperm).
  cbn [mbind outcome_bind].
  destruct (Hkept x Hx Hun) as (d' & Hd' & Hne & _). rewrite Hd in Hd'.
  inversion Hd'; subst d'; clear Hd'.
  destruct values as [|v0 rest]; [by apply Permutation_nil_l in Hperm|].
  assert (Hv0 : v0 ∈ d) by (rewrite <- Hperm; by left).
  destruct (ready_step self x v0 d Hready Hx Hun Hd Hv0)
    as (route & s2 & Hcons & Hr & Hfc & Hready2 & Hp2 & Ha2).
  destruct (IH s2 Hready2) as (r & s3 & Hrec).
  { pose proof (size_assignments_le self Hav) as Hle.
    rewrite <- (same_problem_variables _ _ Hp2), Ha2, map_size_insert_None by done. lia. }
  exists r, s3. by apply (try_values_first_succeeds _ x v0 rest route self s2 s3 r).
Qed.

(** *** The minimization loop *)

Lemma fresh_routes_size (limit : nat) : size (fresh_routes limit) = limit.
Proof.
  unfold fresh_routes. rewrite map_size_list_to_map.
  - by rewrite length_fmap, length_seq.
  - rewrite <- list_fmap_compose. simpl. rewrite list_fmap_id. apply NoDup_seq.
Qed.

(** The state set up for a cap that leaves a vehicle for every customer. *)
Lemma reset_ready (self : CSP_VRPTW) (limit : nat) :
  problem_ok self → all_alone_feasible self →
  0 < limit → length (variables self) ≤ limit →
  search_ready (reset self limit).
Proof.
  intros Hok Halone Hpos Hlen.
  pose proof (reset_fresh self limit) as Hfresh.
  pose proof (reset_same_problem self limit) as Hp.
  pose proof (same_problem_variables _ _ Hp) as Hvars.
  assert (HaloneR : all_alone_feasible (reset self limit)).
  { intros x Hx. rewrite <- Hvars in Hx. rewrite (alone_feasible_ext self _ x Hp).
    by apply Halone. }
  assert (Hnil : routed_customers (reset self limit) = []).
  { destruct (routed_customers (reset self limit)) as [|x l] eqn:E; [done|].
    exfalso. apply (fresh_routed_nil _ limit Hfresh x). rewrite E. by left. }
  split; [by apply reset_state_ok|]. split; [|split; [|split; [|split]]].
  - split; [rewrite Hnil; constructor|]. intros x. rewrite Hnil. simpl.
    rewrite lookup_empty. split; [by intros ?%elem_of_nil|by intros [? ?]].
  - intros x d v Hx _ Hd Hv. destruct Hfresh as [Hr Hdoms].
    rewrite (Hdoms x Hx) in Hd. inversion Hd; subst d. apply elem_of_seq in Hv.
    rewrite (consistent_at_fresh _ limit); [by apply HaloneR|by split|lia].
  - intros x Hx _. destruct Hfresh as [Hr Hdoms]. exists (seq 0 limit).
    split; [by apply Hdoms|]. split; [by destruct limit; [lia|]|].
    intros v Hv. rewrite Hr in Hv. destruct (decide (v < limit)); [|done].
    apply elem_of_seq. lia.
  - done.
  - unfold enough_vehicles. rewrite <- Hvars. simpl. by rewrite fresh_routes_size.
Qed.

Lemma attempt_succeeds (self : CSP_VRPTW) (limit : nat) :
  problem_ok self → all_alone_feasible self →
  0 < limit → length (variables self) ≤ limit →
  ∃ r, attempt self limit = Ok (Some r).
Proof.
  intros Hok Halone Hpos Hlen. unfold attempt.
  pose proof (reset_ready self limit Hok Halone Hpos Hlen) as Hready.
  rewrite (fresh_pass_first_failure _ limit (reset_fresh self limit) Hpos).
  rewrite ac_first_failure_true.
  2:{ intros x Hx. apply arcs_first_variable in Hx. by apply Hready. }
  cbn [mbind outcome_bind].
  destruct (backtrack_succeeds (S (length (variables (reset self limit)))) _ Hready)
    as (r & s & Hrun); [lia|].
  exists r. unfold backtracking_search. by rewrite Hrun.
Qed.

Lemma first_success_exists (try : nat → outcome (option routes_t)) (limits : list nat) (k : nat) :
  (∀ j, j ∈ limits → returns (try j)) →
  k ∈ limits → (∃ r, try k = Ok (Some r)) →
  ∃ r, first_success try limits = Ok (Some r).
Proof.
  induction limits as [|j rest IH]; intros Hall Hk Hsome; [by apply elem_of_nil in Hk|].
  simpl. destruct (Hall j) as [[r|] Hj]; [by left| |]; rewrite Hj; simpl; [eauto|].
  apply IH; [intros i Hi; apply Hall; by right| |done].
  apply elem_of_cons in Hk as [->|Hk]; [|done].
  destruct Hsome as [r Hr]. congruence.
Qed.

(** X20: with a vehicle for every customer the solver always finds a
    solution.  On a well-formed problem in which every customer can be
    served by a vehicle of its own (demand within the capacity, due time
    reachable straight from the depot) and whose fleet is at least one
    vehicle and at least as large as the number of customers, [solve]
    returns a routes table: the missing undo of the search does no harm
    there, since with an empty vehicle left for each unassigned customer
    the search never has to turn back. *)
Theorem solve_serves_everyone (self : CSP_VRPTW) :
  problem_ok self →
  all_alone_feasible self →
  (1 <= num_vehicles self)%Z →
  length (variables self) ≤ Z.to_nat (num_vehicles self) →
  ∃ r self', solve self = Ok (Some r, self').
Proof.
  intros Hok Halone Hone Hlen.
  destruct (first_success_exists (attempt self) (vehicle_limits self)
              (Z.to_nat (num_vehicles self))) as [r Hr].
  - intros j Hj. apply elem_of_seq in Hj. apply attempt_returns; [done|lia].
  - unfold vehicle_limits. apply elem_of_seq. lia.
  - apply attempt_succeeds; [done|done|lia|done].
  - rewrite <- solve_first_success in Hr.
    destruct (solve self) as [[result self']| |]; simpl in Hr; try done.
    inversion Hr; subst result. eauto.
Qed.

(** ** The constructor *)

Lemma fadd_nan_r (f : spec_float) : fadd f S754_nan = S754_nan.
Proof. by destruct f as [s|s| |s m e]. Qed.

(** A square is a NaN or is not negative. *)
Lemma float_pow2_sign (f r : spec_float) :
  float_pow2 f = Ok r → r = S754_nan ∨ not_negative r = true.
Proof.
  intros H. destruct (decide (f = S754_nan)) as [->|Hnan].
  - inversion H. by left.
  - right. by eapply float_pow2_not_negative.
Qed.

Lemma float_pow2_raise (f : spec_float) (e : exn) :
  float_pow2 f = Raise e → e = OverflowError.
Proof.
  destruct f as [s|s| |s m e']; cbv beta iota delta [float_pow2]; try done.
  destruct (fmul _ _); congruence.
Qed.

Lemma float_pow2_fuel (f : spec_float) : float_pow2 f ≠ Fuel.
Proof.
  destruct f as [s|s| |s m e']; cbv beta iota delta [float_pow2]; try done.
  by destruct (fmul _ _).
Qed.

(** The square root never sees a negative number: the distance raises
    nothing but the [OverflowError] of a square. *)
Lemma euclidean_distance_outcome (loc1 loc2 : spec_float * spec_float) :
  returns (euclidean_distance loc1 loc2)
  ∨ euclidean_distance loc1 loc2 = Raise OverflowError.
Proof.
  unfold euclidean_distance.
  destruct (float_pow2 (fsub loc1.1 loc2.1)) as [dx|e|] eqn:Hx.
  2:{ right. apply float_pow2_raise in Hx. by subst. }
  2:{ by apply float_pow2_fuel in Hx. }
  destruct (float_pow2 (fsub loc1.2 loc2.2)) as [dy|e|] eqn:Hy.
  2:{ right. apply float_pow2_raise in Hy. by subst. }
  2:{ by apply float_pow2_fuel in Hy. }
  left. cbn [mbind outcome_bind].
  apply float_pow2_sign in Hx as [->|Hx]; [by eexists|].
  apply float_pow2_sign in Hy as [->|Hy]; [rewrite fadd_nan_r; by eexists|].
  destruct (fadd_not_negative dx dy Hx Hy) as [Hsum _].
  destruct (math_sqrt_not_negative _ Hsum) as (r & -> & _). by eexists.
Qed.

Lemma map_o_outcome {A B} (f : A → outcome B) (l : list A) :
  (∀ a, returns (f a) ∨ f a = Raise OverflowError) →
  returns (map_o f l) ∨ map_o f l = Raise OverflowError.
Proof.
  intros Hf. induction l as [|a l IH]; [left; apply returns_Ok|]. simpl.
  destruct (Hf a) as [[b ->]| ->]; [|by right]. simpl.
  destruct IH as [[bs ->]| ->]; [left; apply returns_Ok|by right].
Qed.

Lemma create_distance_matrix_outcome (custs : list customer) :
  returns (_create_distance_matrix custs)
  ∨ _create_distance_matrix custs = Raise OverflowError.
Proof.
  unfold _create_distance_matrix. apply map_o_outcome. intros li.
  apply map_o_outcome. intros lj. apply euclidean_distance_outcome.
Qed.

(** X21: the constructor either raises [OverflowError] (the square of a
    coordinate difference is out of the range of a float; the square
    root never raises, its argument being a NaN or not negative), or it
    returns a solver object that stores the customers, the capacity and
    the fleet size as given, has no assignment, an empty route for each
    vehicle and the full range of vehicles as the domain of every
    customer but the depot; a fleet size below zero gives no vehicle. *)
Theorem constructor_outcome (custs : list customer) (capacity nv : Z) :
  (∃ self, init custs capacity nv = Ok self
           ∧ customers self = custs ∧ vehicle_capacity self = capacity
           ∧ num_vehicles self = nv ∧ assignments self = ∅
           ∧ fresh_state self (Z.to_nat nv))
  ∨ init custs capacity nv = Raise OverflowError.
Proof.
  unfold init. destruct (create_distance_matrix_outcome custs) as [[dm ->]| ->]; [|by right].
  left. eexists. split; [done|]. repeat (split; [done|]). split.
  - intros v. apply fresh_routes_lookup.
  - intros x Hx. simpl. apply fresh_domains_lookup; [apply NoDup_seq|done].
Qed.

(** ** The least-constraining-value count *)

Lemma lcv_loop_closed (self : CSP_VRPTW) (value : nat) (neighbors : list nat) :
  (∀ n, n ∈ neighbors → assignments self !! n = None → is_Some (domains self !! n)) →
  ∀ count,
    lcv_loop self value neighbors count
    = Ok (count + length (filter (λ n, assignments self !! n = None
                                       ∧ value ∈ default [] (domains self !! n)) neighbors)).
Proof.
  intros Hdoms count.
  assert (Hret : returns (lcv_loop self value neighbors count)).
  { clear -Hdoms. revert count. induction neighbors as [|n rest IH]; intros count;
      [apply returns_Ok|].
    assert (Hrest : ∀ m, m ∈ rest → assignments self !! m = None → is_Some (domains self !! m))
      by (intros m Hm; apply Hdoms; by right).
    cbn [lcv_loop]. destruct (decide _) as [Hnone|]; [|by apply IH].
    destruct (Hdoms n) as [d Hd]; [by left|done|].
    unfold dict_get. rewrite Hd. cbn [mbind outcome_bind].
    destruct (bool_decide _); by apply IH. }
  destruct Hret as [c Hc]. rewrite Hc. f_equal. by apply lcv_loop_count.
Qed.

(** X22: the count that orders the candidate values.  For a value it is
    the number of unassigned variables whose domain holds the value; the
    variable being assigned, itself unassigned at that point, is counted
    like any other, and the count does not depend on which variable it is
    computed for. *)
Theorem least_constraining_value_count (self : CSP_VRPTW) (variable value : nat) :
  (∀ n, n ∈ variables self → assignments self !! n = None → is_Some (domains self !! n)) →
  _least_constraining_value self variable value
  = Ok (length (filter (λ n, assignments self !! n = None
                             ∧ value ∈ default [] (domains self !! n)) (variables self))).
Proof. intros Hdoms. unfold _least_constraining_value. by rewrite lcv_loop_closed. Qed.

(** * The further properties on the example instances *)

(** The example instances are well-formed problems. *)
Lemma two_customers_ok (capacity nv : Z) : problem_ok (built two_customers capacity nv).
Proof.
  split.
  - split; [reflexivity|]. vm_compute. repeat constructor.
  - intros c Hc. assert (Hcs : customers (built two_customers capacity nv) = two_customers)
      by reflexivity.
    rewrite Hcs in Hc. unfold two_customers in Hc.
    repeat (apply elem_of_cons in Hc as [->|Hc]; [split; by eexists|]).
    apply elem_of_nil in Hc. destruct Hc.
Qed.

Lemma one_heavy_ok (capacity nv : Z) : problem_ok (built one_heavy capacity nv).
Proof.
  split.
  - split; [reflexivity|]. vm_compute. repeat constructor.
  - intros c Hc. assert (Hcs : customers (built one_heavy capacity nv) = one_heavy)
      by reflexivity.
    rewrite Hcs in Hc. unfold one_heavy in Hc.
    repeat (apply elem_of_cons in Hc as [->|Hc]; [split; by eexists|]).
    apply elem_of_nil in Hc. destruct Hc.
Qed.

(** X1, witness: customer 2 has the only domain of size one. *)
Lemma select_minimum_remaining_values_witness :
  let self := set_domains (reset (built three_heavy 15 2) 2)
                          {[1 := [0; 1]; 2 := [1]; 3 := [0; 1]]} in
  _select_unassigned_variable self = Ok 2
  ∧ 2 ∈ variables self ∧ assignments self !! 2 = None.
Proof.
  assert (Hsel : _select_unassigned_variable
                   (set_domains (reset (built three_heavy 15 2) 2)
                                {[1 := [0; 1]; 2 := [1]; 3 := [0; 1]]}) = Ok 2)
    by (vm_compute; reflexivity).
  split; [exact Hsel|].
  destruct (select_minimum_remaining_values _ 2 Hsel) as (Hvar & Hun & _).
  split; [exact Hvar|exact Hun].
Defined.

(** X3, witness: under capacity 5 customer 1 of [three_heavy] fits no
    vehicle, and the revise step empties its domain. *)
Lemma revise_all_or_nothing_witness :
  let self := reset (built three_heavy 5 2) 2 in
  _revise self 1 2 = Ok (true, final_state (_revise self 1 2) self)
  ∧ final_state (_revise self 1 2) self = set_domains self (<[1 := []]> (domains self)).
Proof.
  assert (Hrun : _revise (reset (built three_heavy 5 2) 2) 1 2
                 = Ok (true, final_state (_revise (reset (built three_heavy 5 2) 2) 1 2)
                                         (reset (built three_heavy 5 2) 2)))
    by (vm_compute; reflexivity).
  split; [exact Hrun|].
  assert (Hne : 1 ≠ 2) by lia.
  destruct (revise_all_or_nothing _ 1 2 true _ Hne Hrun) as [[Hf _]|(_ & Hs & _)].
  - discriminate Hf.
  - exact Hs.
Defined.

(** X5, witness: the search that puts both customers on the one vehicle. *)
Lemma backtracking_search_frame_witness :
  let self := reset (built two_customers 100 1) 1 in
  backtracking_search self = Ok (Some {[0 := [1; 2]]}, final_state (backtracking_search self) self)
  ∧ size (assignments (final_state (backtracking_search self) self)) = length (variables self).
Proof.
  assert (Hrun : backtracking_search (reset (built two_customers 100 1) 1)
                 = Ok (Some {[0 := [1; 2]]},
                       final_state (backtracking_search (reset (built two_customers 100 1) 1))
                                   (reset (built two_customers 100 1) 1)))
    by (vm_compute; reflexivity).
  split; [exact Hrun|].
  destruct (backtracking_search_frame _ _ _ Hrun) as (_ & _ & _ & Hsize). exact Hsize.
Defined.

(** X6, witness: the failed search of [three_heavy] leaves customer 2 a
    part of its domain. *)
Lemma search_domains_only_shrink_witness :
  let self := reset (built three_heavy 15 2) 2 in
  backtracking_search self = Ok (None, final_state (backtracking_search self) self)
  ∧ ∃ d', domains (final_state (backtracking_search self) self) !! 2 = Some d'
          ∧ d' `sublist_of` [0; 1].
Proof.
  assert (Hrun : backtracking_search (reset (built three_heavy 15 2) 2)
                 = Ok (None,
                       final_state (backtracking_search (reset (built three_heavy 15 2) 2))
                                   (reset (built three_heavy 15 2) 2)))
    by (vm_compute; reflexivity).
  split; [exact Hrun|].
  assert (Hd : domains (reset (built three_heavy 15 2) 2) !! 2 = Some [0; 1])
    by (vm_compute; reflexivity).
  exact (search_domains_only_shrink _ _ _ Hrun 2 [0; 1] Hd).
Defined.

(** X7, witness: at the root of the search of [three_heavy], vehicle 0 is
    tried for customer 1 and fails; vehicle 1 is then turned down. *)
Lemma failed_candidate_ends_node_witness :
  let self := reset (built three_heavy 15 2) 2 in
  try_values (_backtrack 3) 1 self [0; 1]
  = Ok (None, final_state (try_values (_backtrack 3) 1 self [0]) self).
Proof.
  apply failed_candidate_ends_node.
  - vm_compute. reflexivity.
  - vm_compute. reflexivity.
  - intros v Hv. apply list_elem_of_singleton in Hv. subst v. exists []. vm_compute. reflexivity.
Defined.

(** X10, witness: the matrix of [two_customers] has three rows. *)
Lemma distance_matrix_square_witness :
  init two_customers 100 1 = Ok (built two_customers 100 1)
  ∧ length (distance_matrix (built two_customers 100 1)) = 3.
Proof.
  assert (Hrun : init two_customers 100 1 = Ok (built two_customers 100 1))
    by (vm_compute; reflexivity).
  split; [exact Hrun|].
  destruct (distance_matrix_square _ _ _ _ Hrun) as (Hlen & _). exact Hlen.
Defined.

(** X11, witness: a customer infinitely far east of the depot; the
    distance is infinite both ways. *)
Lemma distance_matrix_mirror_witness :
  let custs := [the_depot; Customer 1 (S754_infinity false) (of_Z 0) 1 0 1000 0] in
  ∃ m, _create_distance_matrix custs = Ok m
       ∧ entry m 0 1 = Some (S754_infinity false)
       ∧ entry m 1 0 = Some (S754_infinity false).
Proof.
  intros custs.
  assert (Hrun : ∃ m, _create_distance_matrix custs = Ok m
                      ∧ entry m 0 1 = Some (S754_infinity false))
    by (vm_compute; eexists; split; reflexivity).
  destruct Hrun as (m & Hrun & He). exists m. split; [exact Hrun|]. split; [exact He|].
  destruct (distance_matrix_mirror custs m 0 1 _ Hrun He) as (d' & Hd' & _ & Hsame).
  rewrite Hd'. f_equal. apply Hsame. discriminate.
Defined.

(** X12, witness: after customer 1 of [two_customers] is put on vehicle 0
    under capacity 15, forward checking leaves customer 2 vehicle 1 only;
    a second pass, for whatever variable and value, changes nothing. *)
Lemma forward_checking_idempotent_witness :
  let start := reset (built two_customers 15 2) 2 in
  let self := set_routes (set_assignments start {[1 := 0]}) {[0 := [1]; 1 := []]} in
  let self' := set_domains self {[1 := [0; 1]; 2 := [1]]} in
  _forward_checking self 1 0 = Ok (true, self')
  ∧ _forward_checking self' 2 1 = Ok (true, self').
Proof.
  intros start self self'.
  assert (Hrun : _forward_checking self 1 0 = Ok (true, self'))
    by (vm_compute; reflexivity).
  split; [exact Hrun|].
  exact (forward_checking_idempotent self self' 1 0 2 1 Hrun).
Defined.

(** X13, witness: solving [two_customers] a second time, on the object
    the first call leaves, gives the same two routes. *)
Lemma solve_again_witness :
  let self := built two_customers 15 2 in
  solve self = Ok (Some {[0 := [1]; 1 := [2]]}, final_state (solve self) self)
  ∧ fst <$> solve (final_state (solve self) self) = Ok (Some {[0 := [1]; 1 := [2]]}).
Proof.
  intros self.
  assert (Hrun : solve self = Ok (Some {[0 := [1]; 1 := [2]]}, final_state (solve self) self))
    by (vm_compute; reflexivity).
  split; [exact Hrun|].
  exact (proj2 (solve_again self _ _ Hrun)).
Defined.

(** X14, witness: a fleet of no vehicle. *)
Lemma solve_without_vehicles_witness :
  (num_vehicles (built two_customers 100 0) <= 0)%Z
  ∧ solve (built two_customers 100 0) = Ok (None, built two_customers 100 0).
Proof.
  assert (Hnv : (num_vehicles (built two_customers 100 0) <= 0)%Z).
  { assert (H : num_vehicles (built two_customers 100 0) = 0%Z) by (vm_compute; reflexivity).
    rewrite H. lia. }
  split; [exact Hnv|].
  exact (solve_without_vehicles _ Hnv).
Defined.

(** X15, witness: [two_customers] with one vehicle. *)
Lemma solve_returns_witness :
  ∃ result self', solve (built two_customers 100 1) = Ok (result, self').
Proof. exact (solve_returns _ (two_customers_ok 100 1)). Defined.

(** X16, witness: the customer of [one_heavy] asks for 20 units of a
    capacity of 10; three vehicles do not help. *)
Lemma solve_unservable_customer_witness :
  alone_feasible (built one_heavy 10 3) 1 = Ok false
  ∧ fst <$> solve (built one_heavy 10 3) = Ok None.
Proof.
  assert (Hx : 1 ∈ variables (built one_heavy 10 3)).
  { assert (Hv : variables (built one_heavy 10 3) = [1]) by (vm_compute; reflexivity).
    rewrite Hv. by left. }
  assert (Hfalse : alone_feasible (built one_heavy 10 3) 1 = Ok false)
    by (vm_compute; reflexivity).
  split; [exact Hfalse|].
  exact (solve_unservable_customer _ 1 (one_heavy_ok 10 3) Hx Hfalse).
Defined.

(** X18, witness: the two routes that solve [two_customers] under
    capacity 15 have a float as their total distance. *)
Lemma calculate_total_distance_kind_witness :
  let self := final_state (solve (built two_customers 15 2)) (built two_customers 15 2) in
  ∃ f, calculate_total_distance self = Ok (PFloat f).
Proof.
  intros self.
  assert (Hrun : ∃ t, calculate_total_distance self = Ok t)
    by (vm_compute; eexists; reflexivity).
  destruct Hrun as [t Hrun].
  destruct (calculate_total_distance_kind self t Hrun) as [_ Hfloat].
  destruct Hfloat as [f Hf].
  - exists 0, [1]. split; [vm_compute; reflexivity|discriminate].
  - exists f. exact (eq_trans Hrun (f_equal Ok Hf)).
Defined.

(** X19, witness: the solution of [two_customers] under capacity 15 is
    formatted with a count of two routes. *)
Lemma format_solution_after_solve_witness :
  let self := built two_customers 15 2 in
  let r : routes_t := {[0 := [1]; 1 := [2]]} in
  ∃ text total,
    format_solution (final_state (solve self) self) =
      Ok (text, length (filter (λ vr : nat * list nat, vr.2 ≠ []) (dict_items r)), total)
    ∧ length (filter (λ vr : nat * list nat, vr.2 ≠ []) (dict_items r))
      ≤ Z.to_nat (num_vehicles self).
Proof.
  intros self r.
  assert (Hrun : solve self = Ok (Some r, final_state (solve self) self))
    by (vm_compute; reflexivity).
  exact (format_solution_after_solve self _ r (proj1 (two_customers_ok 15 2)) Hrun).
Defined.

(** X20, witness: two vehicles for the two customers of [two_customers]. *)
Lemma solve_serves_everyone_witness :
  ∃ r self', solve (built two_customers 15 2) = Ok (Some r, self').
Proof.
  assert (Hv : variables (built two_customers 15 2) = [1; 2]) by (vm_compute; reflexivity).
  assert (Hnv : num_vehicles (built two_customers 15 2) = 2%Z) by (vm_compute; reflexivity).
  apply solve_serves_everyone.
  - apply two_customers_ok.
  - intros x Hx. rewrite Hv in Hx.
    repeat (apply elem_of_cons in Hx as [->|Hx]; [vm_compute; reflexivity|]).
    apply elem_of_nil in Hx. destruct Hx.
  - rewrite Hnv. lia.
  - rewrite Hv, Hnv. simpl. lia.
Defined.

(** X22, witness: at the start of the search for [two_customers], value 0
    is in the domain of both customers. *)
Lemma least_constraining_value_count_witness :
  _least_constraining_value (reset (built two_customers 100 3) 3) 1 0 = Ok 2.
Proof.
  rewrite least_constraining_value_count.
  - vm_compute. reflexivity.
  - intros n Hn _.
    assert (Hv : variables (reset (built two_customers 100 3) 3) = [1; 2])
      by (vm_compute; reflexivity).
    rewrite Hv in Hn.
    repeat (apply elem_of_cons in Hn as [->|Hn]; [exists (seq 0 3); vm_compute; reflexivity|]).
    apply elem_of_nil in Hn. destruct Hn.
Defined.
